(** * Sample-profile ingestion and CFG annotation (gcc/tree-sample-profile.c)

    A shallow embedding of the reader of the binary sample file, of the two
    sample indices and of the per-function annotator, followed by the
    properties established about them.  C integers are carried as [Z] with
    the wrap-around of their C type written where arithmetic is performed;
    stateful code threads its state through a small monad whose outcomes
    distinguish normal completion, an early [return], a failed [gcc_assert]
    and a store outside an array. *)

From Stdlib Require Import ZArith List String Bool Lia Arith.
Import ListNotations.
Open Scope Z_scope.

(** ** Machine integers *)

(** [unsigned int] arithmetic. *)
Definition wrap_u32 (z : Z) : Z := z mod 2 ^ 32.
(** [unsigned long long] arithmetic. *)
Definition wrap_u64 (z : Z) : Z := z mod 2 ^ 64.
(** [gcov_type] arithmetic (a signed 64-bit integer, two's complement). *)
Definition wrap_s64 (z : Z) : Z := (z + 2 ^ 63) mod 2 ^ 64 - 2 ^ 63.

(** The constants of the file. *)
Definition FB_INLINE_MAX_STACK : Z := 200.
Definition MAX_LINES_PER_BASIC_BLOCK : Z := 500.
Definition MIN_SAMPLE_BB_COUNT : Z := 5.

(** ** Strings *)

(** [strcmp] on NUL-terminated strings; only its sign is ever inspected. *)
Definition strcmp (a b : string) : Z :=
  match String.compare a b with
  | Eq => 0
  | Lt => -1
  | Gt => 1
  end.

(** ** Control-flow monad

    [Val]: the statement completed; [Return]: a C [return v] was executed in
    the enclosing function; [Abort]: a [gcc_assert] failed (internal compiler
    error); [Undefined]: a store outside the bounds of an array. *)

Inductive outcome (St A : Type) : Type :=
| Val (a : A) (s : St)
| Return (v : Z) (s : St)
| Abort (s : St)
| Undefined (s : St).
Arguments Val {St A} a s.
Arguments Return {St A} v s.
Arguments Abort {St A} s.
Arguments Undefined {St A} s.

Definition M (St A : Type) : Type := St -> outcome St A.

Definition ret {St A} (a : A) : M St A := fun s => Val a s.

Definition bind {St A B} (m : M St A) (k : A -> M St B) : M St B :=
  fun s =>
    match m s with
    | Val a s' => k a s'
    | Return v s' => Return v s'
    | Abort s' => Abort s'
    | Undefined s' => Undefined s'
    end.

Declare Scope c_scope.
Delimit Scope c_scope with C.
Notation "x <- m ;; k" := (bind m (fun x => k))
  (at level 61, m at next level, right associativity) : c_scope.
Notation "m ;; k" := (bind m (fun _ => k))
  (at level 61, right associativity) : c_scope.
Open Scope c_scope.

Definition get {St} : M St St := fun s => Val s s.
Definition modify {St} (f : St -> St) : M St unit := fun s => Val tt (f s).
Definition return_ {St A} (v : Z) : M St A := fun s => Return v s.
Definition gcc_assert {St} (b : bool) : M St unit :=
  fun s => if b then Val tt s else Abort s.
Definition undefined {St A} : M St A := fun s => Undefined s.

(** A call: the callee's [return v] becomes the value of the call. *)
Definition call {St} (m : M St Z) : M St Z :=
  fun s =>
    match m s with
    | Val a s' => Val a s'
    | Return v s' => Val v s'
    | Abort s' => Abort s'
    | Undefined s' => Undefined s'
    end.

(** [for (i = start; i < start + n; ++i) acc = body (i, acc);] *)
Fixpoint for_upto {St A} (n : nat) (i : Z) (body : Z -> A -> M St A) (acc : A)
  : M St A :=
  match n with
  | O => ret acc
  | S n' => acc' <- body i acc ;; for_upto n' (i + 1) body acc'
  end.

(** The state of an outcome, whatever its kind. *)
Definition final_state {St A} (o : outcome St A) : St :=
  match o with
  | Val _ s | Return _ s | Abort s | Undefined s => s
  end.

(** ** Data model *)

(** [expanded_location]; only [file] and [line] are read or written here. *)
Record expanded_location : Type := mk_loc { file : string; line : Z }.

Definition zero_location : expanded_location := mk_loc EmptyString 0.

(** Addresses of objects: [Heap n i] is element [i] of the [n]-th block
    obtained from [xcalloc]; [Local] is an array of the current C frame. *)
Inductive address : Type :=
| NULL
| Heap (block : nat) (idx : nat)
| Local.

Definition address_eqb (a b : address) : bool :=
  match a, b with
  | NULL, NULL => true
  | Local, Local => true
  | Heap n i, Heap m j => Nat.eqb n m && Nat.eqb i j
  | _, _ => false
  end.

(** A pointer to an array of frames together with the frames it points to:
    the arrays are filled before any record refers to them and are not
    written afterwards. *)
Record stack_ptr : Type :=
  mk_stack_ptr { stack_addr : address; frames : list expanded_location }.

(** Modelled from the spec: [struct sample_freq_detail] is declared in
    tree-sample-profile.h, which is not among the sources; the flat sample
    record {filename, function name, line, frequency, sampled-instruction
    count}. *)
Record sample_freq_detail : Type := mk_sample_freq_detail {
  fd_filename : string;
  fd_func_name : string;
  fd_line_num : Z;
  fd_freq : Z;
  fd_num_instr : Z
}.

(** Modelled from the spec: [struct sample_inline_freq] is declared in
    tree-sample-profile.h; the inline sample record with its call stack and
    the [is_first] mark used by [sp_inline_info_del]. *)
Record sample_inline_freq : Type := mk_sample_inline_freq {
  depth : Z;
  inline_stack : stack_ptr;
  filename : string;
  func_name : string;
  line_num : Z;
  freq : Z;
  num_instr : Z;
  is_first : bool
}.

(** What [xcalloc] hands out: all fields zero. *)
Definition zero_sample_freq_detail : sample_freq_detail :=
  mk_sample_freq_detail EmptyString EmptyString 0 0 0.
Definition zero_sample_inline_freq : sample_inline_freq :=
  mk_sample_inline_freq 0 (mk_stack_ptr NULL []) EmptyString EmptyString 0 0 0 false.

(** ** Equality of index keys *)

(** [sp_info_eq]. *)
Definition sp_info_eq (a b : sample_freq_detail) : bool :=
  (fd_line_num a =? fd_line_num b)
  && (strcmp (fd_filename a) (fd_filename b) =? 0)
  && (strcmp (fd_func_name a) (fd_func_name b) =? 0).

(** The [while (i < a->depth)] loop of [sp_inline_info_eq]: [todo] frames
    remain to be compared from index [i]; [false] is the [return 0]. *)
Fixpoint inline_stack_eq_from (todo : nat) (i : nat)
  (sa sb : list expanded_location) : bool :=
  match todo with
  | O => true
  | S todo' =>
      let ea := nth i sa zero_location in
      let eb := nth i sb zero_location in
      if negb (line ea =? line eb) || negb (strcmp (file ea) (file eb) =? 0)
      then false
      else inline_stack_eq_from todo' (S i) sa sb
  end.

(** [sp_inline_info_eq]. *)
Definition sp_inline_info_eq (a b : sample_inline_freq) : bool :=
  if negb (line_num a =? line_num b) then false
  else if negb (depth a =? depth b) then false
  else if negb (inline_stack_eq_from (Z.to_nat (depth a)) 0
                  (frames (inline_stack a)) (frames (inline_stack b)))
  then false
  else (strcmp (filename a) (filename b) =? 0)
       && (strcmp (func_name a) (func_name b) =? 0).

(** [sp_inline_info_del]: the address released when the element is deleted,
    if any. *)
Definition sp_inline_info_del (a : sample_inline_freq) : option address :=
  if is_first a then Some (stack_addr (inline_stack a)) else None.

(** ** Hash tables *)

(** Modelled from the spec: libiberty's hashtab.c is not among the sources.
    A content-addressed map keyed by value equality: the slots hold pointers
    to elements, listed here in insertion order, each with the element it
    points to; a lookup yields the slot whose element the table's equality
    function accepts against the key, and an insertion takes a fresh slot
    only when no such slot exists. *)
Definition htab (A : Type) : Type := list (address * A).

Definition htab_find {A} (eq_f : A -> A -> bool) (tab : htab A) (key : A)
  : option (address * A) :=
  find (fun slot => eq_f (snd slot) key) tab.

(** [*slot = p] on the empty slot returned by [htab_find_slot (.., INSERT)]. *)
Definition htab_fill {A} (tab : htab A) (p : address) (elem : A) : htab A :=
  tab ++ [(p, elem)].

(** [for (x in l) acc = body (x, acc);] *)
Fixpoint for_each {St A B} (l : list B) (body : B -> A -> M St A) (acc : A)
  : M St A :=
  match l with
  | [] => ret acc
  | x :: l' => acc' <- body x acc ;; for_each l' body acc'
  end.

(** A store [arr[i] = v]; [None] when [i] lies outside the array. *)
Definition array_store {A} (arr : list A) (i : nat) (v : A) : option (list A) :=
  if (i <? List.length arr)%nat
  then Some (firstn i arr ++ v :: skipn (S i) arr)
  else None.

(** ** The sample file *)

(** Modelled from the spec: [struct fb_sample_hdr] (tree-sample-profile.h),
    the fixed file header: string-table offset and size, function-header
    table offset, count and entry size, profile-data base offset. *)
Record fb_sample_hdr : Type := mk_fb_sample_hdr {
  fb_str_table_offset : Z;
  fb_str_table_size : Z;
  fb_func_hdr_offset : Z;
  fb_func_hdr_num : Z;
  fb_func_hdr_ent_size : Z;
  fb_profile_offset : Z
}.

(** Modelled from the spec: [struct func_sample_hdr] (tree-sample-profile.h),
    the header of a function and of an inline group, with the fields this
    file reads. *)
Record func_sample_hdr : Type := mk_func_sample_hdr {
  filename_offset : Z;
  func_name_index : Z;
  func_num_freq_entries : Z;
  func_profile_offset : Z;
  func_freq_offset : Z;
  func_num_inline_entries : Z;
  func_inline_hdr_offset : Z;
  inline_depth : Z;
  inline_stack_offset : Z;
  total_samples : Z
}.

(** Modelled from the spec: [struct fb_info_inline_stack_entry], one frame of
    an inline stack on disk: filename offset (4B), line (4B). *)
Record fb_info_inline_stack_entry : Type := mk_stack_entry {
  se_filename_offset : Z;
  se_line_num : Z
}.

(** Modelled from the spec: [struct fb_info_freq], one per-line record on
    disk: line (4B), frequency (8B, read as a [gcov_type]), sampled
    instruction count (4B). *)
Record fb_info_freq : Type := mk_fb_info_freq {
  fi_line_num : Z;
  fi_freq : Z;
  fi_num_instr : Z
}.

Definition sizeof_fb_info_inline_stack_entry : Z := 8.
Definition sizeof_fb_info_freq : Z := 16.
Definition sizeof_fb_sample_hdr : Z := 40.

(** The file as the C library presents it: which seeks succeed, and what a
    read of each kind of object yields at each offset ([None]: the read is
    short or fails).  The string table is given as the map from an offset to
    the NUL-terminated string that starts there; the reader does not compare
    an offset with the size of the table, and what an offset outside it
    yields is left to the map. *)
Record disk : Type := mk_disk {
  d_header : option fb_sample_hdr;
  d_seek : Z -> bool;
  d_str_table : Z -> Z -> option (Z -> string);
  d_func_hdr_bytes : Z -> Z -> option func_sample_hdr;
  d_stack_entry : Z -> option fb_info_inline_stack_entry;
  d_sample : Z -> option fb_info_freq
}.

(** Modelled from the spec: [sizeof (struct func_sample_hdr)]; the struct is
    declared in tree-sample-profile.h.  The ten fields above with the widths
    the file layout gives them (two offsets into the string table and the
    depth of 4 bytes, the others of 8) and their natural alignment. *)
Definition sizeof_func_sample_hdr : Z := 72.

(** What a read of [size] bytes at offset [off] leaves in a
    [struct func_sample_hdr], when the bytes are there and fit in it. *)
Definition d_func_hdr (d : disk) (off size : Z) : option func_sample_hdr :=
  if size <=? sizeof_func_sample_hdr then d_func_hdr_bytes d off size
  else None.

(** The places where the reader performs I/O. *)
Inductive io_site : Type :=
| FileHeaderRead
| StrTableSeek
| StrTableRead
| FuncHdrSeek
| FuncHdrRead
| FlatSeek
| FlatRead
| InlineHdrSeek
| InlineHdrRead
| InlineStackSeek
| InlineStackRead
| InlineProfileSeek
| InlineSampleRead.

(** I/O performed by [read_inline_function], as opposed to [sp_reader] and
    the three helpers it calls. *)
Definition inline_site (site : io_site) : bool :=
  match site with
  | InlineHdrSeek | InlineHdrRead | InlineStackSeek | InlineStackRead
  | InlineProfileSeek | InlineSampleRead => true
  | _ => false
  end.

Inductive io_result : Type :=
| Failed
| Done
| Sample (s : fb_info_freq).

Definition io_event : Type := (io_site * io_result)%type.

Definition io_failed (e : io_event) : bool :=
  match snd e with
  | Failed => true
  | _ => false
  end.

Inductive diagnostic : Type :=
| Error (msg : string)
| Inform (msg : string).

(** ** State of the reader

    The file-scope variables of tree-sample-profile.c, the position of the
    open [FILE], and a record of the I/O performed.  [sample_buf] and
    [inline_sample_buf] hold the block number of the array they currently
    point to together with its contents. *)
Record sp_state : Type := mk_sp_state {
  fb_hdr : fb_sample_hdr;
  str_table : Z -> string;
  sp_htab : htab sample_freq_detail;
  sample_buf : nat * list sample_freq_detail;
  sp_inline_htab : htab sample_inline_freq;
  inline_sample_buf : nat * list sample_inline_freq;
  sp_max_count : Z;
  sp_num_samples : Z;
  flag_sample_profile : bool;
  heap_blocks : nat;
  file_pos : Z;
  diagnostics : list diagnostic;
  io_log : list io_event
}.

Definition set_fb_hdr (h : fb_sample_hdr) (s : sp_state) : sp_state :=
  mk_sp_state h (str_table s) (sp_htab s) (sample_buf s) (sp_inline_htab s)
    (inline_sample_buf s) (sp_max_count s) (sp_num_samples s)
    (flag_sample_profile s) (heap_blocks s) (file_pos s) (diagnostics s) (io_log s).
Definition set_str_table (t : Z -> string) (s : sp_state) : sp_state :=
  mk_sp_state (fb_hdr s) t (sp_htab s) (sample_buf s) (sp_inline_htab s)
    (inline_sample_buf s) (sp_max_count s) (sp_num_samples s)
    (flag_sample_profile s) (heap_blocks s) (file_pos s) (diagnostics s) (io_log s).
Definition set_sp_htab (t : htab sample_freq_detail) (s : sp_state) : sp_state :=
  mk_sp_state (fb_hdr s) (str_table s) t (sample_buf s) (sp_inline_htab s)
    (inline_sample_buf s) (sp_max_count s) (sp_num_samples s)
    (flag_sample_profile s) (heap_blocks s) (file_pos s) (diagnostics s) (io_log s).
Definition set_sample_buf (b : nat * list sample_freq_detail) (s : sp_state)
  : sp_state :=
  mk_sp_state (fb_hdr s) (str_table s) (sp_htab s) b (sp_inline_htab s)
    (inline_sample_buf s) (sp_max_count s) (sp_num_samples s)
    (flag_sample_profile s) (heap_blocks s) (file_pos s) (diagnostics s) (io_log s).
Definition set_sp_inline_htab (t : htab sample_inline_freq) (s : sp_state)
  : sp_state :=
  mk_sp_state (fb_hdr s) (str_table s) (sp_htab s) (sample_buf s) t
    (inline_sample_buf s) (sp_max_count s) (sp_num_samples s)
    (flag_sample_profile s) (heap_blocks s) (file_pos s) (diagnostics s) (io_log s).
Definition set_inline_sample_buf (b : nat * list sample_inline_freq)
  (s : sp_state) : sp_state :=
  mk_sp_state (fb_hdr s) (str_table s) (sp_htab s) (sample_buf s)
    (sp_inline_htab s) b (sp_max_count s) (sp_num_samples s)
    (flag_sample_profile s) (heap_blocks s) (file_pos s) (diagnostics s) (io_log s).
Definition set_sp_max_count (c : Z) (s : sp_state) : sp_state :=
  mk_sp_state (fb_hdr s) (str_table s) (sp_htab s) (sample_buf s)
    (sp_inline_htab s) (inline_sample_buf s) c (sp_num_samples s)
    (flag_sample_profile s) (heap_blocks s) (file_pos s) (diagnostics s) (io_log s).
Definition set_sp_num_samples (n : Z) (s : sp_state) : sp_state :=
  mk_sp_state (fb_hdr s) (str_table s) (sp_htab s) (sample_buf s)
    (sp_inline_htab s) (inline_sample_buf s) (sp_max_count s) n
    (flag_sample_profile s) (heap_blocks s) (file_pos s) (diagnostics s) (io_log s).
Definition set_flag_sample_profile (b : bool) (s : sp_state) : sp_state :=
  mk_sp_state (fb_hdr s) (str_table s) (sp_htab s) (sample_buf s)
    (sp_inline_htab s) (inline_sample_buf s) (sp_max_count s) (sp_num_samples s)
    b (heap_blocks s) (file_pos s) (diagnostics s) (io_log s).
Definition set_heap_blocks (n : nat) (s : sp_state) : sp_state :=
  mk_sp_state (fb_hdr s) (str_table s) (sp_htab s) (sample_buf s)
    (sp_inline_htab s) (inline_sample_buf s) (sp_max_count s) (sp_num_samples s)
    (flag_sample_profile s) n (file_pos s) (diagnostics s) (io_log s).
Definition set_file_pos (p : Z) (s : sp_state) : sp_state :=
  mk_sp_state (fb_hdr s) (str_table s) (sp_htab s) (sample_buf s)
    (sp_inline_htab s) (inline_sample_buf s) (sp_max_count s) (sp_num_samples s)
    (flag_sample_profile s) (heap_blocks s) p (diagnostics s) (io_log s).
Definition add_diagnostic (m : diagnostic) (s : sp_state) : sp_state :=
  mk_sp_state (fb_hdr s) (str_table s) (sp_htab s) (sample_buf s)
    (sp_inline_htab s) (inline_sample_buf s) (sp_max_count s) (sp_num_samples s)
    (flag_sample_profile s) (heap_blocks s) (file_pos s) (diagnostics s ++ [m])
    (io_log s).
Definition add_io (e : io_event) (s : sp_state) : sp_state :=
  mk_sp_state (fb_hdr s) (str_table s) (sp_htab s) (sample_buf s)
    (sp_inline_htab s) (inline_sample_buf s) (sp_max_count s) (sp_num_samples s)
    (flag_sample_profile s) (heap_blocks s) (file_pos s) (diagnostics s)
    (io_log s ++ [e]).

(** The variables as the program starts: all zero, no file read yet;
    [flag_sample_profile] is set, since the reader runs under it. *)
Definition initial_state : sp_state :=
  mk_sp_state (mk_fb_sample_hdr 0 0 0 0 0 0) (fun _ => EmptyString) []
    (O, []) [] (O, []) 0 0 true O 0 [] [].

Definition error (msg : string) : M sp_state unit :=
  modify (add_diagnostic (Error msg)).
Definition inform (msg : string) : M sp_state unit :=
  modify (add_diagnostic (Inform msg)).

(** [xcalloc]: a fresh block; its number is returned.  Modelled from the
    spec: libiberty's xmalloc.c is not among the sources.  [xcalloc] and
    [xmalloc] never return a null pointer; when memory is exhausted they end
    the compiler with a fatal error.  The runs described here are those in
    which the memory asked for is granted. *)
Definition xcalloc : M sp_state nat :=
  fun s => Val (heap_blocks s) (set_heap_blocks (S (heap_blocks s)) s).

(** ** I/O primitives *)

(** [fseek (f, off, SEEK_SET) == 0]. *)
Definition fseek (d : disk) (site : io_site) (off : Z) : M sp_state bool :=
  fun s =>
    if d_seek d off
    then Val true (add_io (site, Done) (set_file_pos off s))
    else Val false (add_io (site, Failed) s).

(** [fread] of one [struct fb_info_freq] at the current position. *)
Definition fread_sample (d : disk) (site : io_site)
  : M sp_state (option fb_info_freq) :=
  fun s =>
    match d_sample d (file_pos s) with
    | Some r =>
        Val (Some r)
          (add_io (site, Sample r)
             (set_file_pos (file_pos s + sizeof_fb_info_freq) s))
    | None => Val None (add_io (site, Failed) s)
    end.

(** The [n] stack entries that start at offset [off], if all are there. *)
Fixpoint stack_entries_at (d : disk) (off : Z) (n : nat)
  : option (list fb_info_inline_stack_entry) :=
  match n with
  | O => Some []
  | S n' =>
      match d_stack_entry d off with
      | Some e =>
          match stack_entries_at d (off + sizeof_fb_info_inline_stack_entry) n' with
          | Some l => Some (e :: l)
          | None => None
          end
      | None => None
      end
  end.

(** [fread (&stack_entry, stack_entry_size, inline_depth, infile)]. *)
Definition fread_stack_entries (d : disk) (site : io_site) (n : Z)
  : M sp_state (option (list fb_info_inline_stack_entry)) :=
  fun s =>
    match stack_entries_at d (file_pos s) (Z.to_nat n) with
    | Some l =>
        Val (Some l)
          (add_io (site, Done)
             (set_file_pos (file_pos s + n * sizeof_fb_info_inline_stack_entry) s))
    | None => Val None (add_io (site, Failed) s)
    end.

(** [fread (hdr, 1, func_hdr_size, infile)], [hdr] pointing to a
    [struct func_sample_hdr].  The size is the one the file header declares
    for an entry, and nothing compares it with the size of the struct: a
    read of more bytes than the struct holds stores outside it (how many
    bytes a short read delivers is not told apart). *)
Definition fread_func_hdr (d : disk) (site : io_site) (size : Z)
  : M sp_state (option func_sample_hdr) :=
  fun s =>
    if sizeof_func_sample_hdr <? size then Undefined s
    else
      match d_func_hdr d (file_pos s) size with
      | Some h =>
          Val (Some h) (add_io (site, Done) (set_file_pos (file_pos s + size) s))
      | None => Val None (add_io (site, Failed) s)
      end.

(** [read_file_header]: 0 if successful, -1 otherwise. *)
Definition read_file_header (d : disk) : M sp_state Z :=
  fun s =>
    match d_header d with
    | Some h =>
        Val 0
          (add_io (FileHeaderRead, Done)
             (set_file_pos (file_pos s + sizeof_fb_sample_hdr) (set_fb_hdr h s)))
    | None => Val (-1) (add_io (FileHeaderRead, Failed) s)
    end.

(** [read_string_table]: 0 if successful, -1 otherwise. *)
Definition read_string_table (d : disk) : M sp_state Z :=
  s <- get ;;
  ok <- fseek d StrTableSeek (fb_str_table_offset (fb_hdr s)) ;;
  if negb ok then ret (-1)
  else
    let str_table_size := fb_str_table_size (fb_hdr s) in
    _ <- xcalloc ;;
    fun s' =>
      match d_str_table d (file_pos s') str_table_size with
      | Some t =>
          Val 0
            (add_io (StrTableRead, Done)
               (set_file_pos (file_pos s' + str_table_size) (set_str_table t s')))
      | None => Val (-1) (add_io (StrTableRead, Failed) s')
      end.

(** [read_function_header]: 0 and the header if successful, -1 otherwise. *)
Definition read_function_header (d : disk) (i : Z)
  : M sp_state (Z * option func_sample_hdr) :=
  s <- get ;;
  gcc_assert (i <=? fb_func_hdr_num (fb_hdr s)) ;;
  let func_hdr_size := fb_func_hdr_ent_size (fb_hdr s) in
  let offset := wrap_u32 (i * func_hdr_size) in
  ok <- fseek d FuncHdrSeek (wrap_u64 (fb_func_hdr_offset (fb_hdr s) + offset)) ;;
  if negb ok then ret (-1, None)
  else
    r <- fread_func_hdr d FuncHdrRead func_hdr_size ;;
    match r with
    | Some h => ret (0, Some h)
    | None => ret (-1, None)
    end.

(** ** Reading inline groups *)

Definition zero_stack_entry : fb_info_inline_stack_entry := mk_stack_entry 0 0.

(** The [while (i < inline_depth)] loop that sets up [stack_buf] from the
    entries read into [stack_entry]; [todo] iterations remain. *)
Fixpoint set_up_stack_buf (todo : nat) (i : Z) (inline_depth : Z)
  (strs : Z -> string) (stack_entry : list fb_info_inline_stack_entry)
  (stack_buf : list expanded_location) : option (list expanded_location) :=
  match todo with
  | O => Some stack_buf
  | S todo' =>
      let e := nth (Z.to_nat i) stack_entry zero_stack_entry in
      match array_store stack_buf (Z.to_nat (inline_depth - i - 1))
              (mk_loc (strs (se_filename_offset e)) (se_line_num e)) with
      | Some buf' =>
          set_up_stack_buf todo' (i + 1) inline_depth strs stack_entry buf'
      | None => None
      end
  end.

(** [inline_sample_buf[j] = elt]. *)
Definition store_inline_sample_buf (j : Z) (elt : sample_inline_freq)
  : M sp_state unit :=
  fun s =>
    match array_store (snd (inline_sample_buf s)) (Z.to_nat j) elt with
    | Some arr => Val tt (set_inline_sample_buf (fst (inline_sample_buf s), arr) s)
    | None => Undefined s
    end.

(** [sample_buf[j] = elt]. *)
Definition store_sample_buf (j : Z) (elt : sample_freq_detail)
  : M sp_state unit :=
  fun s =>
    match array_store (snd (sample_buf s)) (Z.to_nat j) elt with
    | Some arr => Val tt (set_sample_buf (fst (sample_buf s), arr) s)
    | None => Undefined s
    end.

(** [if (sample.freq > sp_max_count) sp_max_count = sample.freq;] *)
Definition update_sp_max_count (f : Z) : M sp_state unit :=
  fun s =>
    if f >? sp_max_count s then Val tt (set_sp_max_count f s) else Val tt s.

(** The record written to [inline_sample_buf[j]] from the [j]-th per-line
    record of a group; the first one is marked [is_first]. *)
Definition inline_record (strs : Z -> string) (inline_func_hdr : func_sample_hdr)
  (inline_depth : Z) (stack_buf : stack_ptr) (j : Z) (sample : fb_info_freq)
  : sample_inline_freq :=
  mk_sample_inline_freq inline_depth stack_buf
    (strs (filename_offset inline_func_hdr))
    (strs (func_name_index inline_func_hdr))
    (fi_line_num sample) (fi_freq sample) (fi_num_instr sample)
    (j =? 0).

(** The body of the [for (j = 0; j < num_lines; ++j)] loop of
    [read_inline_function]; the accumulator is [curr_num_samples]. *)
Definition read_inline_sample (d : disk) (inline_func_hdr : func_sample_hdr)
  (inline_depth : Z) (stack_buf : stack_ptr) (j : Z) (curr_num_samples : Z)
  : M sp_state Z :=
  r <- fread_sample d InlineSampleRead ;;
  match r with
  | None =>
      error "read_inline_function(): fread profile_data error." ;;
      return_ curr_num_samples
  | Some sample =>
      s <- get ;;
      let elt :=
        inline_record (str_table s) inline_func_hdr inline_depth stack_buf j sample in
      store_inline_sample_buf j elt ;;
      update_sp_max_count (fi_freq sample) ;;
      s <- get ;;
      match htab_find sp_inline_info_eq (sp_inline_htab s) elt with
      | Some _ =>
          inform "Duplicate entry: %s:%d" ;;
          ret curr_num_samples
      | None =>
          modify (fun s =>
            set_sp_inline_htab
              (htab_fill (sp_inline_htab s)
                 (Heap (fst (inline_sample_buf s)) (Z.to_nat j)) elt) s) ;;
          ret (wrap_u64 (curr_num_samples + 1))
      end
  end.

(** The synthetic record stored at [inline_sample_buf[num_lines]]: the total
    sample of the call site. *)
Definition callsite_total (strs : Z -> string) (inline_func_hdr : func_sample_hdr)
  (inline_depth : Z) (stack_buf : stack_ptr) : sample_inline_freq :=
  mk_sample_inline_freq inline_depth stack_buf
    (strs (filename_offset inline_func_hdr))
    (strs (func_name_index inline_func_hdr))
    0 (total_samples inline_func_hdr) 0 false.

(** [inline_hdr_offset]: where the header of the [k]-th inline group of a
    function lies in the file. *)
Definition inline_hdr_offset (h : fb_sample_hdr) (func_hdr : func_sample_hdr)
  (k : Z) : Z :=
  let func_hdr_size := fb_func_hdr_ent_size h in
  wrap_u64 (fb_func_hdr_offset h + func_inline_hdr_offset func_hdr
            + wrap_u32 (fb_func_hdr_num h * func_hdr_size)
            + k * func_hdr_size).

(** The body of the [for (k = 0; k < num_inlines; k++)] loop of
    [read_inline_function]. *)
Definition read_inline_group (d : disk) (func_hdr : func_sample_hdr) (k : Z)
  (curr_num_samples : Z) : M sp_state Z :=
  s <- get ;;
  let func_hdr_size := fb_func_hdr_ent_size (fb_hdr s) in
  ok <- fseek d InlineHdrSeek (inline_hdr_offset (fb_hdr s) func_hdr k) ;;
  if negb ok then
    error "read_inline_function(): fseek inline_func_hdr error." ;;
    return_ curr_num_samples
  else
  r <- fread_func_hdr d InlineHdrRead func_hdr_size ;;
  match r with
  | None =>
      error "read_inline_function(): fread inline_func_hdr error." ;;
      return_ curr_num_samples
  | Some inline_func_hdr =>
      let inline_depth := inline_depth inline_func_hdr in
      let num_lines := func_num_freq_entries inline_func_hdr in
      if num_lines =? 0 then ret curr_num_samples
      else
      let profile_offset :=
        wrap_u64 (fb_profile_offset (fb_hdr s)
                  + inline_stack_offset inline_func_hdr) in
      stack_block <- xcalloc ;;
      ok <- fseek d InlineStackSeek profile_offset ;;
      if negb ok then
        error "read_inline_function(): fseek profile_data error." ;;
        return_ curr_num_samples
      else
      gcc_assert (inline_depth <? FB_INLINE_MAX_STACK) ;;
      gcc_assert (inline_depth >? 0) ;;
      r <- fread_stack_entries d InlineStackRead inline_depth ;;
      match r with
      | None =>
          error "read_inline_function(): fread profile_data error." ;;
          return_ curr_num_samples
      | Some stack_entry =>
          match set_up_stack_buf (Z.to_nat inline_depth) 0 inline_depth
                  (str_table s) stack_entry
                  (repeat zero_location (Z.to_nat inline_depth)) with
          | None => undefined
          | Some frames =>
              let stack_buf := mk_stack_ptr (Heap stack_block 0) frames in
              let profile_offset :=
                wrap_u64 (fb_profile_offset (fb_hdr s)
                          + func_profile_offset inline_func_hdr) in
              ok <- fseek d InlineProfileSeek profile_offset ;;
              if negb ok then
                error "read_inline_function(): fseek profile_data error." ;;
                return_ curr_num_samples
              else
              buf_block <- xcalloc ;;
              modify (set_inline_sample_buf
                        (buf_block,
                         repeat zero_sample_inline_freq
                           (Z.to_nat (wrap_u64 (num_lines + 1))))) ;;
              let total :=
                callsite_total (str_table s) inline_func_hdr inline_depth stack_buf in
              store_inline_sample_buf num_lines total ;;
              s1 <- get ;;
              match htab_find sp_inline_info_eq (sp_inline_htab s1) total with
              | Some _ => inform "Duplicate entry of callstack"
              | None =>
                  modify (fun s =>
                    set_sp_inline_htab
                      (htab_fill (sp_inline_htab s)
                         (Heap buf_block (Z.to_nat num_lines)) total) s)
              end ;;
              for_upto (Z.to_nat num_lines) 0
                (read_inline_sample d inline_func_hdr inline_depth stack_buf)
                curr_num_samples
          end
      end
  end.

(** [read_inline_function]: the total number of samples read, including
    [num_samples]. *)
Definition read_inline_function (d : disk) (func_hdr : func_sample_hdr)
  (num_samples : Z) : M sp_state Z :=
  let num_inlines := func_num_inline_entries func_hdr in
  curr_num_samples <-
    for_upto (Z.to_nat num_inlines) 0 (read_inline_group d func_hdr) num_samples ;;
  return_ curr_num_samples.

(** ** Reading the file *)

(** [sp_info_hash], run on every element handed to [htab_find_slot] of the
    flat table; the hash value itself is not observable in the table above. *)
Definition sp_info_hash (sp : sample_freq_detail) : M sp_state unit :=
  gcc_assert (fd_line_num sp >? 0).

(** The record written to [sample_buf[j]] from a per-line record of a
    function. *)
Definition flat_record (strs : Z -> string) (func_hdr : func_sample_hdr)
  (sample : fb_info_freq) : sample_freq_detail :=
  mk_sample_freq_detail
    (strs (filename_offset func_hdr))
    (strs (func_name_index func_hdr))
    (fi_line_num sample) (fi_freq sample) (fi_num_instr sample).

(** The body of the [for (j = 0; j < num_lines; ++j)] loop of [sp_reader];
    the accumulator is [num_samples]. *)
Definition read_flat_sample (d : disk) (func_hdr : func_sample_hdr) (j : Z)
  (num_samples : Z) : M sp_state Z :=
  r <- fread_sample d FlatRead ;;
  match r with
  | None => return_ 0
  | Some sample =>
      s <- get ;;
      let elt := flat_record (str_table s) func_hdr sample in
      store_sample_buf j elt ;;
      update_sp_max_count (fi_freq sample) ;;
      sp_info_hash elt ;;
      s <- get ;;
      match htab_find sp_info_eq (sp_htab s) elt with
      | Some _ =>
          inform "Duplicate entry: %s:%d func_name:%s" ;;
          ret num_samples
      | None =>
          modify (fun s =>
            set_sp_htab
              (htab_fill (sp_htab s) (Heap (fst (sample_buf s)) (Z.to_nat j)) elt)
              s) ;;
          ret (wrap_u64 (num_samples + 1))
      end
  end.

(** The body of the [for (i = 0; i < num_funcs; ++i)] loop of [sp_reader]. *)
Definition read_function (d : disk) (i : Z) (num_samples : Z) : M sp_state Z :=
  r <- read_function_header d i ;;
  match r with
  | (0, Some func_hdr) =>
      s <- get ;;
      let num_lines := func_num_freq_entries func_hdr in
      let profile_offset := fb_profile_offset (fb_hdr s) in
      ok <- fseek d FlatSeek
              (wrap_u64 (profile_offset + func_profile_offset func_hdr
                         + func_freq_offset func_hdr)) ;;
      if negb ok then return_ 0
      else
      buf_block <- xcalloc ;;
      modify (set_sample_buf
                (buf_block, repeat zero_sample_freq_detail (Z.to_nat num_lines))) ;;
      num_samples <-
        for_upto (Z.to_nat num_lines) 0 (read_flat_sample d func_hdr) num_samples ;;
      if func_num_inline_entries func_hdr >? 0
      then call (read_inline_function d func_hdr num_samples)
      else ret num_samples
  | _ =>
      error "Error reading the %dth function header of %s." ;;
      return_ 0
  end.

(** [sp_reader]: the number of tuples entered into the tables; [in_file] is
    what [fopen] gave. *)
Definition sp_reader (in_file : option disk) : M sp_state Z :=
  match in_file with
  | None =>
      error "Error opening sample profile file %s." ;;
      return_ 0
  | Some d =>
      r <- read_file_header d ;;
      if negb (r =? 0) then
        error "Error reading file header of %s." ;;
        return_ 0
      else
      r <- read_string_table d ;;
      if negb (r =? 0) then
        error "Error reading string table of %s." ;;
        return_ 0
      else
      s <- get ;;
      let num_funcs := fb_func_hdr_num (fb_hdr s) in
      num_samples <- for_upto (Z.to_nat num_funcs) 0 (read_function d) 0 ;;
      return_ num_samples
  end.

(** [init_sample_profile]. *)
Definition init_sample_profile (flag_branch_probabilities : bool)
  (in_file : option disk) : M sp_state unit :=
  if flag_branch_probabilities then
    inform "Cannot set both -fbranch-probabilities and -fsample-profile. Disable -fsample-profile now." ;;
    modify (set_flag_sample_profile false)
  else
    modify (set_sp_htab []) ;;
    modify (set_sp_inline_htab []) ;;
    n <- call (sp_reader in_file) ;;
    modify (set_sp_num_samples n) ;;
    if n =? 0 then
      inform "No available data in the sample file %s. Disable -fsample-profile now." ;;
      modify (set_flag_sample_profile false)
    else inform "There are %llu samples in file %s.".

(** ** Statements, scopes and the control-flow graph *)

(** A [tree] as the walk over lexical scopes sees it: a [BLOCK] with its
    source location and its supercontext, a null pointer, or a node of
    another code (the enclosing FUNCTION_DECL). *)
Inductive tree : Type :=
| NULL_TREE
| BLOCK (BLOCK_SOURCE_LOCATION : Z) (BLOCK_SUPERCONTEXT : tree)
| FUNCTION_DECL.

(** A statement: what [get_lineno], [gimple_filename] and [gimple_block]
    give for it ([get_lineno] is -1 for a statement without location). *)
Record gimple : Type := mk_gimple {
  get_lineno : Z;
  gimple_filename : string;
  gimple_block : tree
}.

Record basic_block : Type := mk_basic_block {
  index : Z;
  stmts : list gimple;
  count : Z
}.

Definition set_count (c : Z) (bb : basic_block) : basic_block :=
  mk_basic_block (index bb) (stmts bb) c.

Inductive profile_status_t : Type :=
| PROFILE_ABSENT
| PROFILE_GUESSED
| PROFILE_READ.

Record gcov_ctr_summary : Type := mk_gcov_ctr_summary { runs : Z; sum_max : Z }.

(** The function being compiled: [n_basic_blocks] counts the entry and exit
    blocks too, [basic_blocks] are the blocks [FOR_EACH_BB] visits. *)
Record function_cfg : Type := mk_function_cfg {
  assembler_name : string;
  n_basic_blocks : Z;
  basic_blocks : list basic_block;
  profile_status : profile_status_t;
  profile_info : option gcov_ctr_summary
}.

Definition set_basic_blocks (bbs : list basic_block) (f : function_cfg)
  : function_cfg :=
  mk_function_cfg (assembler_name f) (n_basic_blocks f) bbs (profile_status f)
    (profile_info f).
Definition set_profile_status (p : profile_status_t) (f : function_cfg)
  : function_cfg :=
  mk_function_cfg (assembler_name f) (n_basic_blocks f) (basic_blocks f) p
    (profile_info f).
Definition set_profile_info (i : option gcov_ctr_summary) (f : function_cfg)
  : function_cfg :=
  mk_function_cfg (assembler_name f) (n_basic_blocks f) (basic_blocks f)
    (profile_status f) i.

(** The locals of [sp_annotate_bb]; [num_lines] and [num_inlines] are the
    lengths of [lines] and [lines_inline]. *)
Record bb_locals : Type := mk_bb_locals {
  num_ir : Z;
  num_instr_sampled : Z;
  sum_ir_count : Z;
  bb_max_count : Z;
  lines : list address;
  lines_inline : list address
}.

Definition initial_locals : bb_locals := mk_bb_locals 0 0 0 0 [] [].

(** [for (i = n - 1; i >= 0; i--) if (p == arr[i]) break;]: the final [i]. *)
Fixpoint scan_back (p : address) (arr : list address) (n : nat) : Z :=
  match n with
  | O => -1
  | S n' =>
      if address_eqb p (nth n' arr NULL) then Z.of_nat n'
      else scan_back p arr n'
  end.

Section Annotator.

(** The line map behind [expand_location]. *)
Variable expand_location : Z -> expanded_location.

(** The flow-consistency stage, [sp_smooth_cfg]: block compaction, edge
    counts, minimum-cost-flow smoothing and the conversion back to
    frequencies are the work of other files. *)
Variable sp_smooth_cfg : function_cfg -> function_cfg.

(** The [for] loop of [sp_get_inline_stack] from [block] on, with [i] frames
    stored so far; [None] when a frame is stored outside [stack]. *)
Fixpoint inline_stack_walk (block : tree) (i : nat) (last_loc : Z)
  (stack : list expanded_location) : option (Z * list expanded_location) :=
  match block with
  | BLOCK loc super =>
      if (loc =? 0) || (loc =? last_loc)
      then inline_stack_walk super i last_loc stack
      else
        match array_store stack i (expand_location loc) with
        | Some stack' => inline_stack_walk super (S i) loc stack'
        | None => None
        end
  | _ => Some (Z.of_nat i, stack)
  end.

(** [sp_get_inline_stack]: the depth returned and the contents of [stack]. *)
Definition sp_get_inline_stack (stmt : gimple) (stack : list expanded_location)
  : option (Z * list expanded_location) :=
  match gimple_block stmt with
  | BLOCK _ super => inline_stack_walk super 0 0 stack
  | _ => Some (0, stack)
  end.

(** The accumulation done for a matched record not yet in [lines] or
    [lines_inline]. *)
Definition accumulate (inl : bool) (p : address) (f n : Z) (l : bb_locals)
  : bb_locals :=
  mk_bb_locals (num_ir l)
    (wrap_u32 (num_instr_sampled l + n))
    (wrap_s64 (sum_ir_count l + f))
    (if bb_max_count l <? f then f else bb_max_count l)
    (if inl then lines l else lines l ++ [p])
    (if inl then lines_inline l ++ [p] else lines_inline l).

(** The body of the loop over the statements of a block in
    [sp_annotate_bb]; [inline_stack] is the 200-frame array of the C frame,
    of which only the frames below the returned depth are read. *)
Definition annotate_stmt {St} (g : sp_state) (fn_name : string) (stmt : gimple)
  (l : bb_locals) : M St bb_locals :=
  let lineno := get_lineno stmt in
  if lineno =? -1 then ret l
  else
    let l :=
      mk_bb_locals (wrap_u32 (num_ir l + 1)) (num_instr_sampled l)
        (sum_ir_count l) (bb_max_count l) (lines l) (lines_inline l) in
    match sp_get_inline_stack stmt
            (repeat zero_location (Z.to_nat FB_INLINE_MAX_STACK)) with
    | None => undefined
    | Some (inline_stack_depth, inline_stack) =>
        gcc_assert (inline_stack_depth <? FB_INLINE_MAX_STACK) ;;
        if inline_stack_depth >? 0 then
          let inline_loc :=
            mk_sample_inline_freq inline_stack_depth
              (mk_stack_ptr Local inline_stack) (gimple_filename stmt) fn_name
              lineno 0 0 false in
          match htab_find sp_inline_info_eq (sp_inline_htab g) inline_loc with
          | None => ret l
          | Some (p, inline_htab_entry) =>
              if scan_back p (lines_inline l) (List.length (lines_inline l)) >=? 0
              then ret l
              else
                gcc_assert (Z.of_nat (List.length (lines_inline l))
                            <? MAX_LINES_PER_BASIC_BLOCK) ;;
                ret (accumulate true p (freq inline_htab_entry)
                       (num_instr inline_htab_entry) l)
          end
        else
          let ir_loc :=
            mk_sample_freq_detail (gimple_filename stmt) fn_name lineno 0 0 in
          match htab_find sp_info_eq (sp_htab g) ir_loc with
          | None => ret l
          | Some (p, htab_entry) =>
              if scan_back p (lines l) (List.length (lines l)) >=? 0
              then ret l
              else
                gcc_assert (Z.of_nat (List.length (lines l))
                            <? MAX_LINES_PER_BASIC_BLOCK) ;;
                ret (accumulate false p (fd_freq htab_entry)
                       (fd_num_instr htab_entry) l)
          end
    end.

(** [bb->count] as computed at the end of [sp_annotate_bb]. *)
Definition bb_count (l : bb_locals) : Z :=
  if num_instr_sampled l >? 0
  then Z.quot (sum_ir_count l) (num_instr_sampled l)
  else 0.

(** [sp_annotate_bb]: the block with its count set. *)
Definition sp_annotate_bb {St} (g : sp_state) (fn_name : string)
  (bb : basic_block) : M St basic_block :=
  l <- for_each (stmts bb) (annotate_stmt g fn_name) initial_locals ;;
  ret (set_count (bb_count l) bb).

(** The body of the first [FOR_EACH_BB] loop of [sp_annotate_cfg]; the
    accumulator holds the blocks done, [num_bb_annotated] and
    [func_max_count]. *)
Definition annotate_and_count {St} (g : sp_state) (fn_name : string)
  (bb : basic_block) (acc : list basic_block * Z * Z)
  : M St (list basic_block * Z * Z) :=
  let '(done, num_bb_annotated, func_max_count) := acc in
  bb' <- sp_annotate_bb g fn_name bb ;;
  if negb (count bb' =? 0)
  then ret (done ++ [bb'], num_bb_annotated + 1,
            if count bb' >? func_max_count then count bb' else func_max_count)
  else ret (done ++ [bb'], num_bb_annotated, func_max_count).

(** The test that decides whether the annotated counts are used. *)
Definition profile_usable (num_bb_annotated n_blocks : Z) : bool :=
  (num_bb_annotated >? 1)
  || ((num_bb_annotated =? 1) && (n_blocks <? MIN_SAMPLE_BB_COUNT)).

(** [sp_annotate_cfg]. *)
Definition sp_annotate_cfg (g : sp_state) : M function_cfg unit :=
  f <- get ;;
  r <- for_each (basic_blocks f) (annotate_and_count g (assembler_name f))
         ([], 0, 0) ;;
  let '(bbs, num_bb_annotated, _) := r in
  modify (set_basic_blocks bbs) ;;
  if profile_usable num_bb_annotated (n_basic_blocks f)
  then
    modify sp_smooth_cfg ;;
    modify (set_profile_status PROFILE_READ) ;;
    modify (set_profile_info (Some (mk_gcov_ctr_summary 1 (sp_max_count g))))
  else
    modify (fun f => set_basic_blocks (map (set_count 0) (basic_blocks f)) f).

End Annotator.

(** ** Notions used to state the properties *)

(** The frame at position [i] of the call stack of a record. *)
Definition frame_at (r : sample_inline_freq) (i : Z) : expanded_location :=
  nth (Z.to_nat i) (frames (inline_stack r)) zero_location.

(** The in-memory frame made from an on-disk stack entry: the file name is
    the string at the entry's offset in the string table. *)
Definition frame_of_entry (strs : Z -> string) (e : fb_info_inline_stack_entry)
  : expanded_location :=
  mk_loc (strs (se_filename_offset e)) (se_line_num e).

(** The source locations the walk of [sp_get_inline_stack] records from
    [block] on: each scope's location once, scopes without a location and
    consecutive duplicates skipped. *)
Fixpoint recorded_locations (block : tree) (last_loc : Z) : list Z :=
  match block with
  | BLOCK loc super =>
      if (loc =? 0) || (loc =? last_loc)
      then recorded_locations super last_loc
      else loc :: recorded_locations super loc
  | _ => []
  end.

(** The inline stack depth of a statement: the number of locations the walk
    records above the statement's own scope. *)
Definition inline_depth_of (stmt : gimple) : nat :=
  match gimple_block stmt with
  | BLOCK _ super => List.length (recorded_locations super 0)
  | _ => O
  end.

(** ** Example inputs *)

(** [n] nested scopes with the distinct source locations [n], ..., 1 inside
    a function. *)
Fixpoint nested_scopes (n : nat) : tree :=
  match n with
  | O => FUNCTION_DECL
  | S n' => BLOCK (Z.of_nat n) (nested_scopes n')
  end.

(** A statement at line 7 of a.c, inlined through [n] call sites. *)
Definition stmt_inlined (n : nat) : gimple :=
  mk_gimple 7 "a.c" (BLOCK 0 (nested_scopes n)).

(** A sample file described by its length in bytes and the objects laid out
    in it; a read succeeds when the object lies within the length. *)
Record image : Type := mk_image {
  img_size : Z;
  img_header : fb_sample_hdr;
  img_strings : list (Z * string);
  img_func_hdrs : list (Z * func_sample_hdr);
  img_stack_entries : list (Z * fb_info_inline_stack_entry);
  img_samples : list (Z * fb_info_freq)
}.

Fixpoint assoc {A} (k : Z) (l : list (Z * A)) : option A :=
  match l with
  | [] => None
  | (k', v) :: l' => if k =? k' then Some v else assoc k l'
  end.

Definition disk_of_image (img : image) : disk :=
  mk_disk
    (if sizeof_fb_sample_hdr <=? img_size img then Some (img_header img) else None)
    (fun off => (0 <=? off) && (off <? 2 ^ 63))
    (fun off size =>
       if off + size <=? img_size img
       then Some (fun o => match assoc o (img_strings img) with
                           | Some str => str
                           | None => EmptyString
                           end)
       else None)
    (fun off size =>
       if off + size <=? img_size img then assoc off (img_func_hdrs img) else None)
    (fun off =>
       if off + sizeof_fb_info_inline_stack_entry <=? img_size img
       then assoc off (img_stack_entries img) else None)
    (fun off =>
       if off + sizeof_fb_info_freq <=? img_size img
       then assoc off (img_samples img) else None).

(** A profile of two functions.  Header at 0, string table at 40 (a.c, foo,
    bar, b.c), the two function headers at 56 and 120 (64 bytes each), the
    inline-group table at 184, profile data from 248 on:
    - foo (a.c): lines 10 (frequency 100, 2 instructions) and 10 again
      (frequency 900, 3 instructions) at 248, and one inline group;
    - bar (a.c): line 30 (frequency 70, 1 instruction) at 280;
    - the group of foo: call stack of two frames at 296 (on disk: b.c:5 then
      a.c:12), lines 20 (frequency 50) and 21 (frequency 60) at 312, total
      5000, and its trailing record on disk at 344. *)
Definition sample_image (size : Z) : image :=
  mk_image size
    (mk_fb_sample_hdr 40 16 56 2 64 248)
    [(0, "a.c"); (4, "foo"); (8, "bar"); (12, "b.c")]%string
    [(56, mk_func_sample_hdr 0 4 2 0 0 1 0 0 0 0);
     (120, mk_func_sample_hdr 0 8 1 32 0 0 0 0 0 0);
     (184, mk_func_sample_hdr 0 4 2 64 0 0 0 2 48 5000)]
    [(296, mk_stack_entry 12 5); (304, mk_stack_entry 0 12)]
    [(248, mk_fb_info_freq 10 100 2); (264, mk_fb_info_freq 10 900 3);
     (280, mk_fb_info_freq 30 70 1);
     (312, mk_fb_info_freq 20 50 1); (328, mk_fb_info_freq 21 60 1);
     (344, mk_fb_info_freq 0 5000 0)].

(** The whole file, 360 bytes. *)
Definition sample_file : disk := disk_of_image (sample_image 360).

(** The same file cut after 300 bytes, inside the call stack of the group. *)
Definition truncated_file : disk := disk_of_image (sample_image 300).

(** The same layout with a group that has no per-line record and a total of
    77 in its header. *)
Definition empty_group_file : disk :=
  disk_of_image
    (mk_image 360
       (mk_fb_sample_hdr 40 16 56 2 64 248)
       [(0, "a.c"); (4, "foo"); (8, "bar"); (12, "b.c")]%string
       [(56, mk_func_sample_hdr 0 4 2 0 0 1 0 0 0 0);
        (120, mk_func_sample_hdr 0 8 1 32 0 0 0 0 0 0);
        (184, mk_func_sample_hdr 0 4 0 64 0 0 0 2 48 77)]
       [(296, mk_stack_entry 12 5); (304, mk_stack_entry 0 12)]
       [(248, mk_fb_info_freq 10 100 2); (264, mk_fb_info_freq 10 900 3);
        (280, mk_fb_info_freq 30 70 1)]).

(** ** A program logic for the control-flow monad *)

(** What must hold when a computation leaves by [return], by a failed
    assertion or by a store outside an array. *)
Record exits (St : Type) : Type := mk_exits {
  on_return : Z -> St -> Prop;
  on_abort : St -> Prop;
  on_undefined : St -> Prop
}.
Arguments mk_exits {St} _ _ _.
Arguments on_return {St} _ _ _.
Arguments on_abort {St} _ _.
Arguments on_undefined {St} _ _.

(** From a state satisfying [P], [m] either completes with a value and a
    state satisfying [Q], or leaves as [E] allows. *)
Definition triple {St A} (E : exits St) (P : St -> Prop) (m : M St A)
  (Q : A -> St -> Prop) : Prop :=
  forall s, P s ->
    match m s with
    | Val a s' => Q a s'
    | Return v s' => on_return E v s'
    | Abort s' => on_abort E s'
    | Undefined s' => on_undefined E s'
    end.

(** Every way out satisfies the same predicate on states. *)
Definition always {St} (I : St -> Prop) : exits St :=
  mk_exits (fun _ => I) I I.

(** [m] keeps [I] when it completes, and leaves as [E] allows. *)
Definition keeps {St A} (E : exits St) (I : St -> Prop) (m : M St A) : Prop :=
  triple E I m (fun _ => I).

(** The ways out that a computation keeping [I] may take from a state
    satisfying [I]. *)
Definition sound {St} (E : exits St) (I : St -> Prop) : Prop :=
  (forall v s, I s -> on_return E v s)
  /\ (forall s, I s -> on_abort E s)
  /\ (forall s, I s -> on_undefined E s).

(** [m] keeps [I], however it ends. *)
Abbreviation stable I m := (keeps (always I) I m).

(** The two tables of [s] are those of [s0] with further slots appended. *)
Definition grows_from (s0 s : sp_state) : Prop :=
  (exists l, sp_htab s = sp_htab s0 ++ l)
  /\ (exists l, sp_inline_htab s = sp_inline_htab s0 ++ l).

(** The units in which the file is read: one per-line record of a function
    or of an inline group, one inline group, all inline groups of a
    function, one function, the whole file. *)
Inductive reading_step : Type :=
| FlatSampleStep (d : disk) (func_hdr : func_sample_hdr) (j num_samples : Z)
| InlineSampleStep (d : disk) (inline_func_hdr : func_sample_hdr)
    (inline_depth : Z) (stack_buf : stack_ptr) (j curr_num_samples : Z)
| InlineGroupStep (d : disk) (func_hdr : func_sample_hdr) (k curr_num_samples : Z)
| InlineFunctionStep (d : disk) (func_hdr : func_sample_hdr) (num_samples : Z)
| FunctionStep (d : disk) (i num_samples : Z)
| FileStep (in_file : option disk).

Definition run_step (step : reading_step) : M sp_state Z :=
  match step with
  | FlatSampleStep d func_hdr j n => read_flat_sample d func_hdr j n
  | InlineSampleStep d hdr depth sb j n => read_inline_sample d hdr depth sb j n
  | InlineGroupStep d func_hdr k n => read_inline_group d func_hdr k n
  | InlineFunctionStep d func_hdr n => read_inline_function d func_hdr n
  | FunctionStep d i n => read_function d i n
  | FileStep in_file => sp_reader in_file
  end.

(** The string table of the example files. *)
Definition sample_strings (o : Z) : string :=
  match assoc o (img_strings (sample_image 360)) with
  | Some str => str
  | None => EmptyString
  end.

(** The largest frequency among the per-line records read so far, as the
    record of I/O shows them (0 when there is none). *)
Definition max_sample_freq (log : list io_event) : Z :=
  fold_left
    (fun m e => match snd e with
                | Sample r => Z.max m (fi_freq r)
                | _ => m
                end)
    log 0.

(** [sp_max_count] accounts for every per-line record read. *)
Definition max_up_to_date (s : sp_state) : Prop :=
  sp_max_count s = max_sample_freq (io_log s).

(** The record [r] has just been read and [sp_max_count] not yet compared
    with its frequency. *)
Definition max_pending (r : fb_info_freq) (s : sp_state) : Prop :=
  Z.max (sp_max_count s) (fi_freq r) = max_sample_freq (io_log s).

(** [max_up_to_date] at every [return] and failed assertion. *)
Definition max_exits : exits sp_state :=
  mk_exits (fun _ => max_up_to_date) max_up_to_date (fun _ => True).

(** No seek or read issued by [sp_reader] itself or by its three helpers
    has failed: every failure on record is one of [read_inline_function]. *)
Definition clean_log (log : list io_event) : Prop :=
  forall e, In e log -> io_failed e = true -> inline_site (fst e) = true.

Definition clean (s : sp_state) : Prop := clean_log (io_log s).

(** The last I/O on record is a failed seek or read of [sp_reader] or of
    its helpers, and the first such failure. *)
Definition failed_last (s : sp_state) : Prop :=
  exists log e,
    io_log s = log ++ [e]
    /\ io_failed e = true
    /\ inline_site (fst e) = false
    /\ clean_log log.

(** What [sp_reader] guarantees on its ways out: unless the record of I/O
    is [clean], it returns 0 right after the failure. *)
Definition reader_exits : exits sp_state :=
  mk_exits (fun v s => clean s \/ (v = 0 /\ failed_last s)) clean clean.

(** The file cut after 270 bytes, inside the second per-line record of the
    first function. *)
Definition flat_cut_file : disk := disk_of_image (sample_image 270).

(** ** Matched records of a block, as the specification words them *)

(** A matched sample record: the table it lives in ([true]: inline), its
    address, its frequency and its sampled-instruction count. *)
Definition matched : Type := (bool * address * Z * Z)%type.

Definition m_id (m : matched) : bool * address := (fst (fst (fst m)), snd (fst (fst m))).
Definition m_freq (m : matched) : Z := snd (fst m).
Definition m_instr (m : matched) : Z := snd m.

Definition id_eqb (a b : bool * address) : bool :=
  Bool.eqb (fst a) (fst b) && address_eqb (snd a) (snd b).

Section Matching.

Variable expand_location : Z -> expanded_location.
Variable g : sp_state.
Variable fn_name : string.

(** The record a statement maps to: none for a statement without line, the
    hit in the inline table under the statement's call stack when that is
    not empty, the hit in the flat table otherwise. *)
Definition matched_record (stmt : gimple) : option matched :=
  if get_lineno stmt =? -1 then None
  else
    match sp_get_inline_stack expand_location stmt
            (repeat zero_location (Z.to_nat FB_INLINE_MAX_STACK)) with
    | None => None
    | Some (d, stack) =>
        if d >? 0 then
          match htab_find sp_inline_info_eq (sp_inline_htab g)
                  (mk_sample_inline_freq d (mk_stack_ptr Local stack)
                     (gimple_filename stmt) fn_name (get_lineno stmt) 0 0 false)
          with
          | Some (p, e) => Some (true, p, freq e, num_instr e)
          | None => None
          end
        else
          match htab_find sp_info_eq (sp_htab g)
                  (mk_sample_freq_detail (gimple_filename stmt) fn_name
                     (get_lineno stmt) 0 0)
          with
          | Some (p, e) => Some (false, p, fd_freq e, fd_num_instr e)
          | None => None
          end
    end.

(** The records matched by the statements of a block, in statement order. *)
Fixpoint matches (l : list gimple) : list matched :=
  match l with
  | [] => []
  | stmt :: l' =>
      match matched_record stmt with
      | Some m => m :: matches l'
      | None => matches l'
      end
  end.

End Matching.

(** The distinct records of a list: a record identical to one in [seen] or
    to an earlier one of the list is dropped. *)
Fixpoint distinct (seen : list (bool * address)) (l : list matched)
  : list matched :=
  match l with
  | [] => []
  | m :: l' =>
      if existsb (id_eqb (m_id m)) seen then distinct seen l'
      else m :: distinct (m_id m :: seen) l'
  end.

Definition sum_freq (l : list matched) : Z :=
  fold_right (fun m a => m_freq m + a) 0 l.
Definition sum_instr (l : list matched) : Z :=
  fold_right (fun m a => m_instr m + a) 0 l.

(** How many of the records are of the inline table ([true]) or of the flat
    table ([false]). *)
Definition count_kind (k : bool) (l : list matched) : nat :=
  List.length (filter (fun m => Bool.eqb (fst (m_id m)) k) l).

(** The count the specification gives: the sum of the frequencies divided
    by the sum of the instruction counts, 0 when the latter is 0. *)
Definition average_count (l : list matched) : Z :=
  if sum_instr l =? 0 then 0 else sum_freq l / sum_instr l.

(** The records already counted for the block, as the locals hold them. *)
Definition seen_of (l : bb_locals) : list (bool * address) :=
  map (pair false) (lines l) ++ map (pair true) (lines_inline l).

(** [num_ir++] for a statement with a line. *)
Definition count_ir (stmt : gimple) (l : bb_locals) : bb_locals :=
  if get_lineno stmt =? -1 then l
  else mk_bb_locals (wrap_u32 (num_ir l + 1)) (num_instr_sampled l)
         (sum_ir_count l) (bb_max_count l) (lines l) (lines_inline l).

(** The number of blocks with a nonzero count. *)
Definition nonzero_count (bbs : list basic_block) : Z :=
  Z.of_nat (List.length (filter (fun bb => negb (count bb =? 0)) bbs)).

(** ** Example tables and blocks *)

(** A flat table with three records of function foo in a.c: line 1
    (frequency 10, 2 instructions), line 2 (frequency 30, 3 instructions),
    line 3 (frequency 5, no instruction); the largest frequency is 30. *)
Definition small_tables : sp_state :=
  set_sp_max_count 30
    (set_sp_htab
       [(Heap 1 0, mk_sample_freq_detail "a.c" "foo" 1 10 2);
        (Heap 1 1, mk_sample_freq_detail "a.c" "foo" 2 30 3);
        (Heap 1 2, mk_sample_freq_detail "a.c" "foo" 3 5 0)]
       initial_state).

(** A flat table whose instruction counts add up to 2^32 + 1. *)
Definition large_tables : sp_state :=
  set_sp_htab
    [(Heap 1 0, mk_sample_freq_detail "a.c" "foo" 1 10 2147483647);
     (Heap 1 1, mk_sample_freq_detail "a.c" "foo" 2 30 2147483647);
     (Heap 1 2, mk_sample_freq_detail "a.c" "foo" 3 0 3)]
    initial_state.

(** A statement of a.c at a line, outside any inlined call. *)
Definition stmt_at (l : Z) : gimple := mk_gimple l "a.c" FUNCTION_DECL.

(** A block whose statements are at the given lines. *)
Definition block_at (i : Z) (ls : list Z) : basic_block :=
  mk_basic_block i (map stmt_at ls) 0.

(** The line map of a single source file a.c. *)
Definition line_map (loc : Z) : expanded_location := mk_loc "a.c" loc.

(** A stage that leaves the graph as it is. *)
Definition no_smoothing (f : function_cfg) : function_cfg := f.

(** Function foo with the entry block, the exit block and the given blocks
    in between. *)
Definition foo_cfg (bbs : list basic_block) : function_cfg :=
  mk_function_cfg "foo" (Z.of_nat (List.length bbs) + 2) bbs PROFILE_ABSENT None.

(** The header of foo and of its inline group in the example files, and the
    state in which the groups of foo are read. *)
Definition foo_hdr : func_sample_hdr := mk_func_sample_hdr 0 4 2 0 0 1 0 0 0 0.
Definition foo_group_hdr : func_sample_hdr :=
  mk_func_sample_hdr 0 4 2 64 0 0 0 2 48 5000.
Definition foo_empty_group_hdr : func_sample_hdr :=
  mk_func_sample_hdr 0 4 0 64 0 0 0 2 48 77.
Definition before_groups : sp_state :=
  set_fb_hdr (mk_fb_sample_hdr 40 16 56 2 64 248)
    (set_str_table sample_strings initial_state).

(** The state in which the second per-line record of foo is read: the first
    one, of the same line, is in the flat table. *)
Definition after_first_record : sp_state :=
  final_state
    (read_flat_sample sample_file foo_hdr 0 0
       (set_sample_buf (1%nat, repeat zero_sample_freq_detail 2)
          (set_file_pos 248 before_groups))).

(** Two inline records of line 20 of foo in a.c, inlined at a.c:12 and at
    a.c:13 of a function itself inlined at b.c:5. *)
Definition inlined_at_12 : sample_inline_freq :=
  mk_sample_inline_freq 2
    (mk_stack_ptr (Heap 2 0) [mk_loc "a.c" 12; mk_loc "b.c" 5])
    "a.c" "foo" 20 50 1 true.
Definition inlined_at_13 : sample_inline_freq :=
  mk_sample_inline_freq 2
    (mk_stack_ptr (Heap 5 0) [mk_loc "a.c" 13; mk_loc "b.c" 5])
    "a.c" "foo" 20 7 1 true.

(** Every record of the flat table has a positive line. *)
Definition flat_lines_positive (s : sp_state) : Prop :=
  forall slot, In slot (sp_htab s) -> 0 < fd_line_num (snd slot).

(** ** Hashing of the keys *)

(** The byte whose value is [z] modulo 256. *)
Definition byte_of_Z (z : Z) : Byte.byte :=
  match Byte.of_N (Z.to_N (z mod 256)) with
  | Some b => b
  | None => Byte.x00
  end.

(** The [sizeof (int)] bytes at the address of an [int], least significant
    first (two's complement). *)
Definition bytes_of_int (z : Z) : list Byte.byte :=
  map (fun k => byte_of_Z (z / 2 ^ (8 * k))) [0; 1; 2; 3].

Section Hashing.

(** Modelled from the spec: [iterative_hash] is libiberty's (hashtab.c is not
    among the sources; the specification leaves generic hashing to the
    infrastructure): it mixes the bytes of a buffer into a running hash
    value. *)
Variable iterative_hash : list Byte.byte -> Z -> Z.

(** [create_hash_string]. *)
Definition create_hash_string (filename : string) (line_num : Z)
  (funcname : string) : Z :=
  let h := 2654435769 in
  let h := iterative_hash (list_byte_of_string filename) h in
  let h := iterative_hash (bytes_of_int line_num) h in
  let h := iterative_hash (list_byte_of_string funcname) h in
  h.

(** The [while (i < depth)] loop of [sp_inline_info_hash]; [todo] frames
    remain to be mixed in from index [i]. *)
Fixpoint hash_inline_stack (todo : nat) (i : nat)
  (inline_stack : list expanded_location) (h : Z) : Z :=
  match todo with
  | O => h
  | S todo' =>
      let e := nth i inline_stack zero_location in
      let h := iterative_hash (list_byte_of_string (file e)) h in
      let h := iterative_hash (bytes_of_int (line e)) h in
      hash_inline_stack todo' (S i) inline_stack h
  end.

(** [sp_inline_info_hash]. *)
Definition sp_inline_info_hash (i_info : sample_inline_freq) : Z :=
  let h := 2654435769 in
  let h := hash_inline_stack (Z.to_nat (depth i_info)) 0
             (frames (inline_stack i_info)) h in
  let h := iterative_hash (list_byte_of_string (filename i_info)) h in
  let h := iterative_hash (bytes_of_int (line_num i_info)) h in
  let h := iterative_hash (list_byte_of_string (func_name i_info)) h in
  h.

End Hashing.

(** ** The chain of scopes of a statement *)

(** The source locations of the scopes from [block] outwards, up to the
    first node that is not a [BLOCK]. *)
Fixpoint scope_locations (block : tree) : list Z :=
  match block with
  | BLOCK loc super => loc :: scope_locations super
  | _ => []
  end.

(** [l] with every run of equal locations reduced to its first element; a
    leading run of [last] is dropped. *)
Fixpoint collapse (last : Z) (l : list Z) : list Z :=
  match l with
  | [] => []
  | x :: l' => if x =? last then collapse last l' else x :: collapse x l'
  end.

(** The call sites through which a statement was inlined, innermost first:
    the locations of the scopes above the statement's own, those without
    location left out and repeats collapsed. *)
Definition call_sites (stmt : gimple) : list Z :=
  match gimple_block stmt with
  | BLOCK _ super =>
      collapse 0 (filter (fun loc => negb (loc =? 0)) (scope_locations super))
  | _ => []
  end.

(** ** The total count of an inlined call *)

Section TotalCount.

Variable expand_location : Z -> expanded_location.

(** [gimple_location]: the location of a statement in the line map. *)
Variable gimple_location : gimple -> Z.

(** [get_total_count]; [stmt] is [None] for a null statement.  [stack] is
    the 200-frame array of the C frame. *)
Definition get_total_count (stmt : option gimple) (func_name : string)
  : M sp_state Z :=
  match stmt with
  | None => return_ 0
  | Some stmt =>
      match gimple_block stmt with
      | BLOCK _ super =>
          match array_store (repeat zero_location (Z.to_nat FB_INLINE_MAX_STACK))
                  0 (expand_location (gimple_location stmt)) with
          | None => undefined
          | Some stack =>
              match inline_stack_walk expand_location super 1 0 stack with
              | None => undefined
              | Some (i, stack) =>
                  let inline_loc :=
                    mk_sample_inline_freq i (mk_stack_ptr Local stack)
                      (gimple_filename stmt) func_name 0 0 0 false in
                  s <- get ;;
                  match htab_find sp_inline_info_eq (sp_inline_htab s)
                          inline_loc with
                  | None => return_ 0
                  | Some (_, inline_htab_entry) =>
                      return_ (wrap_u64 (freq inline_htab_entry))
                  end
              end
          end
      | _ => return_ 0
      end
  end.

(** The key under which [get_total_count] looks a statement up: line 0, and
    a stack made of the statement's own location followed by its call
    sites, in a 200-frame array. *)
Definition total_count_key (stmt : gimple) (func_name : string)
  : sample_inline_freq :=
  mk_sample_inline_freq
    (Z.of_nat (S (List.length (call_sites stmt))))
    (mk_stack_ptr Local
       (expand_location (gimple_location stmt)
        :: map expand_location (call_sites stmt)
        ++ repeat zero_location (199 - List.length (call_sites stmt))))
    (gimple_filename stmt) func_name 0 0 0 false.

End TotalCount.

(** ** Further example inputs *)

(** A mixing function to run the hashes with. *)
Definition example_hash (buf : list Byte.byte) (h : Z) : Z :=
  fold_left (fun a b => wrap_u32 (a * 31 + Z.of_N (Byte.to_N b))) buf h.

(** The line map of two source files: location 5 is b.c:5, any other
    location is that line of a.c. *)
Definition two_file_map (loc : Z) : expanded_location :=
  if loc =? 5 then mk_loc "b.c" 5 else mk_loc "a.c" loc.

(** A call at a.c:12, in the body of a function inlined at b.c:5. *)
Definition call_at_12 : gimple :=
  mk_gimple 12 "a.c" (BLOCK 0 (BLOCK 5 FUNCTION_DECL)).

(** The record [inlined_at_12] as a lookup key: the same call stack in the
    200-frame array of a C frame, frequency and instruction count unset. *)
Definition key_at_12 : sample_inline_freq :=
  mk_sample_inline_freq 2
    (mk_stack_ptr Local
       (mk_loc "a.c" 12 :: mk_loc "b.c" 5 :: repeat zero_location 198))
    "a.c" "foo" 20 0 0 false.

(** ** Counting the records read *)

Definition is_sample (e : io_event) : bool :=
  match snd e with
  | Sample _ => true
  | _ => false
  end.

(** The number of per-line records read so far, of functions and of inline
    groups, as the record of I/O shows them. *)
Definition records_read (s : sp_state) : Z :=
  Z.of_nat (List.length (filter is_sample (io_log s))).

(** The two reports that [inform] makes of a per-line record whose key is
    in its table already. *)
Definition is_duplicate_report (m : diagnostic) : bool :=
  match m with
  | Inform msg =>
      String.eqb msg "Duplicate entry: %s:%d func_name:%s"
      || String.eqb msg "Duplicate entry: %s:%d"
  | Error _ => false
  end.

Definition duplicates_reported (s : sp_state) : Z :=
  Z.of_nat (List.length (filter is_duplicate_report (diagnostics s))).

(** The per-line records read and not reported as duplicates. *)
Definition records_entered (s : sp_state) : Z :=
  records_read s - duplicates_reported s.

(** A seek or a read of [sp_reader] or of its three helpers has failed. *)
Definition failed_outside (s : sp_state) : Prop :=
  exists e, In e (io_log s) /\ io_failed e = true /\ inline_site (fst e) = false.

(** The running count of samples accounts for the records entered; [base]
    is the count with which the reading began, less the records entered
    before. *)
Definition tally (base : Z) (acc : Z) (s : sp_state) : Prop :=
  acc = wrap_u64 (base + records_entered s).

(** Every [return] of [read_inline_function] gives the running count. *)
Definition tally_exits (base : Z) : exits sp_state :=
  mk_exits (tally base) (fun _ => True) (fun _ => True).

(** A [return] of [sp_reader] gives the running count, or 0 after a failed
    seek or read. *)
Definition reader_tally_exits (base : Z) : exits sp_state :=
  mk_exits (fun v s => tally base v s \/ (v = 0 /\ failed_outside s))
    (fun _ => True) (fun _ => True).

(** [gate_sample_profile]. *)
Definition gate_sample_profile (flag_branch_probabilities : bool)
  : M sp_state bool :=
  s <- get ;;
  gcc_assert (negb (flag_sample_profile s && flag_branch_probabilities)) ;;
  ret (flag_sample_profile s).

(** The example layout with a group whose header declares 2^64 - 1 per-line
    records. *)
Definition huge_group_hdr : func_sample_hdr :=
  mk_func_sample_hdr 0 4 (2 ^ 64 - 1) 64 0 0 0 2 48 5000.
Definition huge_group_file : disk :=
  disk_of_image
    (mk_image 360
       (mk_fb_sample_hdr 40 16 56 2 64 248)
       [(0, "a.c"); (4, "foo"); (8, "bar"); (12, "b.c")]%string
       [(56, mk_func_sample_hdr 0 4 2 0 0 1 0 0 0 0);
        (120, mk_func_sample_hdr 0 8 1 32 0 0 0 0 0 0);
        (184, huge_group_hdr)]
       [(296, mk_stack_entry 12 5); (304, mk_stack_entry 0 12)]
       [(248, mk_fb_info_freq 10 100 2); (264, mk_fb_info_freq 10 900 3);
        (280, mk_fb_info_freq 30 70 1);
        (312, mk_fb_info_freq 20 50 1); (328, mk_fb_info_freq 21 60 1)]).

(** ** The tables of a state reached by reading *)

(** Modelled from the spec: [htab_delete] is libiberty's; it calls the
    [del_f] the table was created with on every element.  The addresses
    that [del_f] frees, slot by slot. *)
Definition htab_delete {A} (del_f : A -> option address) (tab : htab A)
  : list address :=
  flat_map (fun slot => match del_f (snd slot) with
                        | Some a => [a]
                        | None => []
                        end) tab.

(** No slot holds a key that an earlier slot holds. *)
Definition keys_entered_once {A} (eq_f : A -> A -> bool) (tab : htab A) : Prop :=
  forall l1 x l2, tab = l1 ++ x :: l2 -> htab_find eq_f l1 (snd x) = None.

(** An inline record with a stack of [depth] frames, [depth] being within
    the bounds that [read_inline_function] asserts. *)
Definition well_formed_record (r : sample_inline_freq) : Prop :=
  0 < depth r < FB_INLINE_MAX_STACK
  /\ Z.of_nat (List.length (frames (inline_stack r))) = depth r.

(** The stack at [a] is a block of its own that no record of [tab] owns. *)
Definition fresh_stack (a : address) (tab : htab sample_inline_freq)
  (heap : nat) : Prop :=
  exists b, a = Heap b 0 /\ (b < heap)%nat
            /\ ~ In a (htab_delete sp_inline_info_del tab).

(** What holds of the two tables and of the number of blocks allocated as
    the file is read. *)
Definition tables_ok_on (flat : htab sample_freq_detail)
  (inl : htab sample_inline_freq) (heap : nat) : Prop :=
  keys_entered_once sp_info_eq flat
  /\ keys_entered_once sp_inline_info_eq inl
  /\ (forall slot, In slot inl -> well_formed_record (snd slot))
  /\ NoDup (htab_delete sp_inline_info_del inl)
  /\ (forall a, In a (htab_delete sp_inline_info_del inl) ->
        exists b, a = Heap b 0 /\ (b < heap)%nat).

Definition tables_ok (s : sp_state) : Prop :=
  tables_ok_on (sp_htab s) (sp_inline_htab s) (heap_blocks s).

(** What holds before the per-line record [j] of a group is read, the
    records of the group having [depth] frames in the stack [sb]. *)
Definition group_ok (depth : Z) (sb : stack_ptr) (j : Z) (s : sp_state)
  : Prop :=
  tables_ok s
  /\ 0 < depth < FB_INLINE_MAX_STACK
  /\ Z.of_nat (List.length (frames sb)) = depth
  /\ (j = 0 -> fresh_stack (stack_addr sb) (sp_inline_htab s) (heap_blocks s)).

(** ** The ways in which the reading fails *)

(** [e] is the last seek or read on record. *)
Definition last_io (s : sp_state) (e : io_event) : Prop :=
  exists log, io_log s = log ++ [e].





(** The example layout with a per-line record of foo at line 0. *)
Definition zero_line_file : disk :=
  disk_of_image
    (mk_image 360
       (mk_fb_sample_hdr 40 16 56 2 64 248)
       [(0, "a.c"); (4, "foo"); (8, "bar"); (12, "b.c")]%string
       [(56, mk_func_sample_hdr 0 4 2 0 0 1 0 0 0 0);
        (120, mk_func_sample_hdr 0 8 1 32 0 0 0 0 0 0);
        (184, mk_func_sample_hdr 0 4 2 64 0 0 0 2 48 5000)]
       [(296, mk_stack_entry 12 5); (304, mk_stack_entry 0 12)]
       [(248, mk_fb_info_freq 0 100 2); (264, mk_fb_info_freq 10 900 3);
        (280, mk_fb_info_freq 30 70 1);
        (312, mk_fb_info_freq 20 50 1); (328, mk_fb_info_freq 21 60 1)]).

(** The state in which the first per-line record of foo is read. *)
Definition before_first_record : sp_state :=
  set_sample_buf (1%nat, repeat zero_sample_freq_detail 2)
    (set_file_pos 248 before_groups).

(** ** Edge counts before smoothing *)

(** Modelled from the spec: [struct edge_def] and [struct basic_block_def]
    are declared in basic-block.h, which is not among the sources (the
    specification leaves the representation of the graph to the compiler).
    An edge is kept in the [succs] of its source block, so that [e->src] is
    the block whose [succs] is walked; [dest] is the index of its
    destination block. *)
Record cfg_edge : Type := mk_cfg_edge {
  dest : Z;
  probability : Z;
  edge_count : Z
}.

Record cfg_block : Type := mk_cfg_block {
  block_index : Z;
  block_count : Z;
  succs : list cfg_edge
}.

(** The blocks of the function: [ENTRY_BLOCK_PTR], the blocks from
    [ENTRY_BLOCK_PTR->next_bb] up to [EXIT_BLOCK_PTR], and
    [EXIT_BLOCK_PTR]. *)
Record flow_graph : Type := mk_flow_graph {
  entry_block : cfg_block;
  inner_blocks : list cfg_block;
  exit_block : cfg_block
}.

Definition set_edge_count (c : Z) (e : cfg_edge) : cfg_edge :=
  mk_cfg_edge (dest e) (probability e) c.

(** [b->count] for the block [b] of index [i]. *)
Definition count_of_block (g : flow_graph) (i : Z) : Z :=
  match find (fun b => block_index b =? i)
          (entry_block g :: inner_blocks g ++ [exit_block g]) with
  | Some b => block_count b
  | None => 0
  end.

Section InitCfg.

(** Modelled from the spec: [REG_BR_PROB_BASE] is defined in basic-block.h;
    the value that stands for probability 1. *)
Variable REG_BR_PROB_BASE : Z.

(** [e->src->count * e->probability / REG_BR_PROB_BASE], in [gcov_type]. *)
Definition edge_share (bb : cfg_block) (e : cfg_edge) : Z :=
  Z.quot (wrap_s64 (block_count bb * probability e)) REG_BR_PROB_BASE.

(** The body of the first loop over the blocks. *)
Definition init_edges (bb : cfg_block) : cfg_block :=
  mk_cfg_block (block_index bb) (block_count bb)
    (map (fun e => set_edge_count (edge_share bb e) e) (succs bb)).

(** The body of the second loop over the blocks; the accumulator of the
    inner loop holds the edges done and [smooth_bb_count]. *)
Definition init_block (bb : cfg_block) : cfg_block :=
  let '(es, smooth_bb_count) :=
    fold_left
      (fun acc e =>
         let c := edge_share bb e in
         (fst acc ++ [set_edge_count c e], wrap_s64 (snd acc + c)))
      (succs bb) ([], 0) in
  mk_cfg_block (block_index bb) smooth_bb_count es.

(** The loop over the edges that leave the entry block; [g] is the graph
    after the loops over the blocks, the accumulator holds the edges done
    and the count of the entry block. *)
Definition init_entry (g : flow_graph) : cfg_block :=
  let entry := entry_block g in
  let '(es, entry_count) :=
    fold_left
      (fun acc e =>
         let c := if dest e =? block_index entry then snd acc
                  else count_of_block g (dest e) in
         (fst acc ++ [set_edge_count c e], wrap_s64 (snd acc + c)))
      (succs entry) ([], block_count entry) in
  mk_cfg_block (block_index entry) entry_count es.

(** The edges of [EXIT_BLOCK_PTR->preds]. *)
Definition exit_preds (g : flow_graph) : list cfg_edge :=
  filter (fun e => dest e =? block_index (exit_block g))
    (flat_map succs (entry_block g :: inner_blocks g ++ [exit_block g])).

(** [sp_init_cfg]. *)
Definition sp_init_cfg (g : flow_graph) : flow_graph :=
  let g := mk_flow_graph (entry_block g) (map init_edges (inner_blocks g))
             (exit_block g) in
  let g := mk_flow_graph (entry_block g) (map init_block (inner_blocks g))
             (exit_block g) in
  let g := mk_flow_graph (init_entry g) (inner_blocks g) (exit_block g) in
  let exit_count :=
    fold_left (fun c e => wrap_s64 (c + edge_count e)) (exit_preds g)
      (block_count (exit_block g)) in
  mk_flow_graph (entry_block g) (inner_blocks g)
    (mk_cfg_block (block_index (exit_block g)) exit_count
       (succs (exit_block g))).

End InitCfg.

(** The sum of the probabilities of a list of edges. *)
Definition sum_probability (es : list cfg_edge) : Z :=
  fold_right (fun e a => probability e + a) 0 es.

(** A diamond: the entry block 0, block 2 with three ways out to blocks 3,
    4 and the exit block 1, of probabilities 3333, 3333 and 3334 out of
    10000, and a count of 100. *)
Definition diamond : flow_graph :=
  mk_flow_graph
    (mk_cfg_block 0 0 [mk_cfg_edge 2 10000 0])
    [mk_cfg_block 2 100
       [mk_cfg_edge 3 3333 7; mk_cfg_edge 4 3333 7; mk_cfg_edge 1 3334 7];
     mk_cfg_block 3 40 [mk_cfg_edge 1 10000 0];
     mk_cfg_block 4 0 []]
    (mk_cfg_block 1 0 []).

(** ** The pass *)

(** [cfun]: the graph of the function being compiled and the flag
    [after_tree_profile]. *)
Record cfun_t : Type := mk_cfun {
  cfun_cfg : function_cfg;
  after_tree_profile : bool
}.

(** A computation on the graph, run on [cfun]. *)
Definition on_cfg {A} (m : M function_cfg A) : M cfun_t A :=
  fun c =>
    match m (cfun_cfg c) with
    | Val a f => Val a (mk_cfun f (after_tree_profile c))
    | Return v f => Return v (mk_cfun f (after_tree_profile c))
    | Abort f => Abort (mk_cfun f (after_tree_profile c))
    | Undefined f => Undefined (mk_cfun f (after_tree_profile c))
    end.

Section Pass.

Variable expand_location : Z -> expanded_location.
Variable sp_smooth_cfg : function_cfg -> function_cfg.

(** The static estimation of the edge probabilities, the work of another
    file. *)
Variable tree_estimate_probability : function_cfg -> function_cfg.

(** [execute_sample_profile]; [cgraph_finished] tells whether
    [cgraph_state] is [CGRAPH_STATE_FINISHED]. *)
Definition execute_sample_profile (cgraph_finished : bool) (g : sp_state)
  : M cfun_t Z :=
  c <- get ;;
  (if negb (cgraph_finished || after_tree_profile c)
   then
     modify (fun c => mk_cfun (tree_estimate_probability (cfun_cfg c))
                        (after_tree_profile c)) ;;
     modify (fun c => mk_cfun (set_profile_status PROFILE_ABSENT (cfun_cfg c))
                        (after_tree_profile c))
   else ret tt) ;;
  on_cfg (sp_annotate_cfg expand_location sp_smooth_cfg g) ;;
  modify (fun c => mk_cfun (cfun_cfg c) true) ;;
  return_ 0.

End Pass.

(** No [return] is executed; assertions may fail and stores may leave
    their array. *)
Definition no_return {St} : exits St :=
  mk_exits (fun _ _ => False) (fun _ => True) (fun _ => True).

(** An estimation that marks the profile as guessed. *)
Definition guess (f : function_cfg) : function_cfg :=
  set_profile_status PROFILE_GUESSED f.

(** A statement at a.c:20, in the body of a function inlined at a.c:12 into
    a function itself inlined at b.c:5. *)
Definition inlined_stmt_at_20 : gimple :=
  mk_gimple 20 "a.c" (BLOCK 0 (BLOCK 12 (BLOCK 5 FUNCTION_DECL))).

(** ** The elements that the slots point to *)

(** The slots of each table point to elements that are pairwise distinct,
    each one in a block allocated so far. *)
Definition addresses_ok_on (flat : htab sample_freq_detail)
  (inl : htab sample_inline_freq) (heap : nat) : Prop :=
  NoDup (map fst flat)
  /\ NoDup (map fst inl)
  /\ (forall a, In a (map fst flat ++ map fst inl) ->
        exists b j, a = Heap b j /\ (b < heap)%nat).

Definition addresses_ok (s : sp_state) : Prop :=
  addresses_ok_on (sp_htab s) (sp_inline_htab s) (heap_blocks s).

(** What holds before the per-line record [j] of a function is read: of
    [sample_buf], the elements below [j] alone are pointed to. *)
Definition flat_buffer_ok (j : Z) (s : sp_state) : Prop :=
  addresses_ok s
  /\ (fst (sample_buf s) < heap_blocks s)%nat
  /\ (forall i, In (Heap (fst (sample_buf s)) i) (map fst (sp_htab s)) ->
        (i < Z.to_nat j)%nat).

(** What holds before the per-line record [j] of a group of [n] records is
    read: of [inline_sample_buf], the elements below [j] and the element
    [n], the call-site total, alone are pointed to. *)
Definition inline_buffer_ok (n : nat) (j : Z) (s : sp_state) : Prop :=
  addresses_ok s
  /\ (fst (inline_sample_buf s) < heap_blocks s)%nat
  /\ (forall i,
        In (Heap (fst (inline_sample_buf s)) i) (map fst (sp_inline_htab s)) ->
        (i < Z.to_nat j)%nat \/ i = n).

(** ** Counting the records of the tables *)

(** A slot of the inline table that comes from a per-line record.  The
    total of a call site has line 0, and a per-line record of line 0 has
    the key of the total of its group, which is in the table when the
    record is looked up: such a record is never entered. *)
Definition per_line_slot (slot : address * sample_inline_freq) : bool :=
  negb (line_num (snd slot) =? 0).

(** The number of slots of the flat table, and the number of slots of the
    inline table that come from per-line records. *)
Definition flat_entries (s : sp_state) : Z :=
  Z.of_nat (List.length (sp_htab s)).
Definition inline_entries (s : sp_state) : Z :=
  Z.of_nat (List.length (filter per_line_slot (sp_inline_htab s))).
Definition per_line_entries (s : sp_state) : Z :=
  flat_entries s + inline_entries s.

(** The running count of samples is the number of per-line records in the
    tables; [base] is the count with which the reading began, less the
    records that were in the tables then. *)
Definition counted (base : Z) (acc : Z) (s : sp_state) : Prop :=
  acc = wrap_u64 (base + per_line_entries s).

(** The same while the inline groups of a function are read: the flat
    table stays as it is. *)
Definition counted_inline (flat : htab sample_freq_detail) (base : Z)
  (acc : Z) (s : sp_state) : Prop :=
  sp_htab s = flat /\ acc = wrap_u64 (base + inline_entries s).

(** The same while the per-line records of a group are read: the total of
    the group's call site is in the table, entered for this group or for an
    earlier one with the same key. *)
Definition counted_group (flat : htab sample_freq_detail) (base : Z)
  (strs : Z -> string) (hdr : func_sample_hdr) (depth : Z) (sb : stack_ptr)
  (acc : Z) (s : sp_state) : Prop :=
  counted_inline flat base acc s
  /\ str_table s = strs
  /\ htab_find sp_inline_info_eq (sp_inline_htab s)
       (callsite_total strs hdr depth sb) <> None.

(** Every [return] of [read_inline_function] gives the running count. *)
Definition counted_inline_exits (flat : htab sample_freq_detail) (base : Z)
  : exits sp_state :=
  mk_exits (counted_inline flat base) (fun _ => True) (fun _ => True).

(** A [return] of [sp_reader] gives the running count, or 0 after a failed
    seek or read. *)
Definition counted_exits (base : Z) : exits sp_state :=
  mk_exits (fun v s => counted base v s \/ (v = 0 /\ failed_outside s))
    (fun _ => True) (fun _ => True).

(** ** Failed seeks and reads *)

(** No seek or read of [log] has failed. *)
Definition quiet_log (log : list io_event) : Prop :=
  forall e, In e log -> io_failed e = false.

(** No seek or read has failed since [s0]. *)
Definition quiet_since (s0 s : sp_state) : Prop :=
  exists new, io_log s = io_log s0 ++ new /\ quiet_log new.

(** One seek or read has failed since [s0], in [read_inline_function]
    ([inl = true]) or outside it, and it is the last one on record. *)
Definition failed_since (inl : bool) (s0 s : sp_state) : Prop :=
  exists new e,
    io_log s = io_log s0 ++ new ++ [e]
    /\ quiet_log new
    /\ io_failed e = true
    /\ inline_site (fst e) = inl.

(** [read_inline_function] returns at the end of its loop or right after
    a failure of its own. *)
Definition inline_io_exits (s0 : sp_state) : exits sp_state :=
  mk_exits (fun _ s => quiet_since s0 s \/ failed_since true s0 s)
    (quiet_since s0) (quiet_since s0).

(** The body of the loop of [sp_reader] executes a [return] only right
    after a seek or a read of its own has failed. *)
Definition function_io_exits (s0 : sp_state) : exits sp_state :=
  mk_exits (fun _ s => failed_since false s0 s)
    (quiet_since s0) (quiet_since s0).

(** ** The slots that a group adds to the inline table *)

(** The slots of [tab] are those of [tab0] and slots whose records hold the
    stack [sb], of [dp] frames. *)
Definition slots_of_group (tab0 : htab sample_inline_freq) (sb : stack_ptr)
  (dp : Z) (tab : htab sample_inline_freq) : Prop :=
  forall slot,
    In slot tab ->
    In slot tab0 \/ (inline_stack (snd slot) = sb /\ depth (snd slot) = dp).

(** ** The per-line records of a file *)

(** The per-line records that the record of I/O shows, in the order in
    which they were read. *)
Definition samples_of_log (log : list io_event) : list fb_info_freq :=
  flat_map (fun e => match snd e with
                     | Sample r => [r]
                     | _ => []
                     end) log.

(** The [n] per-line records that lie in the file from offset [off] on, as
    far as they are there. *)
Fixpoint samples_from (d : disk) (off : Z) (n : nat) : list fb_info_freq :=
  match n with
  | O => []
  | S n' =>
      match d_sample d off with
      | Some r => r :: samples_from d (off + sizeof_fb_info_freq) n'
      | None => []
      end
  end.

(** Where the file holds the header of function [i], the per-line records
    of a function and those of an inline group. *)
Definition func_hdr_offset (h : fb_sample_hdr) (i : Z) : Z :=
  wrap_u64 (fb_func_hdr_offset h + wrap_u32 (i * fb_func_hdr_ent_size h)).
Definition flat_offset (h : fb_sample_hdr) (fh : func_sample_hdr) : Z :=
  wrap_u64 (fb_profile_offset h + func_profile_offset fh + func_freq_offset fh).
Definition group_offset (h : fb_sample_hdr) (gh : func_sample_hdr) : Z :=
  wrap_u64 (fb_profile_offset h + func_profile_offset gh).

(** The indices [0], ..., [n - 1]. *)
Definition indices (n : Z) : list Z := map Z.of_nat (seq 0 (Z.to_nat n)).

(** The per-line records of the [k]-th inline group of a function, of a
    function with its inline groups, and of the whole file, as the layout
    of the file places them: the headers of the functions in a table, those
    of the inline groups of a function in another, each header giving the
    number of its per-line records and where they lie. *)
Definition group_samples (d : disk) (h : fb_sample_hdr) (fh : func_sample_hdr)
  (k : Z) : list fb_info_freq :=
  match d_func_hdr d (inline_hdr_offset h fh k) (fb_func_hdr_ent_size h) with
  | Some gh =>
      samples_from d (group_offset h gh) (Z.to_nat (func_num_freq_entries gh))
  | None => []
  end.

Definition function_samples (d : disk) (h : fb_sample_hdr) (i : Z)
  : list fb_info_freq :=
  match d_func_hdr d (func_hdr_offset h i) (fb_func_hdr_ent_size h) with
  | Some fh =>
      samples_from d (flat_offset h fh) (Z.to_nat (func_num_freq_entries fh))
      ++ flat_map (group_samples d h fh) (indices (func_num_inline_entries fh))
  | None => []
  end.

Definition file_samples (d : disk) : list fb_info_freq :=
  match d_header d with
  | Some h => flat_map (function_samples d h) (indices (fb_func_hdr_num h))
  | None => []
  end.

(** The largest frequency among per-line records, [m] when none exceeds
    it. *)
Definition max_freq (rs : list fb_info_freq) (m : Z) : Z :=
  fold_left (fun m r => Z.max m (fi_freq r)) rs m.

(** [G] holds unless a seek or a read has failed. *)
Definition unless_failed (G : sp_state -> Prop) (s : sp_state) : Prop :=
  quiet_log (io_log s) -> G s.

(** A [return] that follows no failure leaves [P]. *)
Definition quiet_exits (P : Z -> sp_state -> Prop) : exits sp_state :=
  mk_exits (fun v => unless_failed (P v)) (fun _ => True) (fun _ => True).

(** What is left to read: the per-line records on record followed by [rest]
    make up [all]; the file header read is [h]. *)
Definition to_read (h : fb_sample_hdr) (rest all : list fb_info_freq)
  (s : sp_state) : Prop :=
  fb_hdr s = h /\ samples_of_log (io_log s) ++ rest = all.

(** The same with the file at offset [off]. *)
Definition to_read_at (h : fb_sample_hdr) (off : Z)
  (rest all : list fb_info_freq) (s : sp_state) : Prop :=
  file_pos s = off /\ to_read h rest all s.

(** The example layout with a file header that declares entries of 80
    bytes in the tables of headers. *)
Definition wide_entry_file : disk :=
  disk_of_image
    (mk_image 400
       (mk_fb_sample_hdr 40 16 56 2 80 248)
       [(0, "a.c"); (4, "foo"); (8, "bar"); (12, "b.c")]%string
       [(56, mk_func_sample_hdr 0 4 2 0 0 0 0 0 0 0);
        (136, mk_func_sample_hdr 0 8 1 32 0 0 0 0 0 0)]
       []
       [(248, mk_fb_info_freq 10 100 2); (264, mk_fb_info_freq 10 900 3);
        (280, mk_fb_info_freq 30 70 1)]).

(** * Properties *)

(** ** Strings and machine integers *)

Lemma strcmp_eq_iff (a b : string) : (strcmp a b =? 0) = true <-> a = b.
Proof.
  unfold strcmp. split.
  - destruct (String.compare a b) eqn:E; intros H; try discriminate.
    now apply String.compare_eq_iff.
  - intros ->. pose proof (String.compare_antisym b b) as H.
    destruct (String.compare b b); simpl in H; try discriminate; reflexivity.
Qed.

Lemma strcmp_refl (a : string) : (strcmp a a =? 0) = true.
Proof. now apply strcmp_eq_iff. Qed.

(** ** Equality of inline keys *)

Lemma inline_stack_eq_from_iff (todo i : nat) (sa sb : list expanded_location) :
  inline_stack_eq_from todo i sa sb = true <->
  forall k, (i <= k < i + todo)%nat ->
    file (nth k sa zero_location) = file (nth k sb zero_location)
    /\ line (nth k sa zero_location) = line (nth k sb zero_location).
Proof.
  revert i. induction todo as [|todo IH]; intros i; simpl.
  - split; [intros _ k Hk; lia | reflexivity].
  - destruct (line (nth i sa zero_location) =? line (nth i sb zero_location)) eqn:El;
      simpl.
    + destruct (strcmp (file (nth i sa zero_location))
                       (file (nth i sb zero_location)) =? 0) eqn:Ef; simpl.
      * rewrite IH. apply strcmp_eq_iff in Ef. apply Z.eqb_eq in El.
        split; intros H k Hk.
        -- destruct (Nat.eq_dec k i) as [->|Hne]; [now split|].
           apply H; lia.
        -- apply H; lia.
      * split; [discriminate|]. intros H.
        destruct (H i ltac:(lia)) as [Hf _].
        apply strcmp_eq_iff in Hf. congruence.
    + split; [discriminate|]. intros H.
      destruct (H i ltac:(lia)) as [_ Hl].
      apply Z.eqb_neq in El. contradiction.
Qed.

(** C8.  Two inline sample records are equal as index keys exactly when
    their call-stack depths are equal, every one of the [depth] stack frames
    has the same file and line in both, and the leaf filename, function name
    and line are the same; consequently a record that shares filename,
    function name and line with another but differs from it in depth or in
    a frame does not collide with it in the index: a table holding only the
    one has no slot for the other. *)
Theorem sp_inline_info_eq_iff (a b : sample_inline_freq) :
  (sp_inline_info_eq a b = true <->
     depth a = depth b
     /\ (forall i, 0 <= i < depth a ->
           file (frame_at a i) = file (frame_at b i)
           /\ line (frame_at a i) = line (frame_at b i))
     /\ filename a = filename b
     /\ func_name a = func_name b
     /\ line_num a = line_num b)
  /\ (forall p : address,
        depth a <> depth b
        \/ (exists i, 0 <= i < depth a
              /\ (file (frame_at a i) <> file (frame_at b i)
                  \/ line (frame_at a i) <> line (frame_at b i))) ->
        sp_inline_info_eq a b = false
        /\ htab_find sp_inline_info_eq [(p, a)] b = None).
Proof.
  assert (Hiff :
    sp_inline_info_eq a b = true <->
     depth a = depth b
     /\ (forall i, 0 <= i < depth a ->
           file (frame_at a i) = file (frame_at b i)
           /\ line (frame_at a i) = line (frame_at b i))
     /\ filename a = filename b
     /\ func_name a = func_name b
     /\ line_num a = line_num b).
  { unfold sp_inline_info_eq.
    destruct (line_num a =? line_num b) eqn:El; simpl.
    2:{ apply Z.eqb_neq in El. split; [discriminate|]. tauto. }
    apply Z.eqb_eq in El.
    destruct (depth a =? depth b) eqn:Ed; simpl.
    2:{ apply Z.eqb_neq in Ed. split; [discriminate|]. tauto. }
    apply Z.eqb_eq in Ed.
    destruct (inline_stack_eq_from (Z.to_nat (depth a)) 0
                (frames (inline_stack a)) (frames (inline_stack b))) eqn:Es; simpl.
    - rewrite andb_true_iff, !strcmp_eq_iff.
      rewrite inline_stack_eq_from_iff in Es.
      split.
      + intros [Hf Hn]. repeat split; auto;
          unfold frame_at; apply Es; lia.
      + tauto.
    - split; [discriminate|]. intros (_ & Hfr & _).
      assert (inline_stack_eq_from (Z.to_nat (depth a)) 0
                (frames (inline_stack a)) (frames (inline_stack b)) = true).
      { apply inline_stack_eq_from_iff. intros k Hk.
        specialize (Hfr (Z.of_nat k) ltac:(lia)).
        unfold frame_at in Hfr. rewrite Nat2Z.id in Hfr. exact Hfr. }
      congruence. }
  split; [exact Hiff|].
  intros p Hdiff.
  assert (Hf : sp_inline_info_eq a b = false).
  { destruct (sp_inline_info_eq a b) eqn:E; [|reflexivity].
    destruct (proj1 Hiff eq_refl) as (Hd & Hfr & _).
    destruct Hdiff as [Hne | (i & Hi & Hne)]; [contradiction|].
    destruct (Hfr i Hi) as [H1 H2]. destruct Hne; contradiction. }
  split; [exact Hf|].
  unfold htab_find. simpl. now rewrite Hf.
Qed.

(** ** Arrays *)

Lemma array_store_in_bounds {A} (arr : list A) (i : nat) (v : A) :
  (i < List.length arr)%nat ->
  array_store arr i v = Some (firstn i arr ++ v :: skipn (S i) arr).
Proof.
  intros H. unfold array_store.
  destruct (Nat.ltb_spec i (List.length arr)); [reflexivity | lia].
Qed.

Lemma array_store_out_of_bounds {A} (arr : list A) (i : nat) (v : A) :
  (List.length arr <= i)%nat -> array_store arr i v = None.
Proof.
  intros H. unfold array_store.
  destruct (Nat.ltb_spec i (List.length arr)); [lia | reflexivity].
Qed.

Lemma array_store_inv {A} (arr arr' : list A) (i : nat) (v : A) :
  array_store arr i v = Some arr' ->
  (i < List.length arr)%nat /\ arr' = firstn i arr ++ v :: skipn (S i) arr.
Proof.
  unfold array_store.
  destruct (Nat.ltb_spec i (List.length arr)); [|discriminate].
  intros [= <-]. now split.
Qed.

Lemma nth_store {A} (arr : list A) (i j : nat) (v d : A) :
  (i < List.length arr)%nat ->
  nth j (firstn i arr ++ v :: skipn (S i) arr) d
  = if Nat.eqb j i then v else nth j arr d.
Proof.
  revert i j. induction arr as [|x arr IH]; intros i j Hi; simpl in Hi; [lia|].
  destruct i as [|i]; destruct j as [|j]; simpl; try reflexivity.
  apply IH. lia.
Qed.

Lemma array_store_length {A} (arr arr' : list A) (i : nat) (v : A) :
  array_store arr i v = Some arr' -> List.length arr' = List.length arr.
Proof.
  intros H. apply array_store_inv in H as [Hi ->].
  rewrite length_app, length_firstn.
  change (List.length (v :: skipn (S i) arr))
    with (S (List.length (skipn (S i) arr))).
  rewrite length_skipn. lia.
Qed.

Lemma array_store_nth_same {A} (arr arr' : list A) (i : nat) (v d : A) :
  array_store arr i v = Some arr' -> nth i arr' d = v.
Proof.
  intros H. apply array_store_inv in H as [Hi ->].
  rewrite nth_store by assumption. now rewrite Nat.eqb_refl.
Qed.

Lemma array_store_nth_other {A} (arr arr' : list A) (i j : nat) (v d : A) :
  array_store arr i v = Some arr' -> j <> i -> nth j arr' d = nth j arr d.
Proof.
  intros H Hne. apply array_store_inv in H as [Hi ->].
  rewrite nth_store by assumption.
  destruct (Nat.eqb_spec j i); [contradiction | reflexivity].
Qed.

(** ** Materializing the inline stack of a group *)

Lemma set_up_stack_buf_loop (inline_depth : Z) (strs : Z -> string)
  (stack_entry : list fb_info_inline_stack_entry) :
  forall (todo : nat) (i : Z) (buf : list expanded_location),
    0 <= i ->
    i + Z.of_nat todo = inline_depth ->
    Z.of_nat (List.length buf) = inline_depth ->
    exists buf',
      set_up_stack_buf todo i inline_depth strs stack_entry buf = Some buf'
      /\ List.length buf' = List.length buf
      /\ (forall j, i <= j < inline_depth ->
            nth (Z.to_nat (inline_depth - j - 1)) buf' zero_location
            = frame_of_entry strs (nth (Z.to_nat j) stack_entry zero_stack_entry))
      /\ (forall p, (Z.to_nat (inline_depth - i) <= p)%nat ->
            nth p buf' zero_location = nth p buf zero_location).
Proof.
  induction todo as [|todo IH]; intros i buf Hi Hsum Hlen.
  - exists buf. simpl. repeat split; auto. intros j Hj. lia.
  - simpl.
    destruct (array_store buf (Z.to_nat (inline_depth - i - 1))
                (mk_loc (strs (se_filename_offset
                                 (nth (Z.to_nat i) stack_entry zero_stack_entry)))
                        (se_line_num (nth (Z.to_nat i) stack_entry zero_stack_entry))))
      as [buf1|] eqn:Est.
    2:{ rewrite array_store_in_bounds in Est by lia. discriminate. }
    pose proof (array_store_length _ _ _ _ Est) as Hlen1.
    destruct (IH (i + 1) buf1) as (buf' & Hrun & Hl & Hnew & Hold); try lia.
    exists buf'. split; [exact Hrun|]. split; [congruence|]. split.
    + intros j Hj. destruct (Z.eq_dec j i) as [->|Hne].
      * rewrite Hold by lia.
        rewrite (array_store_nth_same _ _ _ _ _ Est). reflexivity.
      * apply Hnew. lia.
    + intros p Hp. rewrite Hold by lia.
      apply (array_store_nth_other _ _ _ _ _ _ Est). lia.
Qed.

Lemma stack_entries_at_spec (d : disk) :
  forall (n : nat) (off : Z) (l : list fb_info_inline_stack_entry),
    stack_entries_at d off n = Some l ->
    List.length l = n
    /\ forall i, (i < n)%nat ->
         d_stack_entry d (off + Z.of_nat i * sizeof_fb_info_inline_stack_entry)
         = Some (nth i l zero_stack_entry).
Proof.
  induction n as [|n IH]; intros off l H; simpl in H.
  - injection H as <-. split; [reflexivity | intros i Hi; lia].
  - destruct (d_stack_entry d off) as [e|] eqn:Ee; [|discriminate].
    destruct (stack_entries_at d (off + sizeof_fb_info_inline_stack_entry) n)
      as [l'|] eqn:El; [|discriminate].
    injection H as <-. destruct (IH _ _ El) as [Hlen Hnth].
    split; [simpl; congruence|].
    intros [|i] Hi.
    + simpl. now rewrite Z.add_0_r.
    + cbn [nth]. rewrite <- Hnth by lia. f_equal. lia.
Qed.

(** The set-up loop on its own: when the [inline_depth] stack entries of a
    group are read at offset [off] of the file, the loop fills the
    [inline_depth]-frame buffer completely and in reverse. *)
Lemma stack_buf_reverses_disk_order (d : disk) (off inline_depth : Z)
  (strs : Z -> string) (stack_entry : list fb_info_inline_stack_entry) :
  stack_entries_at d off (Z.to_nat inline_depth) = Some stack_entry ->
  exists stack_buf,
    set_up_stack_buf (Z.to_nat inline_depth) 0 inline_depth strs stack_entry
      (repeat zero_location (Z.to_nat inline_depth)) = Some stack_buf
    /\ List.length stack_buf = Z.to_nat inline_depth
    /\ forall i, 0 <= i < inline_depth ->
         exists e,
           d_stack_entry d (off + i * sizeof_fb_info_inline_stack_entry) = Some e
           /\ nth (Z.to_nat (inline_depth - 1 - i)) stack_buf zero_location
              = frame_of_entry strs e.
Proof.
  intros Hread. destruct (stack_entries_at_spec _ _ _ _ Hread) as [Hlen Hdisk].
  destruct (Z.le_gt_cases inline_depth 0) as [Hle | Hpos].
  - replace (Z.to_nat inline_depth) with O by lia. simpl.
    exists []. repeat split. intros i Hi. lia.
  - destruct (set_up_stack_buf_loop inline_depth strs stack_entry
                (Z.to_nat inline_depth) 0
                (repeat zero_location (Z.to_nat inline_depth)))
      as (buf & Hrun & Hl & Hnew & _); try lia.
    { rewrite repeat_length. lia. }
    exists buf. split; [exact Hrun|]. split.
    { rewrite Hl. apply repeat_length. }
    intros i Hi. exists (nth (Z.to_nat i) stack_entry zero_stack_entry). split.
    + rewrite <- Hdisk by lia. rewrite Z2Nat.id by lia. reflexivity.
    + replace (inline_depth - 1 - i) with (inline_depth - i - 1) by lia.
      apply Hnew. lia.
Qed.

(** ** Reconstruction of the inline stack of a statement *)

Section InlineStack.

Variable expand_location : Z -> expanded_location.

Lemma inline_stack_walk_depth :
  forall (block : tree) (i : nat) (last_loc : Z) (stack : list expanded_location),
    let n := (i + List.length (recorded_locations block last_loc))%nat in
    (i <= List.length stack)%nat ->
    if (n <=? List.length stack)%nat
    then exists stack',
        inline_stack_walk expand_location block i last_loc stack
        = Some (Z.of_nat n, stack')
        /\ List.length stack' = List.length stack
    else inline_stack_walk expand_location block i last_loc stack = None.
Proof.
  induction block as [|loc super IH|]; intros i last_loc stack n Hi; subst n;
    simpl.
  - rewrite Nat.add_0_r. destruct (Nat.leb_spec i (List.length stack)); [|lia].
    now exists stack.
  - destruct ((loc =? 0) || (loc =? last_loc)) eqn:Eskip.
    + apply IH. exact Hi.
    + simpl List.length.
      destruct (Nat.lt_ge_cases i (List.length stack)) as [Hlt | Hge].
      * rewrite array_store_in_bounds by exact Hlt.
        specialize (IH (S i) loc (firstn i stack ++ expand_location loc
                                    :: skipn (S i) stack)).
        assert (Hlen : List.length (firstn i stack ++ expand_location loc
                                      :: skipn (S i) stack) = List.length stack).
        { apply (array_store_length stack _ i (expand_location loc)).
          now apply array_store_in_bounds. }
        cbv zeta in IH. rewrite Hlen, Nat.add_succ_l in IH.
        replace (i + S (List.length (recorded_locations super loc)))%nat
          with (S (i + List.length (recorded_locations super loc))) by lia.
        specialize (IH ltac:(lia)). revert IH.
        destruct (Nat.leb_spec (S (i + List.length (recorded_locations super loc)))
                    (List.length stack)); intros IH.
        -- destruct IH as (stack' & Hrun & Hl). exists stack'. split; assumption.
        -- exact IH.
      * rewrite array_store_out_of_bounds by exact Hge.
        destruct (Nat.leb_spec (i + S (List.length (recorded_locations super loc)))
                    (List.length stack)); [lia | reflexivity].
  - rewrite Nat.add_0_r. destruct (Nat.leb_spec i (List.length stack)); [|lia].
    now exists stack.
Qed.

(** The walk stays inside a [cap]-frame array exactly when the statement's
    inline depth is at most [cap]; it then returns that depth. *)
Lemma sp_get_inline_stack_depth (stmt : gimple) (stack : list expanded_location) :
  if (inline_depth_of stmt <=? List.length stack)%nat
  then exists stack',
      sp_get_inline_stack expand_location stmt stack
      = Some (Z.of_nat (inline_depth_of stmt), stack')
      /\ List.length stack' = List.length stack
  else sp_get_inline_stack expand_location stmt stack = None.
Proof.
  unfold sp_get_inline_stack, inline_depth_of.
  destruct (gimple_block stmt) as [|loc super|]; simpl.
  - now exists stack.
  - apply (inline_stack_walk_depth super O 0 stack). lia.
  - now exists stack.
Qed.

End InlineStack.

Lemma recorded_nested_scopes (n : nat) (last_loc : Z) :
  Z.of_nat n < last_loc \/ last_loc = 0 ->
  List.length (recorded_locations (nested_scopes n) last_loc) = n.
Proof.
  revert last_loc. induction n as [|n IH]; intros last_loc H; [reflexivity|].
  cbn [nested_scopes recorded_locations].
  destruct (Z.eqb_spec (Z.of_nat (S n)) 0); [lia|].
  destruct (Z.eqb_spec (Z.of_nat (S n)) last_loc); [lia|].
  simpl. rewrite IH; [reflexivity | lia].
Qed.

Lemma inline_depth_of_stmt_inlined (n : nat) : inline_depth_of (stmt_inlined n) = n.
Proof.
  unfold inline_depth_of, stmt_inlined. simpl.
  apply recorded_nested_scopes. now right.
Qed.

(** C5.  At a statement inlined through 201 call sites the reconstruction
    does not abort: [sp_get_inline_stack] stores the 201st frame outside the
    200-frame array of [sp_annotate_bb], whose assertion on the depth is
    only reached afterwards; at depth exactly 200, which fits the array, the
    assertion fails; below 200 the scan of the block goes on. *)
Theorem inline_stack_overflow_is_not_caught
  (expand_location : Z -> expanded_location) (g : sp_state) (fn_name : string)
  (l : bb_locals) (St : Type) (s : St) :
  sp_get_inline_stack expand_location (stmt_inlined 201)
    (repeat zero_location (Z.to_nat FB_INLINE_MAX_STACK)) = None
  /\ annotate_stmt expand_location g fn_name (stmt_inlined 201) l s = Undefined s
  /\ annotate_stmt expand_location g fn_name (stmt_inlined 200) l s = Abort s.
Proof.
  assert (H201 : sp_get_inline_stack expand_location (stmt_inlined 201)
            (repeat zero_location (Z.to_nat FB_INLINE_MAX_STACK)) = None).
  { pose proof (sp_get_inline_stack_depth expand_location (stmt_inlined 201)
                  (repeat zero_location (Z.to_nat FB_INLINE_MAX_STACK))) as H.
    rewrite inline_depth_of_stmt_inlined, repeat_length in H. exact H. }
  split; [exact H201|]. split.
  - unfold annotate_stmt. cbn [get_lineno stmt_inlined]. rewrite H201. reflexivity.
  - pose proof (sp_get_inline_stack_depth expand_location (stmt_inlined 200)
                  (repeat zero_location (Z.to_nat FB_INLINE_MAX_STACK))) as H.
    rewrite inline_depth_of_stmt_inlined, repeat_length in H.
    destruct H as (stack' & Hrun & _).
    unfold annotate_stmt. cbn [get_lineno stmt_inlined]. rewrite Hrun.
    reflexivity.
Qed.

(** ** Rules of the program logic *)

Section Rules.

Context {St : Type}.
Variable E : exits St.

Lemma triple_ret {A} (P : St -> Prop) (a : A) (Q : A -> St -> Prop) :
  (forall s, P s -> Q a s) -> triple E P (ret a) Q.
Proof. intros H s Hs. simpl. auto. Qed.

Lemma triple_bind {A B} (P : St -> Prop) (m : M St A) (Q : A -> St -> Prop)
  (k : A -> M St B) (R : B -> St -> Prop) :
  triple E P m Q -> (forall a, triple E (Q a) (k a) R) -> triple E P (bind m k) R.
Proof.
  intros Hm Hk s Hs. unfold bind. specialize (Hm s Hs).
  destruct (m s) as [a s'| | |]; auto. apply Hk. exact Hm.
Qed.

Lemma triple_conseq {A} (P P' : St -> Prop) (m : M St A) (Q Q' : A -> St -> Prop) :
  triple E P' m Q' -> (forall s, P s -> P' s) -> (forall a s, Q' a s -> Q a s) ->
  triple E P m Q.
Proof.
  intros Hm HP HQ s Hs. specialize (Hm s (HP s Hs)).
  destruct (m s); auto.
Qed.

Lemma triple_get (P : St -> Prop) :
  triple E P get (fun a s => a = s /\ P s).
Proof. intros s Hs. simpl. auto. Qed.

Lemma triple_modify (P : St -> Prop) (f : St -> St) (Q : unit -> St -> Prop) :
  (forall s, P s -> Q tt (f s)) -> triple E P (modify f) Q.
Proof. intros H s Hs. simpl. auto. Qed.

Lemma triple_return {A} (P : St -> Prop) (v : Z) (Q : A -> St -> Prop) :
  (forall s, P s -> on_return E v s) -> triple E P (return_ v) Q.
Proof. intros H s Hs. simpl. auto. Qed.

Lemma triple_assert (P : St -> Prop) (b : bool) :
  (forall s, P s -> b = false -> on_abort E s) ->
  triple E P (gcc_assert b) (fun _ s => P s /\ b = true).
Proof. intros H s Hs. unfold gcc_assert. destruct b; simpl; auto. Qed.

Lemma triple_undefined {A} (P : St -> Prop) (Q : A -> St -> Prop) :
  (forall s, P s -> on_undefined E s) -> triple E P undefined Q.
Proof. intros H s Hs. simpl. auto. Qed.

Lemma triple_call (P : St -> Prop) (m : M St Z) (Q : Z -> St -> Prop) :
  triple (mk_exits Q (on_abort E) (on_undefined E)) P m Q ->
  triple E P (call m) Q.
Proof.
  intros Hm s Hs. unfold call. specialize (Hm s Hs).
  destruct (m s); simpl in *; auto.
Qed.

(** The loop rule: [Inv i acc] holds before the iteration of index [i]. *)
Lemma triple_for_upto {A} (Inv : Z -> A -> St -> Prop) (body : Z -> A -> M St A)
  (lo hi : Z) :
  (forall i acc, lo <= i < hi ->
     triple E (Inv i acc) (body i acc) (fun acc' => Inv (i + 1) acc')) ->
  forall (n : nat) (i : Z) (acc : A),
    lo <= i -> i + Z.of_nat n = hi ->
    triple E (Inv i acc) (for_upto n i body acc) (fun acc' => Inv hi acc').
Proof.
  intros Hbody. induction n as [|n IH]; intros i acc Hlo Hhi.
  - simpl. apply triple_ret. intros s Hs.
    replace hi with i by lia. exact Hs.
  - simpl. eapply triple_bind.
    + apply Hbody. lia.
    + intros acc'. apply IH; lia.
Qed.

Lemma triple_for_each {A B} (Inv : A -> St -> Prop) (body : B -> A -> M St A) :
  (forall x acc, triple E (Inv acc) (body x acc) Inv) ->
  forall (l : list B) (acc : A),
    triple E (Inv acc) (for_each l body acc) Inv.
Proof.
  intros Hbody. induction l as [|x l IH]; intros acc.
  - simpl. apply triple_ret. auto.
  - simpl. eapply triple_bind; [apply Hbody | exact IH].
Qed.

End Rules.

(** Rules for invariants. *)

Section Keeps.

Context {St : Type}.
Variable E : exits St.
Variable I : St -> Prop.
Hypothesis Hsound : sound E I.

Lemma keeps_ret {A} (a : A) : keeps E I (ret a).
Proof. apply triple_ret. auto. Qed.

Lemma keeps_bind {A B} (m : M St A) (k : A -> M St B) :
  keeps E I m -> (forall a, keeps E I (k a)) -> keeps E I (bind m k).
Proof. intros Hm Hk. eapply triple_bind; [exact Hm | exact Hk]. Qed.

Lemma keeps_get : keeps E I get.
Proof. intros s Hs. exact Hs. Qed.

Lemma keeps_modify (f : St -> St) :
  (forall s, I s -> I (f s)) -> keeps E I (modify f).
Proof. intros H. apply triple_modify. exact H. Qed.

Lemma keeps_return {A} (v : Z) : keeps E I (@return_ St A v).
Proof. apply triple_return. intros s. apply Hsound. Qed.

Lemma keeps_assert (b : bool) : keeps E I (gcc_assert b).
Proof.
  intros s Hs. unfold gcc_assert. destruct b; [exact Hs|].
  now apply Hsound.
Qed.

Lemma keeps_undefined {A} : keeps E I (@undefined St A).
Proof. apply triple_undefined. intros s. apply Hsound. Qed.

Lemma keeps_call (m : M St Z) :
  (forall v s, on_return E v s -> I s) -> keeps E I m -> keeps E I (call m).
Proof.
  intros Hr H s Hs. unfold call. specialize (H s Hs).
  destruct (m s); eauto.
Qed.

Lemma keeps_for_upto {A} (body : Z -> A -> M St A) :
  (forall i acc, keeps E I (body i acc)) ->
  forall (n : nat) (i : Z) (acc : A), keeps E I (for_upto n i body acc).
Proof.
  intros Hbody. induction n as [|n IH]; intros i acc; simpl.
  - apply keeps_ret.
  - apply keeps_bind; [apply Hbody | intros acc'; apply IH].
Qed.

End Keeps.

Lemma sound_always {St} (I : St -> Prop) : sound (always I) I.
Proof. repeat split; auto. Qed.

Lemma stable_final {St A} (I : St -> Prop) (m : M St A) (s : St) :
  stable I m -> I s -> I (final_state (m s)).
Proof. intros H Hs. specialize (H s Hs). destruct (m s); exact H. Qed.

(** Steps the rules through a computation built from binds, branches and
    the primitives registered in the [keeps] hints. *)
Create HintDb keeps.

#[export] Hint Resolve sound_always : keeps.

Ltac keeps_step :=
  lazymatch goal with
  | |- keeps _ _ (ret _) => apply keeps_ret
  | |- keeps _ _ (return_ _) => apply keeps_return; solve [auto with keeps]
  | |- keeps _ _ get => apply keeps_get
  | |- keeps _ _ (gcc_assert _) => apply keeps_assert; solve [auto with keeps]
  | |- keeps _ _ undefined => apply keeps_undefined; solve [auto with keeps]
  | |- keeps _ _ (bind _ _) => apply keeps_bind; [|intros ?]
  | |- keeps _ _ (call _) =>
      apply keeps_call; [solve [intros; cbn in *; auto]|]
  | |- keeps _ _ (for_upto _ _ _ _) => apply keeps_for_upto; intros ? ?
  | |- keeps _ _ (match ?x with _ => _ end) => destruct x
  | |- keeps _ _ _ => solve [eauto with keeps]
  | |- triple ?E _ ?m (fun _ => ?I) => change (keeps E I m)
  end.

Ltac keeps_auto := repeat keeps_step.

(** ** The tables only grow *)

Lemma htab_find_app {A} (eq_f : A -> A -> bool) (tab l : htab A) (key : A)
  (slot : address * A) :
  htab_find eq_f tab key = Some slot -> htab_find eq_f (tab ++ l) key = Some slot.
Proof.
  unfold htab_find. induction tab as [|x tab IH]; simpl; [discriminate|].
  destruct (eq_f (snd x) key); auto.
Qed.

Lemma htab_find_fill_absent {A} (eq_f : A -> A -> bool) (tab : htab A)
  (p : address) (elt key : A) :
  htab_find eq_f tab key = None ->
  htab_find eq_f (htab_fill tab p elt) key
  = if eq_f elt key then Some (p, elt) else None.
Proof.
  unfold htab_find, htab_fill. induction tab as [|x tab IH]; simpl.
  - intros _. destruct (eq_f elt key); reflexivity.
  - destruct (eq_f (snd x) key); [discriminate | exact IH].
Qed.

Lemma grows_from_refl (s : sp_state) : grows_from s s.
Proof. split; exists []; now rewrite app_nil_r. Qed.

Section Grows.

Variable s0 : sp_state.
Variable d : disk.

(** Proves that a primitive which leaves both tables alone keeps
    [grows_from s0]. *)
Ltac untouched :=
  let s := fresh "s" in
  let Hs := fresh "Hs" in
  intros s Hs; cbv beta iota delta [fseek fread_sample fread_stack_entries
    fread_func_hdr read_file_header xcalloc error inform modify
    store_sample_buf store_inline_sample_buf update_sp_max_count];
  repeat match goal with
         | |- context [match ?x with _ => _ end] =>
             lazymatch x with
             | context [match _ with _ => _ end] => fail
             | _ => destruct x
             end
         end;
  simpl; unfold grows_from in *; simpl; exact Hs.

Lemma grows_fseek site off : stable (grows_from s0) (fseek d site off).
Proof. untouched. Qed.
Lemma grows_fread_sample site : stable (grows_from s0) (fread_sample d site).
Proof. untouched. Qed.
Lemma grows_fread_stack_entries site n :
  stable (grows_from s0) (fread_stack_entries d site n).
Proof. untouched. Qed.
Lemma grows_fread_func_hdr site size :
  stable (grows_from s0) (fread_func_hdr d site size).
Proof. untouched. Qed.
Lemma grows_read_file_header : stable (grows_from s0) (read_file_header d).
Proof. untouched. Qed.
Lemma grows_xcalloc : stable (grows_from s0) xcalloc.
Proof. untouched. Qed.
Lemma grows_error msg : stable (grows_from s0) (error msg).
Proof. untouched. Qed.
Lemma grows_inform msg : stable (grows_from s0) (inform msg).
Proof. untouched. Qed.
Lemma grows_store_sample_buf j elt :
  stable (grows_from s0) (store_sample_buf j elt).
Proof. untouched. Qed.
Lemma grows_store_inline_sample_buf j elt :
  stable (grows_from s0) (store_inline_sample_buf j elt).
Proof. untouched. Qed.
Lemma grows_update_sp_max_count f :
  stable (grows_from s0) (update_sp_max_count f).
Proof. untouched. Qed.
Lemma grows_set_sample_buf b :
  stable (grows_from s0) (modify (set_sample_buf b)).
Proof. untouched. Qed.
Lemma grows_set_inline_sample_buf b :
  stable (grows_from s0) (modify (set_inline_sample_buf b)).
Proof. untouched. Qed.

Lemma grows_fill_flat (f : sp_state -> address) elt :
  stable (grows_from s0)
    (modify (fun s => set_sp_htab (htab_fill (sp_htab s) (f s) elt) s)).
Proof.
  apply keeps_modify. intros s [[l Hl] Hi]. split; [|exact Hi].
  simpl. exists (l ++ [(f s, elt)]). unfold htab_fill.
  now rewrite Hl, app_assoc.
Qed.

Lemma grows_fill_inline (f : sp_state -> address) elt :
  stable (grows_from s0)
    (modify (fun s => set_sp_inline_htab (htab_fill (sp_inline_htab s) (f s) elt) s)).
Proof.
  apply keeps_modify. intros s [Hf [l Hl]]. split; [exact Hf|].
  simpl. exists (l ++ [(f s, elt)]). unfold htab_fill.
  now rewrite Hl, app_assoc.
Qed.

#[local] Hint Resolve grows_fseek grows_fread_sample grows_fread_stack_entries
  grows_fread_func_hdr grows_read_file_header grows_xcalloc grows_error
  grows_inform grows_store_sample_buf grows_store_inline_sample_buf
  grows_update_sp_max_count grows_set_sample_buf grows_set_inline_sample_buf
  grows_fill_flat grows_fill_inline : keeps.

Lemma grows_read_string_table : stable (grows_from s0) (read_string_table d).
Proof.
  unfold read_string_table. keeps_auto.
  intros s Hs. destruct (d_str_table d (file_pos s) _); exact Hs.
Qed.

Lemma grows_read_function_header i :
  stable (grows_from s0) (read_function_header d i).
Proof. unfold read_function_header. keeps_auto. Qed.

Lemma grows_read_flat_sample func_hdr j n :
  stable (grows_from s0) (read_flat_sample d func_hdr j n).
Proof. unfold read_flat_sample, sp_info_hash. keeps_auto. Qed.

Lemma grows_read_inline_sample hdr depth sb j n :
  stable (grows_from s0) (read_inline_sample d hdr depth sb j n).
Proof. unfold read_inline_sample. keeps_auto. Qed.

#[local] Hint Resolve grows_read_string_table grows_read_function_header
  grows_read_flat_sample grows_read_inline_sample : keeps.

Lemma grows_read_inline_group func_hdr k n :
  stable (grows_from s0) (read_inline_group d func_hdr k n).
Proof. unfold read_inline_group. keeps_auto. Qed.

Lemma grows_read_inline_function func_hdr n :
  stable (grows_from s0) (read_inline_function d func_hdr n).
Proof.
  unfold read_inline_function. keeps_auto. apply grows_read_inline_group.
Qed.

#[local] Hint Resolve grows_read_inline_function : keeps.

Lemma grows_read_function i n : stable (grows_from s0) (read_function d i n).
Proof. unfold read_function. keeps_auto. Qed.

End Grows.

Lemma grows_sp_reader (s0 : sp_state) (in_file : option disk) :
  stable (grows_from s0) (sp_reader in_file).
Proof.
  unfold sp_reader. destruct in_file as [d|].
  - keeps_auto; auto using grows_read_file_header, grows_read_string_table,
      grows_error, grows_read_function.
  - keeps_auto. apply grows_error.
Qed.

(** Unfolds the monad and the primitives of the reader, then reduces the
    projections of updated states. *)
Ltac unfold_reader :=
  unfold sp_info_hash, error, inform, xcalloc, fseek, fread_sample,
    fread_stack_entries, fread_func_hdr, read_file_header, store_sample_buf,
    store_inline_sample_buf, update_sp_max_count, bind, get, ret, modify,
    return_, gcc_assert, undefined, call.

Ltac simpl_state :=
  cbn [fb_hdr str_table sp_htab sample_buf sp_inline_htab inline_sample_buf
       sp_max_count sp_num_samples flag_sample_profile heap_blocks file_pos
       diagnostics io_log set_fb_hdr set_str_table set_sp_htab set_sample_buf
       set_sp_inline_htab set_inline_sample_buf set_sp_max_count
       set_sp_num_samples set_flag_sample_profile set_heap_blocks set_file_pos
       add_diagnostic add_io fst snd final_state].

Ltac run_reader := repeat (progress (unfold_reader; simpl_state)).

(** A header that [d_func_hdr] yields has been read within the struct. *)
Lemma d_func_hdr_fits (d : disk) (off size : Z) (h : func_sample_hdr) :
  d_func_hdr d off size = Some h ->
  (sizeof_func_sample_hdr <? size) = false.
Proof.
  unfold d_func_hdr. destruct (Z.leb_spec size sizeof_func_sample_hdr).
  - intros _. apply Z.ltb_ge. assumption.
  - discriminate.
Qed.

Lemma grows_run_step (s0 : sp_state) (step : reading_step) :
  stable (grows_from s0) (run_step step).
Proof.
  destruct step; simpl.
  - apply grows_read_flat_sample.
  - apply grows_read_inline_sample.
  - apply grows_read_inline_group.
  - apply grows_read_inline_function.
  - apply grows_read_function.
  - apply grows_sp_reader.
Qed.

Lemma htab_find_some {A} (eq_f : A -> A -> bool) (tab : htab A) (key : A)
  (slot : address * A) :
  htab_find eq_f tab key = Some slot -> In slot tab /\ eq_f (snd slot) key = true.
Proof. unfold htab_find. intros H. now apply find_some in H. Qed.

Lemma array_store_some {A} (arr : list A) (i : nat) (v : A) :
  (i < List.length arr)%nat -> exists arr', array_store arr i v = Some arr'.
Proof. intros H. rewrite array_store_in_bounds by exact H. eauto. Qed.

(** A per-line record of a function whose key is already in the flat table:
    the table is left as it is, the collision is reported and the loop goes
    on with the same count. *)
Lemma read_flat_sample_duplicate (d : disk) (func_hdr : func_sample_hdr)
  (j n : Z) (s : sp_state) (sample : fb_info_freq)
  (slot : address * sample_freq_detail) :
  d_sample d (file_pos s) = Some sample ->
  (Z.to_nat j < List.length (snd (sample_buf s)))%nat ->
  htab_find sp_info_eq (sp_htab s) (flat_record (str_table s) func_hdr sample)
  = Some slot ->
  0 < fd_line_num (snd slot) ->
  exists s',
    read_flat_sample d func_hdr j n s = Val n s'
    /\ sp_htab s' = sp_htab s
    /\ sp_inline_htab s' = sp_inline_htab s
    /\ diagnostics s'
       = diagnostics s ++ [Inform "Duplicate entry: %s:%d func_name:%s"].
Proof.
  intros Hread Hj Hfind Hline.
  destruct (htab_find_some _ _ _ _ Hfind) as [_ Heq].
  assert (Hpos : (fi_line_num sample >? 0) = true).
  { unfold sp_info_eq in Heq. apply andb_true_iff in Heq as [Heq _].
    apply andb_true_iff in Heq as [Heq _]. apply Z.eqb_eq in Heq.
    simpl in Heq. apply Z.gtb_lt. lia. }
  destruct (array_store_some (snd (sample_buf s)) (Z.to_nat j)
              (flat_record (str_table s) func_hdr sample) Hj) as [arr Harr].
  unfold read_flat_sample. unfold_reader. rewrite Hread. simpl_state.
  rewrite Harr. simpl_state.
  change (fd_line_num (flat_record (str_table s) func_hdr sample))
    with (fi_line_num sample).
  destruct (fi_freq sample >? sp_max_count s); simpl_state; rewrite Hpos;
    run_reader; rewrite Hfind; run_reader;
    eexists; (split; [reflexivity|]); repeat split; reflexivity.
Qed.

(** The same for a per-line record of an inline group. *)
Lemma read_inline_sample_duplicate (d : disk) (inline_func_hdr : func_sample_hdr)
  (inline_depth : Z) (stack_buf : stack_ptr) (j n : Z) (s : sp_state)
  (sample : fb_info_freq) (slot : address * sample_inline_freq) :
  d_sample d (file_pos s) = Some sample ->
  (Z.to_nat j < List.length (snd (inline_sample_buf s)))%nat ->
  htab_find sp_inline_info_eq (sp_inline_htab s)
    (inline_record (str_table s) inline_func_hdr inline_depth stack_buf j sample)
  = Some slot ->
  exists s',
    read_inline_sample d inline_func_hdr inline_depth stack_buf j n s = Val n s'
    /\ sp_htab s' = sp_htab s
    /\ sp_inline_htab s' = sp_inline_htab s
    /\ diagnostics s' = diagnostics s ++ [Inform "Duplicate entry: %s:%d"].
Proof.
  intros Hread Hj Hfind.
  destruct (array_store_some (snd (inline_sample_buf s)) (Z.to_nat j)
              (inline_record (str_table s) inline_func_hdr inline_depth
                 stack_buf j sample) Hj) as [arr Harr].
  unfold read_inline_sample. unfold_reader. rewrite Hread. simpl_state.
  rewrite Harr. simpl_state.
  destruct (fi_freq sample >? sp_max_count s); run_reader; rewrite Hfind;
    run_reader; eexists; (split; [reflexivity|]); repeat split; reflexivity.
Qed.

(** C7.  Whatever part of a file is read from whatever state, a key that
    the flat or the inline table holds keeps the slot and the value it has:
    the tables only grow by slots for absent keys.  When the per-line record
    just read has a key that is present (for the flat table: with the
    positive lines that its records have from the start), the table is left
    as it is,
    the collision is reported by [inform], and the loop goes on with the
    count of samples unchanged. *)
Theorem first_insert_wins (step : reading_step) (s : sp_state) :
  (forall key slot,
      htab_find sp_info_eq (sp_htab s) key = Some slot ->
      htab_find sp_info_eq (sp_htab (final_state (run_step step s))) key
      = Some slot)
  /\ (forall key slot,
        htab_find sp_inline_info_eq (sp_inline_htab s) key = Some slot ->
        htab_find sp_inline_info_eq
          (sp_inline_htab (final_state (run_step step s))) key
        = Some slot)
  /\ (forall d func_hdr j n sample slot,
        step = FlatSampleStep d func_hdr j n ->
        d_sample d (file_pos s) = Some sample ->
        (Z.to_nat j < List.length (snd (sample_buf s)))%nat ->
        htab_find sp_info_eq (sp_htab s)
          (flat_record (str_table s) func_hdr sample) = Some slot ->
        flat_lines_positive s ->
        exists s',
          run_step step s = Val n s'
          /\ sp_htab s' = sp_htab s
          /\ diagnostics s'
             = diagnostics s ++ [Inform "Duplicate entry: %s:%d func_name:%s"])
  /\ (forall d hdr inline_depth stack_buf j n sample slot,
        step = InlineSampleStep d hdr inline_depth stack_buf j n ->
        d_sample d (file_pos s) = Some sample ->
        (Z.to_nat j < List.length (snd (inline_sample_buf s)))%nat ->
        htab_find sp_inline_info_eq (sp_inline_htab s)
          (inline_record (str_table s) hdr inline_depth stack_buf j sample)
        = Some slot ->
        exists s',
          run_step step s = Val n s'
          /\ sp_inline_htab s' = sp_inline_htab s
          /\ diagnostics s' = diagnostics s ++ [Inform "Duplicate entry: %s:%d"]).
Proof.
  pose proof (stable_final _ _ s (grows_run_step s step) (grows_from_refl s))
    as [[lf Hf] [li Hi]].
  split; [|split; [|split]].
  - intros key slot H. rewrite Hf. now apply htab_find_app.
  - intros key slot H. rewrite Hi. now apply htab_find_app.
  - intros d func_hdr j n sample slot -> Hread Hj Hfind Hpos.
    assert (Hline : 0 < fd_line_num (snd slot))
      by (apply Hpos; now apply htab_find_some in Hfind).
    destruct (read_flat_sample_duplicate d func_hdr j n s sample slot
                Hread Hj Hfind Hline) as (s' & Hrun & Ht & _ & Hd).
    exists s'. simpl. auto.
  - intros d hdr inline_depth stack_buf j n sample slot -> Hread Hj Hfind.
    destruct (read_inline_sample_duplicate d hdr inline_depth stack_buf j n s
                sample slot Hread Hj Hfind) as (s' & Hrun & _ & Ht & Hd).
    exists s'. simpl. auto.
Qed.

(** ** The maximum frequency *)

Lemma max_sample_freq_snoc (log : list io_event) (e : io_event) :
  max_sample_freq (log ++ [e])
  = match snd e with
    | Sample r => Z.max (max_sample_freq log) (fi_freq r)
    | _ => max_sample_freq log
    end.
Proof. unfold max_sample_freq. rewrite fold_left_app. reflexivity. Qed.

Lemma sound_max_exits : sound max_exits max_up_to_date.
Proof. repeat split; auto. Qed.

#[export] Hint Resolve sound_max_exits : keeps.

Section MaxCount.

Variable d : disk.

(** Proves that a primitive which reads no per-line record and leaves
    [sp_max_count] alone keeps a predicate on these two. *)
Ltac unchanged :=
  let s := fresh "s" in
  let Hs := fresh "Hs" in
  intros s Hs; unfold_reader;
  repeat match goal with
         | |- context [match ?x with _ => _ end] =>
             lazymatch x with
             | context [match _ with _ => _ end] => fail
             | _ => destruct x
             end
         end;
  simpl; unfold max_up_to_date, max_pending in *; simpl_state;
  rewrite ?max_sample_freq_snoc; simpl; auto; try congruence.

Lemma max_fseek site off : keeps max_exits max_up_to_date (fseek d site off).
Proof. unchanged. Qed.
Lemma max_fread_stack_entries site n :
  keeps max_exits max_up_to_date (fread_stack_entries d site n).
Proof. unchanged. Qed.
Lemma max_fread_func_hdr site size :
  keeps max_exits max_up_to_date (fread_func_hdr d site size).
Proof. unchanged. Qed.
Lemma max_read_file_header : keeps max_exits max_up_to_date (read_file_header d).
Proof. unchanged. Qed.
Lemma max_xcalloc : keeps max_exits max_up_to_date xcalloc.
Proof. unchanged. Qed.
Lemma max_error msg : keeps max_exits max_up_to_date (error msg).
Proof. unchanged. Qed.
Lemma max_inform msg : keeps max_exits max_up_to_date (inform msg).
Proof. unchanged. Qed.
Lemma max_store_inline_sample_buf j elt :
  keeps max_exits max_up_to_date (store_inline_sample_buf j elt).
Proof. unchanged. Qed.
Lemma max_set_sample_buf b :
  keeps max_exits max_up_to_date (modify (set_sample_buf b)).
Proof. unchanged. Qed.
Lemma max_set_inline_sample_buf b :
  keeps max_exits max_up_to_date (modify (set_inline_sample_buf b)).
Proof. unchanged. Qed.
Lemma max_fill_flat (f : sp_state -> address) elt :
  keeps max_exits max_up_to_date
    (modify (fun s => set_sp_htab (htab_fill (sp_htab s) (f s) elt) s)).
Proof. unchanged. Qed.
Lemma max_fill_inline (f : sp_state -> address) elt :
  keeps max_exits max_up_to_date
    (modify (fun s => set_sp_inline_htab (htab_fill (sp_inline_htab s) (f s) elt) s)).
Proof. unchanged. Qed.

#[local] Hint Resolve max_fseek max_fread_stack_entries max_fread_func_hdr
  max_read_file_header max_xcalloc max_error max_inform
  max_store_inline_sample_buf max_set_sample_buf max_set_inline_sample_buf
  max_fill_flat max_fill_inline : keeps.

(** Reading a per-line record leaves its frequency to be accounted for. *)
Lemma max_fread_sample site :
  triple max_exits max_up_to_date (fread_sample d site)
    (fun r s => match r with
                | Some sample => max_pending sample s
                | None => max_up_to_date s
                end).
Proof. unchanged. Qed.

Lemma pending_store_sample_buf r j elt :
  keeps max_exits (max_pending r) (store_sample_buf j elt).
Proof. unchanged. Qed.

Lemma pending_store_inline_sample_buf r j elt :
  keeps max_exits (max_pending r) (store_inline_sample_buf j elt).
Proof. unchanged. Qed.

(** The comparison with [sp_max_count] accounts for it. *)
Lemma pending_update_sp_max_count r :
  triple max_exits (max_pending r) (update_sp_max_count (fi_freq r))
    (fun _ => max_up_to_date).
Proof.
  intros s Hs. unfold update_sp_max_count, max_pending, max_up_to_date in *.
  destruct (Z.gtb_spec (fi_freq r) (sp_max_count s)); simpl_state; lia.
Qed.

Lemma max_read_flat_sample func_hdr j n :
  keeps max_exits max_up_to_date (read_flat_sample d func_hdr j n).
Proof.
  unfold read_flat_sample. eapply triple_bind; [apply max_fread_sample|].
  intros [sample|]; [|keeps_auto].
  eapply triple_bind.
  { eapply triple_conseq; [apply (triple_get _ (max_pending sample)) | auto |].
    intros a s [_ H]. exact H. }
  intros s0. eapply triple_bind; [apply pending_store_sample_buf|]. intros ?.
  eapply triple_bind; [apply pending_update_sp_max_count|]. intros ?.
  unfold sp_info_hash.
  keeps_auto.
Qed.

Lemma max_read_inline_sample hdr depth sb j n :
  keeps max_exits max_up_to_date (read_inline_sample d hdr depth sb j n).
Proof.
  unfold read_inline_sample. eapply triple_bind; [apply max_fread_sample|].
  intros [sample|]; [|keeps_auto].
  eapply triple_bind.
  { eapply triple_conseq; [apply (triple_get _ (max_pending sample)) | auto |].
    intros a s [_ H]. exact H. }
  intros s0. eapply triple_bind; [apply pending_store_inline_sample_buf|].
  intros ?.
  eapply triple_bind; [apply pending_update_sp_max_count|]. intros ?.
  keeps_auto.
Qed.

Lemma max_read_string_table : keeps max_exits max_up_to_date (read_string_table d).
Proof.
  unfold read_string_table. keeps_auto.
  intros s Hs. destruct (d_str_table d (file_pos s) _); simpl;
    unfold max_up_to_date in *; simpl_state; rewrite max_sample_freq_snoc;
    exact Hs.
Qed.

Lemma max_read_function_header i :
  keeps max_exits max_up_to_date (read_function_header d i).
Proof. unfold read_function_header. keeps_auto. Qed.

#[local] Hint Resolve max_read_flat_sample max_read_inline_sample
  max_read_string_table max_read_function_header : keeps.

Lemma max_read_inline_group func_hdr k n :
  keeps max_exits max_up_to_date (read_inline_group d func_hdr k n).
Proof. unfold read_inline_group. keeps_auto. Qed.

Lemma max_read_inline_function func_hdr n :
  keeps max_exits max_up_to_date (read_inline_function d func_hdr n).
Proof.
  unfold read_inline_function. keeps_auto. apply max_read_inline_group.
Qed.

#[local] Hint Resolve max_read_inline_function : keeps.

Lemma max_read_function i n :
  keeps max_exits max_up_to_date (read_function d i n).
Proof. unfold read_function. keeps_auto. Qed.

End MaxCount.

Lemma max_sp_reader (in_file : option disk) :
  keeps max_exits max_up_to_date (sp_reader in_file).
Proof.
  unfold sp_reader. destruct in_file as [d|].
  - keeps_auto; auto using max_read_file_header, max_read_string_table,
      max_error, max_read_function.
  - keeps_auto. apply max_error.
Qed.

Lemma max_run_step (step : reading_step) :
  keeps max_exits max_up_to_date (run_step step).
Proof.
  destruct step; simpl.
  - apply max_read_flat_sample.
  - apply max_read_inline_sample.
  - apply max_read_inline_group.
  - apply max_read_inline_function.
  - apply max_read_function.
  - apply max_sp_reader.
Qed.

(** [sp_annotate_cfg] once its first loop has completed. *)
Lemma sp_annotate_cfg_after_loop (expand_location : Z -> expanded_location)
  (sp_smooth_cfg : function_cfg -> function_cfg) (g : sp_state)
  (f : function_cfg) (bbs : list basic_block) (n mx : Z) (f1 : function_cfg) :
  for_each (basic_blocks f)
    (annotate_and_count expand_location g (assembler_name f)) ([], 0, 0) f
  = Val (bbs, n, mx) f1 ->
  sp_annotate_cfg expand_location sp_smooth_cfg g f
  = if profile_usable n (n_basic_blocks f)
    then Val tt
           (set_profile_info (Some (mk_gcov_ctr_summary 1 (sp_max_count g)))
              (set_profile_status PROFILE_READ
                 (sp_smooth_cfg (set_basic_blocks bbs f1))))
    else Val tt (set_basic_blocks (map (set_count 0) bbs) f1).
Proof.
  intros Hrun. unfold sp_annotate_cfg, bind, get. rewrite Hrun. unfold modify.
  destruct (profile_usable n (n_basic_blocks f)); reflexivity.
Qed.

(** ** Inline groups without per-line records *)

(** C10.  When the header read for the [k]-th inline group of a function
    announces no per-line record, the iteration for that group ends there,
    whatever total the header carries: the count of samples, both tables,
    [sp_max_count], the sample buffers and the heap are as before, and
    nothing is reported. *)
Theorem empty_inline_group_is_skipped (d : disk) (func_hdr : func_sample_hdr)
  (k curr_num_samples : Z) (s : sp_state) (inline_func_hdr : func_sample_hdr) :
  d_seek d (inline_hdr_offset (fb_hdr s) func_hdr k) = true ->
  d_func_hdr d (inline_hdr_offset (fb_hdr s) func_hdr k)
    (fb_func_hdr_ent_size (fb_hdr s)) = Some inline_func_hdr ->
  func_num_freq_entries inline_func_hdr = 0 ->
  exists s',
    read_inline_group d func_hdr k curr_num_samples s = Val curr_num_samples s'
    /\ sp_inline_htab s' = sp_inline_htab s
    /\ sp_htab s' = sp_htab s
    /\ sp_max_count s' = sp_max_count s
    /\ inline_sample_buf s' = inline_sample_buf s
    /\ heap_blocks s' = heap_blocks s
    /\ diagnostics s' = diagnostics s.
Proof.
  intros Hseek Hhdr Hzero.
  unfold read_inline_group. unfold_reader. rewrite Hseek.
  cbn [negb]. simpl_state. rewrite (d_func_hdr_fits _ _ _ _ Hhdr), Hhdr. simpl_state. rewrite Hzero.
  cbn [Z.eqb]. eexists. split; [reflexivity|]. repeat split; reflexivity.
Qed.

(** ** I/O errors *)

Lemma clean_log_snoc (log : list io_event) (e : io_event) :
  clean_log log ->
  (io_failed e = true -> inline_site (fst e) = true) ->
  clean_log (log ++ [e]).
Proof.
  intros Hlog He e' Hin Hf.
  apply in_app_or in Hin as [Hin | [<- | []]]; auto.
Qed.

Lemma clean_snoc (s s' : sp_state) (e : io_event) :
  io_log s' = io_log s ++ [e] ->
  (io_failed e = true -> inline_site (fst e) = true) ->
  clean s -> clean s'.
Proof.
  intros Hlog He Hs. unfold clean. rewrite Hlog.
  now apply clean_log_snoc.
Qed.

Lemma clean_same_log (s s' : sp_state) :
  io_log s' = io_log s -> clean s -> clean s'.
Proof. intros Hlog Hs. unfold clean. rewrite Hlog. exact Hs. Qed.

Lemma sound_reader_exits : sound reader_exits clean.
Proof. repeat split; simpl; auto. Qed.

#[export] Hint Resolve sound_reader_exits : keeps.

(** Splits a primitive into its cases and compares the record of I/O
    before and after. *)
Ltac io_cases :=
  let s := fresh "s" in
  let Hs := fresh "Hs" in
  intros s Hs; unfold_reader;
  repeat (cbn [Z.eqb negb];
          match goal with
          | |- context [match ?x with _ => _ end] =>
              lazymatch x with
              | context [match _ with _ => _ end] => fail
              | _ => destruct x
              end
          end);
  cbn [Z.eqb negb on_return on_abort on_undefined reader_exits always];
  try match goal with
      | |- _ -> _ => intro
      end;
  try solve
    [ exact Hs
    | exact I
    | discriminate
    | congruence
    | apply (clean_same_log s); [reflexivity | exact Hs]
    | eapply clean_snoc;
      [reflexivity | unfold io_failed; simpl; congruence | exact Hs] ].

Section CleanPrimitives.

Variable E : exits sp_state.
Hypothesis HE : sound E clean.
Variable d : disk.

Lemma clean_xcalloc : keeps E clean xcalloc.
Proof. io_cases. Qed.
Lemma clean_error msg : keeps E clean (error msg).
Proof. io_cases. Qed.
Lemma clean_inform msg : keeps E clean (inform msg).
Proof. io_cases. Qed.
Lemma clean_store_sample_buf j elt : keeps E clean (store_sample_buf j elt).
Proof. io_cases. now apply HE. Qed.
Lemma clean_store_inline_sample_buf j elt :
  keeps E clean (store_inline_sample_buf j elt).
Proof. io_cases. now apply HE. Qed.
Lemma clean_update_sp_max_count f : keeps E clean (update_sp_max_count f).
Proof. io_cases. Qed.
Lemma clean_set_sample_buf b : keeps E clean (modify (set_sample_buf b)).
Proof. io_cases. Qed.
Lemma clean_set_inline_sample_buf b :
  keeps E clean (modify (set_inline_sample_buf b)).
Proof. io_cases. Qed.
Lemma clean_fill_flat (f : sp_state -> address) elt :
  keeps E clean
    (modify (fun s => set_sp_htab (htab_fill (sp_htab s) (f s) elt) s)).
Proof. io_cases. Qed.
Lemma clean_fill_inline (f : sp_state -> address) elt :
  keeps E clean
    (modify (fun s => set_sp_inline_htab (htab_fill (sp_inline_htab s) (f s) elt) s)).
Proof. io_cases. Qed.

(** I/O of [read_inline_function] never spoils [clean]. *)
Lemma clean_fseek_inline site off :
  inline_site site = true -> keeps E clean (fseek d site off).
Proof. intros Hsite. io_cases. Qed.
Lemma clean_fread_sample_inline site :
  inline_site site = true -> keeps E clean (fread_sample d site).
Proof. intros Hsite. io_cases. Qed.
Lemma clean_fread_stack_entries_inline site n :
  inline_site site = true -> keeps E clean (fread_stack_entries d site n).
Proof. intros Hsite. io_cases. Qed.
Lemma clean_fread_func_hdr_inline site size :
  inline_site site = true -> keeps E clean (fread_func_hdr d site size).
Proof. intros Hsite. io_cases. now apply HE. Qed.

End CleanPrimitives.

#[export] Hint Resolve clean_xcalloc clean_error clean_inform
  clean_store_sample_buf clean_store_inline_sample_buf clean_update_sp_max_count
  clean_set_sample_buf clean_set_inline_sample_buf clean_fill_flat
  clean_fill_inline clean_fseek_inline clean_fread_sample_inline
  clean_fread_stack_entries_inline clean_fread_func_hdr_inline : keeps.

Section CleanReader.

Variable d : disk.

Lemma clean_read_inline_sample hdr depth sb j n :
  stable clean (read_inline_sample d hdr depth sb j n).
Proof. unfold read_inline_sample. keeps_auto. Qed.

#[local] Hint Resolve clean_read_inline_sample : keeps.

Lemma clean_read_inline_group func_hdr k n :
  stable clean (read_inline_group d func_hdr k n).
Proof. unfold read_inline_group. keeps_auto. Qed.

Lemma clean_read_inline_function func_hdr n :
  stable clean (read_inline_function d func_hdr n).
Proof.
  unfold read_inline_function. keeps_auto. apply clean_read_inline_group.
Qed.

(** After a failure a [return 0] is all that is done. *)
Lemma bail_out {A} (Q : A -> sp_state -> Prop) :
  triple reader_exits failed_last (return_ 0) Q.
Proof. intros s Hs. simpl. now right. Qed.

Lemma bail_out_with_error {A} (Q : A -> sp_state -> Prop) (msg : string) :
  triple reader_exits failed_last (error msg ;; return_ 0) Q.
Proof. intros s Hs. simpl. right. split; [reflexivity | exact Hs]. Qed.

Lemma failed_last_intro (s s' : sp_state) (site : io_site) :
  io_log s' = io_log s ++ [(site, Failed)] ->
  inline_site site = false -> clean s -> failed_last s'.
Proof.
  intros Hlog Hsite Hs. exists (io_log s), (site, Failed). auto.
Qed.

(** The I/O of [sp_reader] and its helpers: [clean] is kept on success, and
    a failure is the last thing on record. *)
Ltac reader_io :=
  io_cases;
  solve [ eapply failed_last_intro;
          [reflexivity | first [assumption | reflexivity] | eassumption]
        | contradiction ].

Lemma reader_fseek site off :
  inline_site site = false ->
  triple reader_exits clean (fseek d site off)
    (fun ok s => if ok then clean s else failed_last s).
Proof. intros Hsite. reader_io. Qed.

Lemma reader_fread_sample site :
  inline_site site = false ->
  triple reader_exits clean (fread_sample d site)
    (fun r s => match r with Some _ => clean s | None => failed_last s end).
Proof. intros Hsite. reader_io. Qed.

Lemma reader_fread_func_hdr site size :
  inline_site site = false ->
  triple reader_exits clean (fread_func_hdr d site size)
    (fun r s => match r with Some _ => clean s | None => failed_last s end).
Proof. intros Hsite. reader_io. Qed.

Lemma reader_read_file_header :
  triple reader_exits clean (read_file_header d)
    (fun r s => if r =? 0 then clean s else failed_last s).
Proof. reader_io. Qed.

Lemma reader_read_string_table :
  triple reader_exits clean (read_string_table d)
    (fun r s => if r =? 0 then clean s else failed_last s).
Proof.
  unfold read_string_table.
  eapply triple_bind; [apply keeps_get|]. intros s0.
  eapply triple_bind; [now apply reader_fseek|]. intros [|]; cbn [negb].
  - eapply triple_bind; [apply (clean_xcalloc reader_exits)|].
    intros ?. reader_io.
  - apply triple_ret. intros s H. exact H.
Qed.

Lemma reader_read_function_header i :
  triple reader_exits clean (read_function_header d i)
    (fun r s => match r with
                | (0, Some _) => clean s
                | _ => failed_last s
                end).
Proof.
  unfold read_function_header.
  eapply triple_bind; [apply keeps_get|]. intros s0.
  eapply triple_bind.
  { apply keeps_assert. apply sound_reader_exits. }
  intros ?.
  eapply triple_bind; [now apply reader_fseek|]. intros [|]; cbn [negb].
  - eapply triple_bind; [now apply reader_fread_func_hdr|].
    intros [h|]; apply triple_ret; intros s H; exact H.
  - apply triple_ret. intros s H. exact H.
Qed.

Lemma reader_read_flat_sample func_hdr j n :
  keeps reader_exits clean (read_flat_sample d func_hdr j n).
Proof.
  unfold read_flat_sample. eapply triple_bind; [now apply reader_fread_sample|].
  intros [sample|]; [|apply bail_out].
  unfold sp_info_hash. keeps_auto.
Qed.

#[local] Hint Resolve reader_read_flat_sample : keeps.

Lemma reader_read_function i n :
  keeps reader_exits clean (read_function d i n).
Proof.
  unfold read_function. eapply triple_bind; [apply reader_read_function_header|].
  intros [z [func_hdr|]]; destruct z; cbn beta iota;
    try apply bail_out_with_error.
  eapply triple_bind; [apply keeps_get|]. intros s0.
  eapply triple_bind; [now apply reader_fseek|].
  intros [|]; cbn [negb]; [|apply bail_out].
  keeps_auto. apply triple_call. apply clean_read_inline_function.
Qed.

End CleanReader.

Lemma reader_sp_reader (in_file : option disk) :
  keeps reader_exits clean (sp_reader in_file).
Proof.
  unfold sp_reader. destruct in_file as [d|]; [|keeps_auto].
  eapply triple_bind; [apply reader_read_file_header|]. intros r. cbv beta.
  destruct (r =? 0); cbn [negb]; [|apply bail_out_with_error].
  eapply triple_bind; [apply reader_read_string_table|]. intros r'. cbv beta.
  destruct (r' =? 0); cbn [negb]; [|apply bail_out_with_error].
  keeps_auto. apply reader_read_function.
Qed.


(** The file cut inside the call stack of its inline group: the read of the
    stack entries fails, the reading goes on with the next function, and
    two samples are returned; [flag_sample_profile] stays set. *)
Lemma io_error_in_inline_group_keeps_samples :
  match sp_reader (Some truncated_file) initial_state with
  | Return v s' =>
      v = 2
      /\ io_log s'
         = [(FileHeaderRead, Done); (StrTableSeek, Done); (StrTableRead, Done);
            (FuncHdrSeek, Done); (FuncHdrRead, Done); (FlatSeek, Done);
            (FlatRead, Sample (mk_fb_info_freq 10 100 2));
            (FlatRead, Sample (mk_fb_info_freq 10 900 3));
            (InlineHdrSeek, Done); (InlineHdrRead, Done);
            (InlineStackSeek, Done); (InlineStackRead, Failed);
            (FuncHdrSeek, Done); (FuncHdrRead, Done); (FlatSeek, Done);
            (FlatRead, Sample (mk_fb_info_freq 30 70 1))]
      /\ List.length (sp_htab s') = 2%nat
  | _ => False
  end
  /\ match init_sample_profile false (Some truncated_file) initial_state with
     | Val _ s' => sp_num_samples s' = 2 /\ flag_sample_profile s' = true
     | _ => False
     end.
Proof. vm_compute. repeat split; reflexivity. Qed.

(** ** The records of an inline group *)

Lemma read_inline_sample_val (d : disk) (hdr : func_sample_hdr) (depth : Z)
  (sb : stack_ptr) (j n : Z) (s : sp_state) (v : Z) (s' : sp_state) :
  read_inline_sample d hdr depth sb j n s = Val v s' ->
  exists sample arr,
    array_store (snd (inline_sample_buf s)) (Z.to_nat j)
      (inline_record (str_table s) hdr depth sb j sample) = Some arr
    /\ inline_sample_buf s' = (fst (inline_sample_buf s), arr)
    /\ str_table s' = str_table s.
Proof.
  unfold read_inline_sample. unfold_reader.
  destruct (d_sample d (file_pos s)) as [sample|]; [|discriminate].
  simpl_state.
  destruct (array_store (snd (inline_sample_buf s)) (Z.to_nat j)
              (inline_record (str_table s) hdr depth sb j sample))
    as [arr|] eqn:Earr; [|discriminate].
  simpl_state.
  destruct (fi_freq sample >? sp_max_count s); simpl_state;
    match goal with
    | |- context [htab_find ?f ?t ?k] => destruct (htab_find f t k)
    end; simpl_state; intros [= <- <-]; exists sample, arr; auto.
Qed.

(** The loop over the per-line records of a group, when it runs to its end:
    the slots [j], ..., [j + n - 1] of [inline_sample_buf] hold records made
    from this group's header and stack, the others are as before. *)
Lemma read_inline_samples_val (d : disk) (hdr : func_sample_hdr) (depth : Z)
  (sb : stack_ptr) :
  forall (n : nat) (j acc : Z) (s : sp_state) (v : Z) (s' : sp_state),
    0 <= j ->
    for_upto n j (read_inline_sample d hdr depth sb) acc s = Val v s' ->
    fst (inline_sample_buf s') = fst (inline_sample_buf s)
    /\ List.length (snd (inline_sample_buf s'))
       = List.length (snd (inline_sample_buf s))
    /\ str_table s' = str_table s
    /\ (forall i, (Z.to_nat j <= i < Z.to_nat j + n)%nat ->
          (i < List.length (snd (inline_sample_buf s)))%nat
          /\ exists sample,
               nth i (snd (inline_sample_buf s')) zero_sample_inline_freq
               = inline_record (str_table s) hdr depth sb (Z.of_nat i) sample)
    /\ (forall i, ~ (Z.to_nat j <= i < Z.to_nat j + n)%nat ->
          nth i (snd (inline_sample_buf s')) zero_sample_inline_freq
          = nth i (snd (inline_sample_buf s)) zero_sample_inline_freq).
Proof.
  induction n as [|n IH]; intros j acc s v s' Hj Hrun.
  - simpl in Hrun. injection Hrun as <- <-.
    split; [reflexivity|]. split; [reflexivity|]. split; [reflexivity|].
    split; [intros i Hi; lia | intros i Hi; reflexivity].
  - simpl in Hrun. unfold bind in Hrun.
    destruct (read_inline_sample d hdr depth sb j acc s) as [a s1| | |] eqn:E1;
      try discriminate.
    apply read_inline_sample_val in E1 as (sample & arr & Harr & Hbuf & Hstr).
    destruct (IH (j + 1) a s1 v s' ltac:(lia) Hrun)
      as (Hfst & Hlen & Hstr' & Hnew & Hold).
    rewrite Hbuf in *. cbn [fst snd] in *.
    pose proof (array_store_length _ _ _ _ Harr) as Hlen1.
    pose proof (array_store_inv _ _ _ _ Harr) as [Hin _].
    replace (Z.to_nat (j + 1)) with (S (Z.to_nat j)) in * by lia.
    split; [exact Hfst|]. split; [congruence|]. split; [congruence|]. split.
    + intros i Hi. destruct (Nat.eq_dec i (Z.to_nat j)) as [->|Hne].
      * split; [exact Hin|]. exists sample.
        rewrite Hold by lia.
        rewrite (array_store_nth_same _ _ _ _ _ Harr).
        now rewrite Z2Nat.id by lia.
      * destruct (Hnew i ltac:(lia)) as [Hlt (sample' & Hs')].
        split; [lia|]. exists sample'. rewrite Hs', Hstr. reflexivity.
    + intros i Hi. rewrite Hold by lia.
      apply (array_store_nth_other _ _ _ _ _ _ Harr). lia.
Qed.

(** The buffer of a group once the loop over its per-line records has run
    to its end, the call-site total being in the last slot before it. *)
Lemma group_buffer_after_loop (d : disk) (hdr : func_sample_hdr) (depth : Z)
  (sb : stack_ptr) (n : nat) (total : sample_inline_freq)
  (arr : list sample_inline_freq) (acc : Z) (s : sp_state) (v : Z)
  (s' : sp_state) :
  (0 < n)%nat ->
  array_store (repeat zero_sample_inline_freq (S n)) n total = Some arr ->
  snd (inline_sample_buf s) = arr ->
  inline_stack total = sb ->
  is_first total = false ->
  for_upto n 0 (read_inline_sample d hdr depth sb) acc s = Val v s' ->
  let record i := nth i (snd (inline_sample_buf s')) zero_sample_inline_freq in
  List.length (snd (inline_sample_buf s')) = S n
  /\ (forall i, (i <= n)%nat -> inline_stack (record i) = sb)
  /\ (forall i, (i <= n)%nat -> (is_first (record i) = true <-> i = O))
  /\ record n = total.
Proof.
  intros Hn Harr Hbuf Hstack Hfirst Hrun record.
  apply read_inline_samples_val in Hrun as (_ & Hlen & _ & Hnew & Hold); [|lia].
  rewrite Hbuf in *. change (Z.to_nat 0) with O in *.
  pose proof (array_store_length _ _ _ _ Harr) as Hlen1.
  rewrite repeat_length in Hlen1.
  assert (Hlast : record n = total).
  { unfold record. rewrite Hold by lia.
    apply (array_store_nth_same _ _ _ _ _ Harr). }
  split; [congruence|]. split; [|split; [|exact Hlast]].
  - intros i Hi. destruct (Nat.eq_dec i n) as [->|Hne].
    + now rewrite Hlast.
    + destruct (Hnew i ltac:(lia)) as [_ (sample & Hs)].
      unfold record. rewrite Hs. reflexivity.
  - intros i Hi. destruct (Nat.eq_dec i n) as [->|Hne].
    + rewrite Hlast, Hfirst. split; [discriminate | lia].
    + destruct (Hnew i ltac:(lia)) as [_ (sample & Hs)].
      unfold record. rewrite Hs. cbn [is_first inline_record].
      rewrite Z.eqb_eq. lia.
Qed.

(** An inline group with per-line records that is read to its end: its
    stack entries were read and set up in a fresh buffer, to which all the
    records of the group's buffer point; the first of them alone is marked
    [is_first]; the last is the call-site total. *)
Lemma read_inline_group_completes (d : disk) (func_hdr : func_sample_hdr)
  (k curr_num_samples : Z) (s : sp_state) (inline_func_hdr : func_sample_hdr)
  (v : Z) (s' : sp_state) :
  d_seek d (inline_hdr_offset (fb_hdr s) func_hdr k) = true ->
  d_func_hdr d (inline_hdr_offset (fb_hdr s) func_hdr k)
    (fb_func_hdr_ent_size (fb_hdr s)) = Some inline_func_hdr ->
  0 < func_num_freq_entries inline_func_hdr < 2 ^ 64 - 1 ->
  read_inline_group d func_hdr k curr_num_samples s = Val v s' ->
  let num_lines := Z.to_nat (func_num_freq_entries inline_func_hdr) in
  let depth := inline_depth inline_func_hdr in
  let record i := nth i (snd (inline_sample_buf s')) zero_sample_inline_freq in
  exists entries frames,
    0 < depth < FB_INLINE_MAX_STACK
    /\ stack_entries_at d
         (wrap_u64 (fb_profile_offset (fb_hdr s)
                    + inline_stack_offset inline_func_hdr))
         (Z.to_nat depth) = Some entries
    /\ set_up_stack_buf (Z.to_nat depth) 0 depth (str_table s) entries
         (repeat zero_location (Z.to_nat depth)) = Some frames
    /\ List.length (snd (inline_sample_buf s')) = S num_lines
    /\ (forall i, (i <= num_lines)%nat ->
          inline_stack (record i) = mk_stack_ptr (Heap (heap_blocks s) 0) frames)
    /\ (forall i, (i <= num_lines)%nat ->
          (is_first (record i) = true <-> i = O))
    /\ record num_lines
       = callsite_total (str_table s) inline_func_hdr depth
           (mk_stack_ptr (Heap (heap_blocks s) 0) frames).
Proof.
  intros Hseek Hhdr Hlines. unfold read_inline_group. unfold_reader.
  rewrite Hseek. cbn [negb]. simpl_state. rewrite (d_func_hdr_fits _ _ _ _ Hhdr), Hhdr. simpl_state.
  destruct (Z.eqb_spec (func_num_freq_entries inline_func_hdr) 0) as [|_]; [lia|].
  repeat (simpl_state; cbn [negb];
          match goal with
          | |- context [match ?x with _ => _ end] =>
              lazymatch x with
              | context [match _ with _ => _ end] => fail
              | for_upto _ _ _ _ _ => fail
              | _ => destruct x eqn:?; try (intros; discriminate)
              end
          end).
  all: intros Hrun.
  all: assert (Hwrap : Z.to_nat (wrap_u64 (func_num_freq_entries inline_func_hdr + 1))
                = S (Z.to_nat (func_num_freq_entries inline_func_hdr)))
         by (unfold wrap_u64; rewrite Z.mod_small by lia; lia).
  all: match goal with
       | H : array_store _ _ ?total = Some ?arr |- _ =>
           rewrite Hwrap in H;
           eapply (group_buffer_after_loop _ _ _ _ _ total arr) in Hrun;
           [ destruct Hrun as (Hlen & Hstack & Hfirst & Hlast)
           | lia | exact H | reflexivity | reflexivity | reflexivity ]
       end.
  all: match goal with
       | He : stack_entries_at _ _ _ = Some ?en,
         Hf : set_up_stack_buf _ _ _ _ _ _ = Some ?fr |- _ =>
           exists en, fr
       end.
  all: repeat match goal with
              | H : (_ <? _) = true |- _ => apply Z.ltb_lt in H
              | H : (_ >? _) = true |- _ => apply Z.gtb_lt in H
              end.
  all: split; [lia|]; split; [first [assumption | reflexivity]|];
    split; [first [assumption | reflexivity]|];
    split; [exact Hlen|]; split; [exact Hstack|]; split; [exact Hfirst|];
    exact Hlast.
Qed.

(** In the records of a group read to its end the stack is the reverse of
    the one on disk: frame [depth - 1 - q] of each record is the entry
    number [q] of the group's stack in the file. *)
Lemma group_records_hold_reversed_stack (d : disk) (func_hdr : func_sample_hdr)
  (k curr_num_samples : Z) (s : sp_state) (inline_func_hdr : func_sample_hdr)
  (v : Z) (s' : sp_state) :
  d_seek d (inline_hdr_offset (fb_hdr s) func_hdr k) = true ->
  d_func_hdr d (inline_hdr_offset (fb_hdr s) func_hdr k)
    (fb_func_hdr_ent_size (fb_hdr s)) = Some inline_func_hdr ->
  0 < func_num_freq_entries inline_func_hdr < 2 ^ 64 - 1 ->
  read_inline_group d func_hdr k curr_num_samples s = Val v s' ->
  forall (i : nat) (q : Z),
    (i <= Z.to_nat (func_num_freq_entries inline_func_hdr))%nat ->
    0 <= q < inline_depth inline_func_hdr ->
    exists e,
      d_stack_entry d
        (wrap_u64 (fb_profile_offset (fb_hdr s)
                   + inline_stack_offset inline_func_hdr)
         + q * sizeof_fb_info_inline_stack_entry) = Some e
      /\ nth (Z.to_nat (inline_depth inline_func_hdr - 1 - q))
           (frames (inline_stack
                      (nth i (snd (inline_sample_buf s'))
                         zero_sample_inline_freq)))
           zero_location
         = frame_of_entry (str_table s) e.
Proof.
  intros Hseek Hhdr Hlines Hrun i q Hi Hq.
  destruct (read_inline_group_completes _ _ _ _ _ _ _ _ Hseek Hhdr Hlines Hrun)
    as (entries & frs & Hdepth & Hentries & Hsetup & _ & Hstack & _).
  rewrite (Hstack i Hi). cbn [frames].
  destruct (stack_entries_at_spec _ _ _ _ Hentries) as [_ Hdisk].
  destruct (set_up_stack_buf_loop (inline_depth inline_func_hdr) (str_table s)
              entries (Z.to_nat (inline_depth inline_func_hdr)) 0
              (repeat zero_location (Z.to_nat (inline_depth inline_func_hdr))))
    as (buf & Hrun' & _ & Hnew & _); try lia.
  { rewrite repeat_length. lia. }
  rewrite Hsetup in Hrun'. injection Hrun' as <-.
  exists (nth (Z.to_nat q) entries zero_stack_entry). split.
  - rewrite <- Hdisk by lia. rewrite Z2Nat.id by lia. reflexivity.
  - replace (inline_depth inline_func_hdr - 1 - q)
      with (inline_depth inline_func_hdr - q - 1) by lia.
    apply Hnew. lia.
Qed.

(** C4 (as amended).  When an inline group with [num_lines > 0] per-line
    records is read to its end, the [num_lines + 1] records of its buffer all
    point to one call-stack buffer, freshly allocated for the group; exactly
    one of them is marked [is_first], the first per-line record (index 0),
    and it is the only one for which [sp_inline_info_del] releases the
    stack; the record at index [num_lines], the call-site total with line 0
    and the group's total as frequency, is not marked. *)
Theorem first_record_of_group_owns_the_stack (d : disk)
  (func_hdr : func_sample_hdr) (k curr_num_samples : Z) (s : sp_state)
  (inline_func_hdr : func_sample_hdr) (v : Z) (s' : sp_state) :
  d_seek d (inline_hdr_offset (fb_hdr s) func_hdr k) = true ->
  d_func_hdr d (inline_hdr_offset (fb_hdr s) func_hdr k)
    (fb_func_hdr_ent_size (fb_hdr s)) = Some inline_func_hdr ->
  0 < func_num_freq_entries inline_func_hdr < 2 ^ 64 - 1 ->
  read_inline_group d func_hdr k curr_num_samples s = Val v s' ->
  let num_lines := Z.to_nat (func_num_freq_entries inline_func_hdr) in
  let buf := snd (inline_sample_buf s') in
  let record i := nth i buf zero_sample_inline_freq in
  exists stack_buf,
    List.length buf = S num_lines
    /\ stack_addr stack_buf = Heap (heap_blocks s) 0
    /\ (forall i, (i <= num_lines)%nat -> inline_stack (record i) = stack_buf)
    /\ (forall i, (i <= num_lines)%nat ->
          (is_first (record i) = true <-> i = O))
    /\ (forall i, (i <= num_lines)%nat ->
          sp_inline_info_del (record i)
          = if Nat.eqb i 0 then Some (stack_addr stack_buf) else None)
    /\ line_num (record num_lines) = 0
    /\ freq (record num_lines) = total_samples inline_func_hdr
    /\ is_first (record num_lines) = false.
Proof.
  intros Hseek Hhdr Hlines Hrun num_lines buf record.
  destruct (read_inline_group_completes _ _ _ _ _ _ _ _ Hseek Hhdr Hlines Hrun)
    as (entries & frs & _ & _ & _ & Hlen & Hstack & Hfirst & Hlast).
  exists (mk_stack_ptr (Heap (heap_blocks s) 0) frs).
  subst record buf num_lines. cbv beta.
  split; [exact Hlen|]. split; [reflexivity|]. split; [exact Hstack|].
  split; [exact Hfirst|]. split.
  - intros i Hi. unfold sp_inline_info_del. rewrite (Hstack i Hi).
    destruct (Nat.eqb_spec i 0) as [->|Hne].
    + rewrite (proj2 (Hfirst O Hi) eq_refl). reflexivity.
    + destruct (is_first _) eqn:Ef; [|reflexivity].
      apply (Hfirst i Hi) in Ef. contradiction.
  - rewrite Hlast. repeat split; reflexivity.
Qed.

(** ** The count of a basic block *)

Lemma wrap_u32_add_l (a b : Z) : wrap_u32 (wrap_u32 a + b) = wrap_u32 (a + b).
Proof. unfold wrap_u32. now rewrite Z.add_mod_idemp_l by lia. Qed.

Lemma wrap_s64_add_l (a b : Z) : wrap_s64 (wrap_s64 a + b) = wrap_s64 (a + b).
Proof.
  unfold wrap_s64. f_equal.
  replace ((a + 2 ^ 63) mod 2 ^ 64 - 2 ^ 63 + b + 2 ^ 63)
    with ((a + 2 ^ 63) mod 2 ^ 64 + b) by lia.
  rewrite Z.add_mod_idemp_l by lia. f_equal. lia.
Qed.

Lemma wrap_u32_small (a : Z) : 0 <= a < 2 ^ 32 -> wrap_u32 a = a.
Proof. intros H. unfold wrap_u32. now apply Z.mod_small. Qed.

Lemma wrap_s64_small (a : Z) : - 2 ^ 63 <= a < 2 ^ 63 -> wrap_s64 a = a.
Proof. intros H. unfold wrap_s64. rewrite Z.mod_small by lia. lia. Qed.

Lemma firstn_snoc_nth {A} (l : list A) (n : nat) (d : A) :
  (n < List.length l)%nat -> firstn (S n) l = firstn n l ++ [nth n l d].
Proof.
  revert n. induction l as [|x l IH]; intros n Hn; simpl in Hn; [lia|].
  destruct n as [|n]; [reflexivity|].
  cbn [firstn nth app]. f_equal. apply IH. lia.
Qed.

(** The backward scan of [lines] finds [p] exactly when [p] is among the
    entries scanned. *)
Lemma scan_back_spec (p : address) (arr : list address) (n : nat) :
  (n <= List.length arr)%nat ->
  (scan_back p arr n >=? 0) = existsb (address_eqb p) (firstn n arr).
Proof.
  induction n as [|n IH]; intros Hn; [reflexivity|].
  rewrite (firstn_snoc_nth arr n NULL) by lia.
  rewrite existsb_app. cbn [scan_back existsb].
  destruct (address_eqb p (nth n arr NULL)).
  - rewrite orb_true_r. apply Z.geb_le. lia.
  - rewrite orb_false_r. apply IH. lia.
Qed.

Lemma scan_back_all (p : address) (arr : list address) :
  (scan_back p arr (List.length arr) >=? 0) = existsb (address_eqb p) arr.
Proof. rewrite scan_back_spec by lia. now rewrite firstn_all. Qed.

Lemma existsb_map_other (k : bool) (p : address) (l : list address) :
  existsb (id_eqb (k, p)) (map (pair (negb k)) l) = false.
Proof.
  induction l as [|a l IH]; [reflexivity|]. simpl. rewrite IH.
  unfold id_eqb. simpl. now destruct k.
Qed.

Lemma existsb_map_same (k : bool) (p : address) (l : list address) :
  existsb (id_eqb (k, p)) (map (pair k) l) = existsb (address_eqb p) l.
Proof.
  induction l as [|a l IH]; [reflexivity|]. simpl. rewrite IH.
  unfold id_eqb. simpl. now rewrite Bool.eqb_reflx.
Qed.

Lemma existsb_seen_flat (p : address) (l : bb_locals) :
  existsb (id_eqb (false, p)) (seen_of l) = existsb (address_eqb p) (lines l).
Proof.
  unfold seen_of. rewrite existsb_app, existsb_map_same.
  rewrite (existsb_map_other false). apply orb_false_r.
Qed.

Lemma existsb_seen_inline (p : address) (l : bb_locals) :
  existsb (id_eqb (true, p)) (seen_of l)
  = existsb (address_eqb p) (lines_inline l).
Proof.
  unfold seen_of. rewrite existsb_app, existsb_map_same.
  now rewrite (existsb_map_other true).
Qed.

(** [distinct] depends on [seen] through membership only. *)
Lemma distinct_ext (l : list matched) :
  forall seen1 seen2,
    (forall i, existsb (id_eqb i) seen1 = existsb (id_eqb i) seen2) ->
    distinct seen1 l = distinct seen2 l.
Proof.
  induction l as [|m l IH]; intros seen1 seen2 H; [reflexivity|].
  simpl. rewrite (H (m_id m)).
  destruct (existsb (id_eqb (m_id m)) seen2).
  - now apply IH.
  - f_equal. apply IH. intros i. simpl. now rewrite H.
Qed.

Lemma seen_of_accumulate (k : bool) (p : address) (f n : Z) (l : bb_locals) :
  forall i,
    existsb (id_eqb i) (seen_of (accumulate k p f n l))
    = existsb (id_eqb i) ((k, p) :: seen_of l).
Proof.
  intros i. unfold seen_of, accumulate. destruct k; cbn [lines lines_inline];
    rewrite ?map_app, ?existsb_app; cbn [map existsb];
    rewrite ?existsb_app, ?orb_false_r.
  - rewrite orb_assoc. apply orb_comm.
  - rewrite <- orb_assoc.
    rewrite (orb_comm (id_eqb i (false, p))). rewrite orb_assoc.
    apply orb_comm.
Qed.

Section BlockCount.

Variable expand_location : Z -> expanded_location.
Variable g : sp_state.
Variable fn_name : string.

(** One statement of the scan: nothing but [num_ir] changes unless the
    statement maps to a record not yet counted, which is accumulated if the
    array of counted records has room and makes the assertion fail if not. *)
Lemma annotate_stmt_spec {St} (stmt : gimple) (l : bb_locals) (s : St) :
  (get_lineno stmt <> -1 -> (inline_depth_of stmt < 200)%nat) ->
  annotate_stmt expand_location g fn_name stmt l s
  = match matched_record expand_location g fn_name stmt with
    | None => Val (count_ir stmt l) s
    | Some m =>
        if existsb (id_eqb (m_id m)) (seen_of l) then Val (count_ir stmt l) s
        else if Z.of_nat (List.length
                            (if fst (m_id m) then lines_inline l else lines l))
                <? MAX_LINES_PER_BASIC_BLOCK
             then Val (accumulate (fst (m_id m)) (snd (m_id m)) (m_freq m)
                         (m_instr m) (count_ir stmt l)) s
             else Abort s
    end.
Proof.
  intros Hdepth. unfold annotate_stmt, matched_record, count_ir.
  destruct (Z.eqb_spec (get_lineno stmt) (-1)) as [|Hline]; [reflexivity|].
  specialize (Hdepth Hline).
  pose proof (sp_get_inline_stack_depth expand_location stmt
                (repeat zero_location (Z.to_nat FB_INLINE_MAX_STACK))) as Hwalk.
  rewrite repeat_length in Hwalk.
  change (Z.to_nat FB_INLINE_MAX_STACK) with 200%nat in *.
  destruct (Nat.leb_spec (inline_depth_of stmt) 200); [|lia].
  destruct Hwalk as (stack' & -> & _).
  unfold bind, gcc_assert, ret.
  replace (Z.of_nat (inline_depth_of stmt) <? FB_INLINE_MAX_STACK) with true
    by (symmetry; apply Z.ltb_lt; unfold FB_INLINE_MAX_STACK; lia).
  destruct (Z.of_nat (inline_depth_of stmt) >? 0).
  - destruct (htab_find sp_inline_info_eq (sp_inline_htab g) _) as [[p e]|];
      [|reflexivity].
    unfold m_id, m_freq, m_instr. cbn [lines_inline lines fst snd].
    rewrite scan_back_all, existsb_seen_inline.
    destruct (existsb (address_eqb p) (lines_inline l)); [reflexivity|].
    destruct (Z.of_nat (List.length (lines_inline l)) <? MAX_LINES_PER_BASIC_BLOCK);
      reflexivity.
  - destruct (htab_find sp_info_eq (sp_htab g) _) as [[p e]|]; [|reflexivity].
    unfold m_id, m_freq, m_instr. cbn [lines_inline lines fst snd].
    rewrite scan_back_all, existsb_seen_flat.
    destruct (existsb (address_eqb p) (lines l)); [reflexivity|].
    destruct (Z.of_nat (List.length (lines l)) <? MAX_LINES_PER_BASIC_BLOCK);
      reflexivity.
Qed.

Lemma seen_of_count_ir (stmt : gimple) (l : bb_locals) :
  seen_of (count_ir stmt l) = seen_of l.
Proof. unfold count_ir. now destruct (get_lineno stmt =? -1). Qed.

Lemma count_kind_cons (k : bool) (m : matched) (l : list matched) :
  count_kind k (m :: l)
  = ((if Bool.eqb (fst (m_id m)) k then 1 else 0) + count_kind k l)%nat.
Proof.
  unfold count_kind. cbn [filter].
  destruct (Bool.eqb (fst (m_id m)) k); reflexivity.
Qed.

Lemma count_ir_fields (stmt : gimple) (l : bb_locals) :
  sum_ir_count (count_ir stmt l) = sum_ir_count l
  /\ num_instr_sampled (count_ir stmt l) = num_instr_sampled l
  /\ lines (count_ir stmt l) = lines l
  /\ lines_inline (count_ir stmt l) = lines_inline l.
Proof. unfold count_ir. destruct (get_lineno stmt =? -1); auto. Qed.

Lemma wrap_s64_range (a : Z) : - 2 ^ 63 <= wrap_s64 a < 2 ^ 63.
Proof.
  unfold wrap_s64. pose proof (Z.mod_pos_bound (a + 2 ^ 63) (2 ^ 64)). lia.
Qed.

Lemma wrap_u32_range (a : Z) : 0 <= wrap_u32 a < 2 ^ 32.
Proof. unfold wrap_u32. apply Z.mod_pos_bound. lia. Qed.

(** The scan of the statements of a block: with room for the distinct
    records still to come, it completes, and the two sums have grown by the
    frequencies and instruction counts of those records. *)
Lemma annotate_stmts_spec {St} (s : St) :
  forall (sts : list gimple) (l : bb_locals),
    (forall stmt, In stmt sts ->
       get_lineno stmt <> -1 -> (inline_depth_of stmt < 200)%nat) ->
    (- 2 ^ 63 <= sum_ir_count l < 2 ^ 63) ->
    (0 <= num_instr_sampled l < 2 ^ 32) ->
    let new := distinct (seen_of l) (matches expand_location g fn_name sts) in
    (List.length (lines l) + count_kind false new <= 500)%nat ->
    (List.length (lines_inline l) + count_kind true new <= 500)%nat ->
    exists l',
      for_each sts (annotate_stmt expand_location g fn_name) l s = Val l' s
      /\ sum_ir_count l' = wrap_s64 (sum_ir_count l + sum_freq new)
      /\ num_instr_sampled l' = wrap_u32 (num_instr_sampled l + sum_instr new).
Proof.
  induction sts as [|stmt sts IH]; intros l Hdepth Hsum Hnum new Hflat Hinl.
  - exists l. subst new. simpl. unfold sum_freq, sum_instr. simpl.
    rewrite !Z.add_0_r, wrap_s64_small, wrap_u32_small by assumption. auto.
  - cbn [for_each]. unfold bind.
    rewrite annotate_stmt_spec by (apply Hdepth; now left).
    assert (Hrest : forall stmt0, In stmt0 sts ->
              get_lineno stmt0 <> -1 -> (inline_depth_of stmt0 < 200)%nat)
      by (intros stmt0 H0; apply Hdepth; now right).
    destruct (count_ir_fields stmt l) as (Hc1 & Hc2 & Hc3 & Hc4).
    subst new. cbn [matches] in *.
    destruct (matched_record expand_location g fn_name stmt) as [m|].
    + cbn [distinct] in *.
      destruct (existsb (id_eqb (m_id m)) (seen_of l)) eqn:Eseen.
      * destruct (IH (count_ir stmt l) Hrest) as (l' & Hrun & Hs & Hn);
          rewrite ?seen_of_count_ir, ?Hc1, ?Hc2, ?Hc3, ?Hc4; try assumption.
        exists l'. rewrite seen_of_count_ir, Hc1, Hc2 in *. auto.
      * rewrite count_kind_cons in Hflat, Hinl.
        set (l1 := accumulate (fst (m_id m)) (snd (m_id m)) (m_freq m)
                     (m_instr m) (count_ir stmt l)).
        assert (Hext : distinct (seen_of l1)
                         (matches expand_location g fn_name sts)
                       = distinct (m_id m :: seen_of l)
                           (matches expand_location g fn_name sts)).
        { apply distinct_ext. intros i. subst l1.
          rewrite seen_of_accumulate, seen_of_count_ir.
          now rewrite <- surjective_pairing. }
        assert (Hroom : (Z.of_nat (List.length
                           (if fst (m_id m) then lines_inline l else lines l))
                         <? MAX_LINES_PER_BASIC_BLOCK) = true).
        { apply Z.ltb_lt. unfold MAX_LINES_PER_BASIC_BLOCK.
          destruct (fst (m_id m)); simpl in Hflat, Hinl; lia. }
        rewrite Hroom. fold l1.
        destruct (IH l1 Hrest) as (l' & Hrun & Hs & Hn).
        { subst l1. cbn [accumulate sum_ir_count]. apply wrap_s64_range. }
        { subst l1. cbn [accumulate num_instr_sampled]. apply wrap_u32_range. }
        { rewrite Hext. subst l1. cbn [accumulate lines].
          rewrite Hc3. destruct (fst (m_id m)); simpl in Hflat |- *;
            rewrite ?length_app; simpl; lia. }
        { rewrite Hext. subst l1. cbn [accumulate lines_inline].
          rewrite Hc4. destruct (fst (m_id m)); simpl in Hinl |- *;
            rewrite ?length_app; simpl; lia. }
        exists l'. split; [exact Hrun|]. rewrite Hext in Hs, Hn.
        subst l1. cbn [accumulate sum_ir_count num_instr_sampled] in Hs, Hn.
        rewrite Hc1, wrap_s64_add_l in Hs. rewrite Hc2, wrap_u32_add_l in Hn.
        unfold sum_freq, sum_instr in *. cbn [fold_right].
        rewrite Hs, Hn. split; f_equal; lia.
    + destruct (IH (count_ir stmt l) Hrest) as (l' & Hrun & Hs & Hn);
        rewrite ?seen_of_count_ir, ?Hc1, ?Hc2, ?Hc3, ?Hc4; try assumption.
      exists l'. rewrite seen_of_count_ir, Hc1, Hc2 in *. auto.
Qed.

End BlockCount.

Lemma sum_nonneg (l : list matched) :
  (forall m, In m l -> 0 <= m_freq m /\ 0 <= m_instr m) ->
  0 <= sum_freq l /\ 0 <= sum_instr l.
Proof.
  induction l as [|m l IH]; intros H; [split; reflexivity|].
  unfold sum_freq, sum_instr in *. cbn [fold_right].
  destruct (H m (or_introl eq_refl)) as [Hf Hi].
  destruct IH as [IHf IHi]; [intros m' Hm'; apply H; now right|]. lia.
Qed.

(** C2 (as amended).  For a block whose statements have inline stacks of
    fewer than 200 frames and match at most 500 distinct records of the flat
    table and at most 500 of the inline table, with frequencies and
    instruction counts that are not negative and add up to less than 2^63
    and 2^32, [sp_annotate_bb] sets the count to the sum of the frequencies
    of the distinct matched records divided by the sum of their instruction
    counts, and to 0 when that sum is 0; a record matched by several
    statements of the block is counted once. *)
Theorem block_count_is_weighted_average
  (expand_location : Z -> expanded_location) (g : sp_state) (fn_name : string)
  (bb : basic_block) (St : Type) (s : St) :
  let ms := distinct [] (matches expand_location g fn_name (stmts bb)) in
  (forall stmt, In stmt (stmts bb) ->
     get_lineno stmt <> -1 -> (inline_depth_of stmt < 200)%nat) ->
  (count_kind false ms <= 500)%nat ->
  (count_kind true ms <= 500)%nat ->
  (forall m, In m ms -> 0 <= m_freq m /\ 0 <= m_instr m) ->
  sum_freq ms < 2 ^ 63 ->
  sum_instr ms < 2 ^ 32 ->
  sp_annotate_bb expand_location g fn_name bb s
  = Val (set_count (average_count ms) bb) s.
Proof.
  intros ms Hdepth Hflat Hinl Hpos Hfreq Hinstr.
  destruct (sum_nonneg ms Hpos) as [Hf0 Hi0].
  destruct (annotate_stmts_spec expand_location g fn_name s (stmts bb)
              initial_locals Hdepth)
    as (l' & Hrun & Hs & Hn); cbn [initial_locals sum_ir_count
      num_instr_sampled lines lines_inline seen_of map app List.length];
    try lia; try assumption.
  unfold sp_annotate_bb, bind. rewrite Hrun. unfold ret. do 2 f_equal.
  cbn [initial_locals sum_ir_count num_instr_sampled seen_of lines
       lines_inline map app] in Hs, Hn.
  fold ms in Hs, Hn. rewrite Z.add_0_l in Hs, Hn.
  rewrite wrap_s64_small in Hs by lia. rewrite wrap_u32_small in Hn by lia.
  unfold bb_count, average_count. rewrite Hs, Hn.
  destruct (Z.eqb_spec (sum_instr ms) 0) as [Hz | Hnz].
  - rewrite Hz. reflexivity.
  - destruct (Z.gtb_spec (sum_instr ms) 0); [|lia].
    apply Z.quot_div_nonneg; lia.
Qed.

(** The instruction counts of the three matched records add up to
    2^32 + 1: [num_instr_sampled] wraps to 1 and the count is 40, not
    40 / (2^32 + 1) = 0. *)
Lemma block_count_wraps_around :
  sp_annotate_bb line_map large_tables "foo" (block_at 2 [1; 2; 3]) tt
  = Val (set_count 40 (block_at 2 [1; 2; 3])) tt
  /\ average_count
       (distinct [] (matches line_map large_tables "foo"
                       (stmts (block_at 2 [1; 2; 3])))) = 0.
Proof. split; vm_compute; reflexivity. Qed.

(** ** Usability of the annotated profile *)

Section Usability.

Variable expand_location : Z -> expanded_location.
Variable sp_smooth_cfg : function_cfg -> function_cfg.
Variable g : sp_state.
Variable fn_name : string.

(** The scan of a block touches no state of its own. *)
Lemma annotate_stmt_pure {St} (I : St -> Prop) (stmt : gimple) (l : bb_locals) :
  stable I (annotate_stmt expand_location g fn_name stmt l).
Proof.
  unfold annotate_stmt.
  destruct (get_lineno stmt =? -1); [apply keeps_ret|].
  destruct (sp_get_inline_stack expand_location stmt _) as [[d stack]|];
    keeps_auto.
Qed.

Lemma for_each_stable {St A B} (I : St -> Prop) (body : B -> A -> M St A) :
  (forall x acc, stable I (body x acc)) ->
  forall (l : list B) (acc : A), stable I (for_each l body acc).
Proof. intros H. apply triple_for_each. exact H. Qed.

Lemma sp_annotate_bb_pure {St} (I : St -> Prop) (bb : basic_block) :
  stable I (sp_annotate_bb expand_location g fn_name bb).
Proof.
  unfold sp_annotate_bb. apply keeps_bind; [|intros; apply keeps_ret].
  apply for_each_stable. intros. apply annotate_stmt_pure.
Qed.

Lemma annotate_and_count_pure {St} (I : St -> Prop) (bb : basic_block)
  (acc : list basic_block * Z * Z) :
  stable I (annotate_and_count expand_location g fn_name bb acc).
Proof.
  unfold annotate_and_count. destruct acc as [[done n] mx].
  apply keeps_bind; [apply sp_annotate_bb_pure|].
  intros bb'. destruct (negb (count bb' =? 0)); apply keeps_ret.
Qed.

Lemma nonzero_count_app (l1 l2 : list basic_block) :
  nonzero_count (l1 ++ l2) = nonzero_count l1 + nonzero_count l2.
Proof.
  unfold nonzero_count. rewrite filter_app, length_app. lia.
Qed.

(** The first loop of [sp_annotate_cfg], when it completes: the blocks are
    those [sp_annotate_bb] gives, and the counter is the number of them
    with a nonzero count. *)
Lemma annotate_blocks_spec {St} (s : St) :
  forall (bbs : list basic_block) (done : list basic_block) (n mx : Z)
         (r : list basic_block * Z * Z) (s' : St),
    for_each bbs (annotate_and_count expand_location g fn_name) (done, n, mx) s
    = Val r s' ->
    s' = s
    /\ exists new mx',
        r = (done ++ new, n + nonzero_count new, mx')
        /\ Forall2 (fun bb bb' =>
                      sp_annotate_bb expand_location g fn_name bb s = Val bb' s)
             bbs new.
Proof.
  induction bbs as [|bb bbs IH]; intros done n mx r s' Hrun.
  - simpl in Hrun. injection Hrun as <- <-. split; [reflexivity|].
    exists [], mx. rewrite app_nil_r, Z.add_0_r. split; [reflexivity|constructor].
  - cbn [for_each] in Hrun. unfold bind at 1 in Hrun.
    unfold annotate_and_count at 1 in Hrun. unfold bind at 1 in Hrun.
    pose proof (sp_annotate_bb_pure (eq s) bb s eq_refl) as Hpure.
    destruct (sp_annotate_bb expand_location g fn_name bb s) as [bb' s1| | |]
      eqn:Ebb; try discriminate.
    simpl in Hpure. subst s1.
    destruct (negb (count bb' =? 0)) eqn:Enz; unfold ret in Hrun;
      apply IH in Hrun as (-> & new & mx' & -> & Hall);
      (split; [reflexivity|]); exists (bb' :: new), mx';
      (split; [|constructor; assumption]);
      rewrite <- app_assoc; cbn [app];
      change (bb' :: new) with ([bb'] ++ new); rewrite nonzero_count_app;
      unfold nonzero_count at 2; cbn [filter]; rewrite Enz; cbn [List.length];
      f_equal; f_equal; lia.
Qed.

End Usability.

(** C1 (as amended).  When the annotation of the blocks of a function
    completes, the counter of annotated blocks is the number of blocks that
    received a nonzero count; the profile is used exactly when that number
    exceeds 1, or is 1 and [n_basic_blocks], which counts the entry and exit
    blocks too, is below 5: the flow-consistency stage then runs, the profile
    status becomes PROFILE_READ and the summary (1 run, [sp_max_count]) is
    published; otherwise the count of every block is reset to 0 and status
    and summary stay as they were.  With one block annotated a function of
    3 or of 4 blocks in all is accepted, one of 5 is rejected. *)
Theorem profile_is_usable_iff (expand_location : Z -> expanded_location)
  (sp_smooth_cfg : function_cfg -> function_cfg) (g : sp_state)
  (f : function_cfg) (bbs : list basic_block) (n mx : Z) (f' : function_cfg) :
  for_each (basic_blocks f)
    (annotate_and_count expand_location g (assembler_name f)) ([], 0, 0) f
  = Val (bbs, n, mx) f' ->
  f' = f
  /\ Forall2 (fun bb bb' =>
                sp_annotate_bb expand_location g (assembler_name f) bb f
                = Val bb' f)
       (basic_blocks f) bbs
  /\ n = nonzero_count bbs
  /\ (n > 1 \/ (n = 1 /\ n_basic_blocks f < 5) ->
      sp_annotate_cfg expand_location sp_smooth_cfg g f
      = Val tt
          (set_profile_info (Some (mk_gcov_ctr_summary 1 (sp_max_count g)))
             (set_profile_status PROFILE_READ
                (sp_smooth_cfg (set_basic_blocks bbs f)))))
  /\ (~ (n > 1 \/ (n = 1 /\ n_basic_blocks f < 5)) ->
      sp_annotate_cfg expand_location sp_smooth_cfg g f
      = Val tt (set_basic_blocks (map (set_count 0) bbs) f)
      /\ forall bb, In bb (map (set_count 0) bbs) -> count bb = 0)
  /\ profile_usable 1 3 = true
  /\ profile_usable 1 4 = true
  /\ profile_usable 1 5 = false.
Proof.
  intros Hrun.
  pose proof (annotate_blocks_spec expand_location g (assembler_name f) f
                _ _ _ _ _ _ Hrun) as (-> & new & mx' & Hr & Hall).
  injection Hr as -> -> ->. cbn [app] in *.
  change (0 + nonzero_count new) with (nonzero_count new) in *.
  split; [reflexivity|]. split; [exact Hall|]. split; [reflexivity|].
  assert (Hdec : profile_usable (nonzero_count new) (n_basic_blocks f) = true
                 <-> nonzero_count new > 1
                     \/ (nonzero_count new = 1 /\ n_basic_blocks f < 5)).
  { unfold profile_usable, MIN_SAMPLE_BB_COUNT.
    rewrite orb_true_iff, andb_true_iff, Z.gtb_lt, Z.eqb_eq, Z.ltb_lt. lia. }
  split; [|split; [|repeat split; reflexivity]].
  - intros Huse. apply Hdec in Huse.
    unfold sp_annotate_cfg, bind, get. rewrite Hrun. unfold modify.
    cbn [n_basic_blocks set_basic_blocks]. rewrite Huse. reflexivity.
  - intros Hno. split.
    + unfold sp_annotate_cfg, bind, get. rewrite Hrun. unfold modify.
      cbn [n_basic_blocks set_basic_blocks].
      destruct (profile_usable (nonzero_count new) (n_basic_blocks f)) eqn:E.
      * exfalso. apply Hno, Hdec. reflexivity.
      * reflexivity.
    + intros bb Hin. apply in_map_iff in Hin as (bb0 & <- & _). reflexivity.
Qed.

(** With one of its blocks annotated, foo is accepted when it has that
    block only (3 blocks with entry and exit), and rejected when it has four
    blocks of its own (6 with entry and exit). *)
Lemma one_annotated_block_of_three_is_accepted :
  match sp_annotate_cfg line_map no_smoothing small_tables
          (foo_cfg [block_at 2 [1; 2]]) with
  | Val _ f' =>
      n_basic_blocks f' = 3
      /\ map count (basic_blocks f') = [8]
      /\ profile_status f' = PROFILE_READ
      /\ profile_info f' = Some (mk_gcov_ctr_summary 1 30)
  | _ => False
  end
  /\ match sp_annotate_cfg line_map no_smoothing small_tables
             (foo_cfg [block_at 2 [1; 2]; block_at 3 []; block_at 4 [];
                       block_at 5 [9]]) with
     | Val _ f' =>
         n_basic_blocks f' = 6
         /\ map count (basic_blocks f') = [0; 0; 0; 0]
         /\ profile_status f' = PROFILE_ABSENT
         /\ profile_info f' = None
     | _ => False
     end.
Proof. vm_compute. repeat split; reflexivity. Qed.

(** ** The lines of the flat table *)

Section PositiveLines.

Variable d : disk.

(** Proves that a primitive which leaves the flat table alone keeps
    [flat_lines_positive]. *)
Ltac same_table :=
  let s := fresh "s" in
  let Hs := fresh "Hs" in
  intros s Hs; unfold_reader;
  repeat match goal with
         | |- context [match ?x with _ => _ end] =>
             lazymatch x with
             | context [match _ with _ => _ end] => fail
             | _ => destruct x
             end
         end;
  exact Hs.

Lemma positive_fseek site off : stable flat_lines_positive (fseek d site off).
Proof. same_table. Qed.
Lemma positive_fread_sample site :
  stable flat_lines_positive (fread_sample d site).
Proof. same_table. Qed.
Lemma positive_fread_stack_entries site n :
  stable flat_lines_positive (fread_stack_entries d site n).
Proof. same_table. Qed.
Lemma positive_fread_func_hdr site size :
  stable flat_lines_positive (fread_func_hdr d site size).
Proof. same_table. Qed.
Lemma positive_read_file_header : stable flat_lines_positive (read_file_header d).
Proof. same_table. Qed.
Lemma positive_xcalloc : stable flat_lines_positive xcalloc.
Proof. same_table. Qed.
Lemma positive_error msg : stable flat_lines_positive (error msg).
Proof. same_table. Qed.
Lemma positive_inform msg : stable flat_lines_positive (inform msg).
Proof. same_table. Qed.
Lemma positive_store_sample_buf j elt :
  stable flat_lines_positive (store_sample_buf j elt).
Proof. same_table. Qed.
Lemma positive_store_inline_sample_buf j elt :
  stable flat_lines_positive (store_inline_sample_buf j elt).
Proof. same_table. Qed.
Lemma positive_update_sp_max_count f :
  stable flat_lines_positive (update_sp_max_count f).
Proof. same_table. Qed.
Lemma positive_set_sample_buf b :
  stable flat_lines_positive (modify (set_sample_buf b)).
Proof. same_table. Qed.
Lemma positive_set_inline_sample_buf b :
  stable flat_lines_positive (modify (set_inline_sample_buf b)).
Proof. same_table. Qed.
Lemma positive_fill_inline (f : sp_state -> address) elt :
  stable flat_lines_positive
    (modify (fun s => set_sp_inline_htab (htab_fill (sp_inline_htab s) (f s) elt) s)).
Proof. same_table. Qed.

#[local] Hint Resolve positive_fseek positive_fread_sample
  positive_fread_stack_entries positive_fread_func_hdr positive_read_file_header
  positive_xcalloc positive_error positive_inform positive_store_sample_buf
  positive_store_inline_sample_buf positive_update_sp_max_count
  positive_set_sample_buf positive_set_inline_sample_buf positive_fill_inline
  : keeps.

(** A record enters the flat table only past the assertion of
    [sp_info_hash]. *)
Lemma positive_read_flat_sample func_hdr j n :
  stable flat_lines_positive (read_flat_sample d func_hdr j n).
Proof.
  unfold read_flat_sample. apply keeps_bind; [apply positive_fread_sample|].
  intros [sample|]; [|keeps_auto].
  apply keeps_bind; [apply keeps_get|]. intros s0.
  apply keeps_bind; [apply positive_store_sample_buf|]. intros ?.
  apply keeps_bind; [apply positive_update_sp_max_count|]. intros ?.
  unfold sp_info_hash. eapply triple_bind.
  { apply triple_assert. auto. }
  intros ? s [Hs Hline]. unfold_reader.
  destruct (htab_find sp_info_eq (sp_htab s) _); simpl_state; [exact Hs|].
  intros slot Hin. unfold htab_fill in Hin.
  apply in_app_or in Hin as [Hin | [<- | []]]; [now apply Hs|].
  simpl. now apply Z.gtb_lt in Hline.
Qed.

Lemma positive_read_inline_sample hdr depth sb j n :
  stable flat_lines_positive (read_inline_sample d hdr depth sb j n).
Proof. unfold read_inline_sample. keeps_auto. Qed.

Lemma positive_read_string_table :
  stable flat_lines_positive (read_string_table d).
Proof.
  unfold read_string_table. keeps_auto.
  intros s Hs. destruct (d_str_table d (file_pos s) _); exact Hs.
Qed.

Lemma positive_read_function_header i :
  stable flat_lines_positive (read_function_header d i).
Proof. unfold read_function_header. keeps_auto. Qed.

#[local] Hint Resolve positive_read_flat_sample positive_read_inline_sample
  positive_read_string_table positive_read_function_header : keeps.

Lemma positive_read_inline_group func_hdr k n :
  stable flat_lines_positive (read_inline_group d func_hdr k n).
Proof. unfold read_inline_group. keeps_auto. Qed.

Lemma positive_read_inline_function func_hdr n :
  stable flat_lines_positive (read_inline_function d func_hdr n).
Proof.
  unfold read_inline_function. keeps_auto. apply positive_read_inline_group.
Qed.

#[local] Hint Resolve positive_read_inline_function : keeps.

Lemma positive_read_function i n :
  stable flat_lines_positive (read_function d i n).
Proof. unfold read_function. keeps_auto. Qed.

End PositiveLines.

(** Whatever is read, the records of the flat table keep positive lines;
    they have them from the start, the table being empty then. *)
Lemma positive_run_step (step : reading_step) :
  stable flat_lines_positive (run_step step).
Proof.
  destruct step; simpl.
  - apply positive_read_flat_sample.
  - apply positive_read_inline_sample.
  - apply positive_read_inline_group.
  - apply positive_read_inline_function.
  - apply positive_read_function.
  - unfold sp_reader. destruct in_file as [d|].
    + keeps_auto; auto using positive_read_file_header,
        positive_read_string_table, positive_error, positive_read_function.
    + keeps_auto. apply positive_error.
Qed.

Lemma positive_initial_state : flat_lines_positive initial_state.
Proof. intros slot []. Qed.

(** ** Hashes and equality of keys *)

Section HashCoherence.

Variable iterative_hash : list Byte.byte -> Z -> Z.

Lemma hash_inline_stack_eq (sa sb : list expanded_location) :
  forall (todo i : nat) (h : Z),
    inline_stack_eq_from todo i sa sb = true ->
    hash_inline_stack iterative_hash todo i sa h
    = hash_inline_stack iterative_hash todo i sb h.
Proof.
  induction todo as [|todo IH]; intros i h Heq; [reflexivity|].
  rewrite inline_stack_eq_from_iff in Heq.
  destruct (Heq i ltac:(lia)) as [Hf Hl].
  cbn [hash_inline_stack]. cbv zeta. rewrite Hf, Hl. apply IH.
  apply inline_stack_eq_from_iff. intros k Hk. apply Heq. lia.
Qed.

End HashCoherence.

Lemma sp_info_eq_true (a b : sample_freq_detail) :
  sp_info_eq a b = true <->
  fd_line_num a = fd_line_num b
  /\ fd_filename a = fd_filename b
  /\ fd_func_name a = fd_func_name b.
Proof.
  unfold sp_info_eq. rewrite !andb_true_iff, !strcmp_eq_iff, Z.eqb_eq. tauto.
Qed.

Lemma sp_inline_info_eq_true (a b : sample_inline_freq) :
  sp_inline_info_eq a b = true <->
  line_num a = line_num b
  /\ depth a = depth b
  /\ inline_stack_eq_from (Z.to_nat (depth a)) 0
       (frames (inline_stack a)) (frames (inline_stack b)) = true
  /\ filename a = filename b
  /\ func_name a = func_name b.
Proof.
  unfold sp_inline_info_eq.
  destruct (Z.eqb_spec (line_num a) (line_num b)) as [El|El]; cbn [negb];
    [|split; [discriminate | tauto]].
  destruct (Z.eqb_spec (depth a) (depth b)) as [Ed|Ed]; cbn [negb];
    [|split; [discriminate | tauto]].
  destruct (inline_stack_eq_from _ _ _ _); cbn [negb].
  - rewrite andb_true_iff, !strcmp_eq_iff. tauto.
  - split; [discriminate|]. intros (_ & _ & H & _). discriminate.
Qed.

Lemma sp_inline_info_eq_refl (a : sample_inline_freq) :
  sp_inline_info_eq a a = true.
Proof.
  apply sp_inline_info_eq_true. repeat split; auto.
  apply inline_stack_eq_from_iff. auto.
Qed.

Lemma sp_inline_info_eq_sym (a b : sample_inline_freq) :
  sp_inline_info_eq a b = true -> sp_inline_info_eq b a = true.
Proof.
  intros H. apply sp_inline_info_eq_true in H as (Hl & Hd & Hs & Hf & Hn).
  apply sp_inline_info_eq_true. repeat split; auto.
  rewrite <- Hd. apply inline_stack_eq_from_iff. intros k Hk.
  rewrite inline_stack_eq_from_iff in Hs. destruct (Hs k Hk). auto.
Qed.

Lemma sp_inline_info_eq_trans (a b c : sample_inline_freq) :
  sp_inline_info_eq a b = true -> sp_inline_info_eq b c = true ->
  sp_inline_info_eq a c = true.
Proof.
  rewrite !sp_inline_info_eq_true.
  intros (Hl & Hd & Hs & Hf & Hn) (Hl' & Hd' & Hs' & Hf' & Hn').
  repeat split; try congruence.
  apply inline_stack_eq_from_iff. intros k Hk.
  rewrite inline_stack_eq_from_iff in Hs, Hs'.
  destruct (Hs k Hk) as [H1 H2].
  destruct (Hs' k ltac:(rewrite <- Hd; exact Hk)) as [H3 H4].
  split; congruence.
Qed.

(** A key equal to one that a table does not hold is not held either. *)
Lemma htab_find_inline_none (tab : htab sample_inline_freq)
  (a b : sample_inline_freq) :
  sp_inline_info_eq a b = true ->
  htab_find sp_inline_info_eq tab a = None ->
  htab_find sp_inline_info_eq tab b = None.
Proof.
  intros Heq Hnone. unfold htab_find in *.
  destruct (find (fun slot => sp_inline_info_eq (snd slot) b) tab) as [x|] eqn:E;
    [|reflexivity].
  apply find_some in E as [Hin Hx].
  pose proof (find_none _ _ Hnone x Hin) as Hne. cbv beta in Hne.
  rewrite (sp_inline_info_eq_trans _ _ _ Hx (sp_inline_info_eq_sym _ _ Heq))
    in Hne. discriminate.
Qed.

(** X1.  Two flat records that [sp_info_eq] accepts as equal have the same
    hash, whatever their frequencies and instruction counts: the value
    [sp_info_hash] returns for a stored record is the one
    [sp_annotate_bb] computes with [create_hash_string] for a key with the
    same file name, line and function name. *)
Theorem sp_info_eq_implies_equal_hash
  (iterative_hash : list Byte.byte -> Z -> Z) (a b : sample_freq_detail) :
  sp_info_eq a b = true ->
  create_hash_string iterative_hash (fd_filename a) (fd_line_num a)
    (fd_func_name a)
  = create_hash_string iterative_hash (fd_filename b) (fd_line_num b)
      (fd_func_name b).
Proof.
  intros H. apply sp_info_eq_true in H as (-> & -> & ->). reflexivity.
Qed.

(** X2.  Two inline records that [sp_inline_info_eq] accepts as equal have
    the same [sp_inline_info_hash]: the hash mixes in exactly the [depth]
    frames, the file name, the line and the function name that the
    equality compares, and neither the address of the stack nor anything
    beyond its first [depth] frames. *)
Theorem sp_inline_info_eq_implies_equal_hash
  (iterative_hash : list Byte.byte -> Z -> Z) (a b : sample_inline_freq) :
  sp_inline_info_eq a b = true ->
  sp_inline_info_hash iterative_hash a = sp_inline_info_hash iterative_hash b.
Proof.
  intros H. apply sp_inline_info_eq_true in H as (Hl & Hd & Hs & Hf & Hn).
  unfold sp_inline_info_hash. cbv zeta.
  rewrite (hash_inline_stack_eq iterative_hash _ _ _ _ _ Hs).
  now rewrite Hl, Hd, Hf, Hn.
Qed.

(** X3.  [sp_info_eq] holds exactly when line, file name and function name
    agree; it is an equivalence relation on flat records, blind to the
    frequency and to the instruction count. *)
Theorem sp_info_eq_is_key_equality (a b c : sample_freq_detail) :
  (sp_info_eq a b = true <->
     fd_line_num a = fd_line_num b
     /\ fd_filename a = fd_filename b
     /\ fd_func_name a = fd_func_name b)
  /\ sp_info_eq a a = true
  /\ sp_info_eq a b = sp_info_eq b a
  /\ (sp_info_eq a b = true -> sp_info_eq b c = true -> sp_info_eq a c = true)
  /\ (forall f n f' n',
        sp_info_eq
          (mk_sample_freq_detail (fd_filename a) (fd_func_name a)
             (fd_line_num a) f n)
          (mk_sample_freq_detail (fd_filename b) (fd_func_name b)
             (fd_line_num b) f' n')
        = sp_info_eq a b).
Proof.
  split; [apply sp_info_eq_true|]. split; [now apply sp_info_eq_true|].
  split; [|split].
  - destruct (sp_info_eq a b) eqn:E1, (sp_info_eq b a) eqn:E2; try reflexivity.
    + apply sp_info_eq_true in E1 as (H1 & H2 & H3).
      assert (sp_info_eq b a = true) by (apply sp_info_eq_true; auto).
      congruence.
    + apply sp_info_eq_true in E2 as (H1 & H2 & H3).
      assert (sp_info_eq a b = true) by (apply sp_info_eq_true; auto).
      congruence.
  - rewrite !sp_info_eq_true. intros (-> & -> & ->) (-> & -> & ->). auto.
  - reflexivity.
Qed.

(** X4.  [sp_inline_info_eq] is an equivalence relation on inline records:
    reflexive, symmetric and transitive, as the hash table needs of the
    equality it is given. *)
Theorem sp_inline_info_eq_is_equivalence (a b c : sample_inline_freq) :
  sp_inline_info_eq a a = true
  /\ sp_inline_info_eq a b = sp_inline_info_eq b a
  /\ (sp_inline_info_eq a b = true -> sp_inline_info_eq b c = true ->
      sp_inline_info_eq a c = true).
Proof.
  split; [apply sp_inline_info_eq_refl|]. split.
  - destruct (sp_inline_info_eq a b) eqn:E1, (sp_inline_info_eq b a) eqn:E2;
      try reflexivity.
    + apply sp_inline_info_eq_sym in E1. congruence.
    + apply sp_inline_info_eq_sym in E2. congruence.
  - apply sp_inline_info_eq_trans.
Qed.

(** ** The inline stack of a statement, frame by frame *)

Lemma recorded_locations_collapse (block : tree) (last_loc : Z) :
  recorded_locations block last_loc
  = collapse last_loc
      (filter (fun loc => negb (loc =? 0)) (scope_locations block)).
Proof.
  revert last_loc. induction block as [|loc super IH|]; intros last_loc;
    [reflexivity| |reflexivity].
  cbn [recorded_locations scope_locations filter].
  destruct (loc =? 0); cbn [orb negb]; [apply IH|].
  cbn [collapse]. destruct (loc =? last_loc); [apply IH|].
  now rewrite IH.
Qed.

Lemma inline_depth_of_call_sites (stmt : gimple) :
  inline_depth_of stmt = List.length (call_sites stmt).
Proof.
  unfold inline_depth_of, call_sites.
  destruct (gimple_block stmt); try reflexivity.
  now rewrite recorded_locations_collapse.
Qed.

Section ScopeChain.

Variable expand_location : Z -> expanded_location.

(** The walk, when it stays inside [stack]: the frames below [i] are left
    alone, those from [i] on are the recorded locations in the order of the
    walk, the rest of the array is as before. *)
Lemma inline_stack_walk_frames :
  forall (block : tree) (i : nat) (last_loc : Z) (stack : list expanded_location),
    (i + List.length (recorded_locations block last_loc)
     <= List.length stack)%nat ->
    inline_stack_walk expand_location block i last_loc stack
    = Some (Z.of_nat (i + List.length (recorded_locations block last_loc)),
            firstn i stack
            ++ map expand_location (recorded_locations block last_loc)
            ++ skipn (i + List.length (recorded_locations block last_loc)) stack).
Proof.
  induction block as [|loc super IH|]; intros i last_loc stack Hfit;
    cbn [inline_stack_walk recorded_locations] in *.
  - cbn [List.length map app]. rewrite Nat.add_0_r, firstn_skipn. reflexivity.
  - destruct ((loc =? 0) || (loc =? last_loc)); [now apply IH|].
    cbn [List.length map] in *.
    rewrite array_store_in_bounds by lia.
    set (stack' := firstn i stack ++ expand_location loc :: skipn (S i) stack).
    assert (Hlen : List.length stack' = List.length stack).
    { apply (array_store_length stack _ i (expand_location loc)).
      apply array_store_in_bounds. lia. }
    assert (Hi : List.length (firstn i stack) = i)
      by (rewrite length_firstn; lia).
    rewrite IH by (rewrite Hlen; lia).
    f_equal. apply f_equal2; [lia|].
    subst stack'. rewrite firstn_app, skipn_app, Hi.
    rewrite (firstn_all2 (firstn i stack)) by lia.
    rewrite (skipn_all2 (firstn i stack)) by lia.
    replace (S i - i)%nat with 1%nat by lia.
    replace (S i + List.length (recorded_locations super loc) - i)%nat
      with (S (List.length (recorded_locations super loc))) by lia.
    cbn [firstn app]. rewrite skipn_cons, skipn_skipn, <- app_assoc.
    cbn [app].
    now replace (List.length (recorded_locations super loc) + S i)%nat
      with (i + S (List.length (recorded_locations super loc)))%nat by lia.
  - cbn [List.length map app]. rewrite Nat.add_0_r, firstn_skipn. reflexivity.
Qed.

End ScopeChain.

(** [sp_get_inline_stack], frame by frame. *)
Lemma sp_get_inline_stack_frames (expand_location : Z -> expanded_location)
  (stmt : gimple) (stack : list expanded_location) :
  sp_get_inline_stack expand_location stmt stack
  = if (List.length (call_sites stmt) <=? List.length stack)%nat
    then Some (Z.of_nat (List.length (call_sites stmt)),
               map expand_location (call_sites stmt)
               ++ skipn (List.length (call_sites stmt)) stack)
    else None.
Proof.
  destruct (Nat.leb_spec (List.length (call_sites stmt)) (List.length stack))
    as [Hfit | Hover].
  - unfold sp_get_inline_stack, call_sites in *.
    destruct (gimple_block stmt) as [|loc super|]; try reflexivity.
    rewrite <- recorded_locations_collapse in *.
    now rewrite inline_stack_walk_frames by exact Hfit.
  - pose proof (sp_get_inline_stack_depth expand_location stmt stack) as H.
    rewrite inline_depth_of_call_sites in H.
    destruct (Nat.leb_spec (List.length (call_sites stmt)) (List.length stack));
      [lia | exact H].
Qed.

(** X5.  [sp_get_inline_stack] fills [stack] from its first frame on with
    the expanded locations of the call sites of the statement, innermost
    first: the locations of the scopes above the statement's own scope,
    those without location left out and repeated locations recorded once,
    also when scopes without location lie between the repeats.  It returns
    their number and leaves the rest of [stack] as it was; when there are
    more call sites than [stack] has frames, a frame is stored outside it.
    The location of the statement's own scope is never recorded. *)
Theorem inline_stack_holds_the_call_sites
  (expand_location : Z -> expanded_location) (stmt : gimple)
  (stack : list expanded_location) :
  sp_get_inline_stack expand_location stmt stack
  = if (List.length (call_sites stmt) <=? List.length stack)%nat
    then Some (Z.of_nat (List.length (call_sites stmt)),
               map expand_location (call_sites stmt)
               ++ skipn (List.length (call_sites stmt)) stack)
    else None.
Proof. apply sp_get_inline_stack_frames. Qed.

(** ** The total count of an inlined call *)

Lemma skipn_repeat {A} (x : A) (n m : nat) :
  skipn n (repeat x m) = repeat x (m - n).
Proof.
  revert m. induction n as [|n IH]; intros m.
  - now rewrite Nat.sub_0_r.
  - destruct m as [|m]; [reflexivity|]. cbn [repeat skipn]. apply IH.
Qed.

Section TotalCountSpec.

Variable expand_location : Z -> expanded_location.
Variable gimple_location : gimple -> Z.

(** The walk of [get_total_count] over the scopes above the statement's
    own, the statement's location being in frame 0. *)
Lemma total_count_walk (stmt : gimple) (loc : Z) (super : tree) :
  gimple_block stmt = BLOCK loc super ->
  inline_stack_walk expand_location super 1 0
    (expand_location (gimple_location stmt) :: repeat zero_location 199)
  = if (200 <=? List.length (call_sites stmt))%nat then None
    else Some (Z.of_nat (S (List.length (call_sites stmt))),
               expand_location (gimple_location stmt)
               :: map expand_location (call_sites stmt)
               ++ repeat zero_location (199 - List.length (call_sites stmt))).
Proof.
  intros Hblock. unfold call_sites. rewrite Hblock.
  rewrite <- recorded_locations_collapse.
  set (stack := expand_location (gimple_location stmt)
                :: repeat zero_location 199).
  assert (Hlen : List.length stack = 200%nat)
    by (subst stack; cbn [List.length]; now rewrite repeat_length).
  destruct (Nat.leb_spec 200 (List.length (recorded_locations super 0)))
    as [Hover | Hfit].
  - pose proof (inline_stack_walk_depth expand_location super 1 0 stack) as H.
    cbv zeta in H. rewrite Hlen in H. specialize (H ltac:(lia)).
    destruct (Nat.leb_spec (1 + List.length (recorded_locations super 0)) 200);
      [lia | exact H].
  - rewrite inline_stack_walk_frames by (rewrite Hlen; lia).
    subst stack. cbn [firstn app Nat.add]. rewrite skipn_cons, skipn_repeat.
    reflexivity.
Qed.

(** [get_total_count] on a statement: the lookup it makes, or the store
    outside [stack]. *)
Lemma get_total_count_some (stmt : gimple) (func_name : string) (s : sp_state) :
  get_total_count expand_location gimple_location (Some stmt) func_name s
  = match gimple_block stmt with
    | BLOCK _ _ =>
        if (200 <=? List.length (call_sites stmt))%nat then Undefined s
        else
          match htab_find sp_inline_info_eq (sp_inline_htab s)
                  (total_count_key expand_location gimple_location stmt
                     func_name) with
          | Some (_, e) => Return (wrap_u64 (freq e)) s
          | None => Return 0 s
          end
    | _ => Return 0 s
    end.
Proof.
  unfold get_total_count.
  destruct (gimple_block stmt) as [|loc super|] eqn:Hblock; try reflexivity.
  assert (Hst : array_store (repeat zero_location (Z.to_nat FB_INLINE_MAX_STACK))
                  0 (expand_location (gimple_location stmt))
                = Some (expand_location (gimple_location stmt)
                        :: repeat zero_location 199)) by reflexivity.
  rewrite Hst.
  rewrite (total_count_walk stmt loc super Hblock).
  destruct (200 <=? List.length (call_sites stmt))%nat; [reflexivity|].
  unfold bind, get, total_count_key.
  destruct (htab_find _ _ _) as [[p e]|]; reflexivity.
Qed.

End TotalCountSpec.

(** X6.  [get_total_count] returns 0 for a null statement and for a
    statement that lies in no scope.  Otherwise it looks the inline table up
    under line 0 and the stack made of the statement's own location
    followed by its call sites, and returns the frequency of the record
    found, as an unsigned 64-bit number, or 0 when there is none; nothing
    bounds the walk, so that with 200 call sites or more a frame is stored
    outside the 200-frame array, one call site earlier than in
    [sp_get_inline_stack], and no assertion is ever made. *)
Theorem get_total_count_looks_up_the_call_site
  (expand_location : Z -> expanded_location) (gimple_location : gimple -> Z)
  (stmt : gimple) (func_name : string) (s : sp_state) :
  get_total_count expand_location gimple_location None func_name s = Return 0 s
  /\ get_total_count expand_location gimple_location (Some stmt) func_name s
     = match gimple_block stmt with
       | BLOCK _ _ =>
           if (200 <=? List.length (call_sites stmt))%nat then Undefined s
           else
             match htab_find sp_inline_info_eq (sp_inline_htab s)
                     (total_count_key expand_location gimple_location stmt
                        func_name) with
             | Some (_, e) => Return (wrap_u64 (freq e)) s
             | None => Return 0 s
             end
       | _ => Return 0 s
       end.
Proof.
  split; [reflexivity | apply get_total_count_some].
Qed.

(** The loop over the per-line records of a group only appends to the
    inline table. *)
Lemma read_inline_samples_append (d : disk) (hdr : func_sample_hdr) (depth : Z)
  (sb : stack_ptr) (n : nat) (j acc : Z) (s : sp_state) (v : Z) (s' : sp_state) :
  for_upto n j (read_inline_sample d hdr depth sb) acc s = Val v s' ->
  exists l, sp_inline_htab s' = sp_inline_htab s ++ l.
Proof.
  intros Hrun.
  pose proof (stable_final (grows_from s) _ s
                (keeps_for_upto (always (grows_from s)) (grows_from s)
                   (read_inline_sample d hdr depth sb)
                   (fun i a => grows_read_inline_sample s d hdr depth sb i a)
                   n j acc)
                (grows_from_refl s)) as H.
  rewrite Hrun in H. exact (proj2 H).
Qed.

(** An inline group with per-line records that is read to its end: the
    call-site total, which the last slot of the group's buffer holds, was
    entered in the inline table before the per-line records, unless the
    table had a record with an equal key. *)
Lemma read_inline_group_inserts_total (d : disk) (func_hdr : func_sample_hdr)
  (k curr_num_samples : Z) (s : sp_state) (inline_func_hdr : func_sample_hdr)
  (v : Z) (s' : sp_state) :
  d_seek d (inline_hdr_offset (fb_hdr s) func_hdr k) = true ->
  d_func_hdr d (inline_hdr_offset (fb_hdr s) func_hdr k)
    (fb_func_hdr_ent_size (fb_hdr s)) = Some inline_func_hdr ->
  0 < func_num_freq_entries inline_func_hdr < 2 ^ 64 - 1 ->
  read_inline_group d func_hdr k curr_num_samples s = Val v s' ->
  let num_lines := Z.to_nat (func_num_freq_entries inline_func_hdr) in
  let total := nth num_lines (snd (inline_sample_buf s')) zero_sample_inline_freq in
  exists l,
    sp_inline_htab s'
    = match htab_find sp_inline_info_eq (sp_inline_htab s) total with
      | Some _ => sp_inline_htab s
      | None =>
          htab_fill (sp_inline_htab s)
            (Heap (S (heap_blocks s)) num_lines) total
      end ++ l.
Proof.
  intros Hseek Hhdr Hlines Hrun num_lines total.
  match goal with |- ?G => set (Concl := G) end. revert Hrun.
  unfold read_inline_group. unfold_reader.
  rewrite Hseek. cbn [negb]. simpl_state. rewrite (d_func_hdr_fits _ _ _ _ Hhdr), Hhdr. simpl_state.
  destruct (Z.eqb_spec (func_num_freq_entries inline_func_hdr) 0) as [|_]; [lia|].
  repeat (simpl_state; cbn [negb];
          match goal with
          | |- context [match ?x with _ => _ end] =>
              lazymatch x with
              | context [match _ with _ => _ end] => fail
              | for_upto _ _ _ _ _ => fail
              | _ => destruct x eqn:?; try (intros; discriminate)
              end
          end).
  all: intros Hrun.
  all: assert (Hwrap : Z.to_nat (wrap_u64 (func_num_freq_entries inline_func_hdr + 1))
                = S (Z.to_nat (func_num_freq_entries inline_func_hdr)))
         by (unfold wrap_u64; rewrite Z.mod_small by lia; lia).
  all: pose proof (read_inline_samples_append _ _ _ _ _ _ _ _ _ _ Hrun) as [tail Hl].
  all: match goal with
       | H : array_store _ _ ?tot = Some ?arr |- _ =>
           rewrite Hwrap in H;
           eapply (group_buffer_after_loop _ _ _ _ _ tot arr) in Hrun;
           [ destruct Hrun as (_ & _ & _ & Hlast)
           | lia | exact H | reflexivity | reflexivity | reflexivity ]
       end.
  all: subst Concl total num_lines; rewrite Hlast; exists tail; revert Hl;
    simpl_state.
  all: match goal with
       | H : htab_find _ _ _ = _ |- _ => rewrite H
       end.
  all: intros ->; reflexivity.
Qed.

(** X7.  Reading an inline group and asking for the total of the inlined
    call agree: when a group with per-line records is read to its end, and
    a statement lies at the location and under the call sites that the
    group's stack holds on disk (entry [q] of the file being frame
    [depth - 1 - q] of the statement's stack), in the file and the function
    the group's header names, then [get_total_count] returns for it the
    total of the header, provided that no record with this key was in the
    table before. *)
Theorem group_total_is_found_by_get_total_count
  (expand_location : Z -> expanded_location) (gimple_location : gimple -> Z)
  (d : disk) (func_hdr : func_sample_hdr) (k curr_num_samples : Z)
  (s : sp_state) (inline_func_hdr : func_sample_hdr) (v : Z) (s' : sp_state)
  (stmt : gimple) (loc : Z) (super : tree) :
  let fn := str_table s (func_name_index inline_func_hdr) in
  let stack :=
    expand_location (gimple_location stmt)
    :: map expand_location (call_sites stmt) in
  d_seek d (inline_hdr_offset (fb_hdr s) func_hdr k) = true ->
  d_func_hdr d (inline_hdr_offset (fb_hdr s) func_hdr k)
    (fb_func_hdr_ent_size (fb_hdr s)) = Some inline_func_hdr ->
  0 < func_num_freq_entries inline_func_hdr < 2 ^ 64 - 1 ->
  read_inline_group d func_hdr k curr_num_samples s = Val v s' ->
  gimple_block stmt = BLOCK loc super ->
  gimple_filename stmt = str_table s (filename_offset inline_func_hdr) ->
  inline_depth inline_func_hdr = Z.of_nat (List.length stack) ->
  (forall q, 0 <= q < inline_depth inline_func_hdr ->
     exists e,
       d_stack_entry d
         (wrap_u64 (fb_profile_offset (fb_hdr s)
                    + inline_stack_offset inline_func_hdr)
          + q * sizeof_fb_info_inline_stack_entry) = Some e
       /\ nth (Z.to_nat (inline_depth inline_func_hdr - 1 - q)) stack
            zero_location
          = frame_of_entry (str_table s) e) ->
  htab_find sp_inline_info_eq (sp_inline_htab s)
    (total_count_key expand_location gimple_location stmt fn) = None ->
  get_total_count expand_location gimple_location (Some stmt) fn s'
  = Return (wrap_u64 (total_samples inline_func_hdr)) s'.
Proof.
  intros fn stack Hseek Hhdr Hlines Hrun Hblock Hfile Hdepth Hstack Habsent.
  destruct (read_inline_group_completes _ _ _ _ _ _ _ _ Hseek Hhdr Hlines Hrun)
    as (entries & frs & Hrange & _ & _ & _ & Hrec & _ & Hlast).
  destruct (read_inline_group_inserts_total _ _ _ _ _ _ _ _ Hseek Hhdr Hlines Hrun)
    as [tail Htab].
  pose proof (group_records_hold_reversed_stack _ _ _ _ _ _ _ _ Hseek Hhdr
                Hlines Hrun (Z.to_nat (func_num_freq_entries inline_func_hdr)))
    as Hdisk.
  rewrite Hlast in Htab, Hdisk. cbn [callsite_total inline_stack frames] in Hdisk.
  set (total := callsite_total (str_table s) inline_func_hdr
                  (inline_depth inline_func_hdr)
                  (mk_stack_ptr (Heap (heap_blocks s) 0) frs)) in *.
  set (key := total_count_key expand_location gimple_location stmt fn) in *.
  assert (Hlen : List.length stack = S (List.length (call_sites stmt)))
    by (subst stack; cbn [List.length]; now rewrite length_map).
  assert (Heq : sp_inline_info_eq total key = true).
  { apply sp_inline_info_eq_true. subst total key.
    cbn [callsite_total total_count_key line_num depth inline_stack frames
         filename func_name].
    split; [reflexivity|]. split; [congruence|]. split; [|auto].
    apply inline_stack_eq_from_iff. intros i Hi.
    set (q := inline_depth inline_func_hdr - 1 - Z.of_nat i).
    destruct (Hdisk q ltac:(lia) ltac:(subst q; lia)) as (e & He & Hfr).
    destruct (Hstack q ltac:(subst q; lia)) as (e' & He' & Hfr').
    rewrite He in He'. injection He' as <-.
    replace (Z.to_nat (inline_depth inline_func_hdr - 1 - q)) with i
      in Hfr, Hfr' by (subst q; lia).
    change (expand_location (gimple_location stmt)
            :: map expand_location (call_sites stmt)
            ++ repeat zero_location (199 - List.length (call_sites stmt)))
      with (stack ++ repeat zero_location (199 - List.length (call_sites stmt))).
    rewrite app_nth1 by lia. rewrite Hfr, Hfr'. auto. }
  assert (Hnone : htab_find sp_inline_info_eq (sp_inline_htab s) total = None)
    by exact (htab_find_inline_none _ _ _ (sp_inline_info_eq_sym _ _ Heq) Habsent).
  rewrite Hnone in Htab.
  rewrite get_total_count_some, Hblock.
  unfold FB_INLINE_MAX_STACK in Hrange.
  destruct (Nat.leb_spec 200 (List.length (call_sites stmt))); [lia|].
  fold key. rewrite Htab.
  rewrite (htab_find_app _ _ tail key
             (Heap (S (heap_blocks s))
                (Z.to_nat (func_num_freq_entries inline_func_hdr)), total)).
  - reflexivity.
  - rewrite htab_find_fill_absent by exact Habsent. now rewrite Heq.
Qed.

(** ** The count of samples *)

Lemma count_samples_snoc (log : list io_event) (e : io_event) :
  Z.of_nat (List.length (filter is_sample (log ++ [e])))
  = Z.of_nat (List.length (filter is_sample log))
    + (if is_sample e then 1 else 0).
Proof.
  rewrite filter_app, length_app. cbn [filter].
  destruct (is_sample e); cbn [List.length]; lia.
Qed.

Lemma count_duplicates_snoc (l : list diagnostic) (m : diagnostic) :
  Z.of_nat (List.length (filter is_duplicate_report (l ++ [m])))
  = Z.of_nat (List.length (filter is_duplicate_report l))
    + (if is_duplicate_report m then 1 else 0).
Proof.
  rewrite filter_app, length_app. cbn [filter].
  destruct (is_duplicate_report m); cbn [List.length]; lia.
Qed.

Lemma wrap_u64_succ (a b : Z) :
  a = wrap_u64 b -> wrap_u64 (a + 1) = wrap_u64 (b + 1).
Proof. intros ->. unfold wrap_u64. now rewrite Zplus_mod_idemp_l. Qed.

Lemma failed_outside_snoc (s : sp_state) (site : io_site) :
  inline_site site = false ->
  exists e, In e (io_log s ++ [(site, Failed)])
            /\ io_failed e = true /\ inline_site (fst e) = false.
Proof.
  intros H. exists (site, Failed). split; [|split; [reflexivity | exact H]].
  apply in_or_app. right. now left.
Qed.

(** Runs a computation of the reader on a state, one branch at a time, up
    to its loops. *)
Ltac exec_step :=
  simpl_state; cbn [negb on_return on_abort on_undefined];
  match goal with
  | |- context [match ?x with _ => _ end] =>
      lazymatch x with
      | context [match _ with _ => _ end] => fail
      | for_upto _ _ _ _ _ => fail
      | read_inline_function _ _ _ _ => fail
      | _ => destruct x eqn:?
      end
  end.

Ltac exec := unfold_reader; repeat exec_step;
             simpl_state; cbn [negb on_return on_abort on_undefined].

(** Closes the goals on the running count that a run leaves. *)
Ltac tally_solve :=
  unfold tally_exits, reader_tally_exits, tally, records_entered,
    records_read, duplicates_reported in *;
  cbn [on_return on_abort on_undefined]; simpl_state;
  rewrite ?count_samples_snoc, ?count_duplicates_snoc;
  cbn [is_sample snd is_duplicate_report String.eqb Ascii.eqb Bool.eqb orb];
  first
    [ exact I
    | assumption
    | right; split; [reflexivity|]; apply failed_outside_snoc; reflexivity
    | left; match goal with
      | H : ?a = wrap_u64 ?b |- ?a = wrap_u64 _ =>
          etransitivity; [exact H|]; f_equal; lia
      end
    | match goal with
      | H : ?a = wrap_u64 ?b |- wrap_u64 (?a + 1) = _ =>
          rewrite (wrap_u64_succ a b H); f_equal; lia
      | H : ?a = wrap_u64 ?b |- ?a = wrap_u64 _ =>
          etransitivity; [exact H|]; f_equal; lia
      end
    | idtac ].

Section Tally.

Variable base : Z.
Variable d : disk.

Lemma tally_read_inline_sample hdr depth sb j n :
  triple (tally_exits base) (tally base n)
    (read_inline_sample d hdr depth sb j n) (tally base).
Proof.
  intros s Hs. unfold read_inline_sample. exec; tally_solve.
Qed.

Lemma tally_inline_samples hdr depth sb n j acc :
  triple (tally_exits base) (tally base acc)
    (for_upto n j (read_inline_sample d hdr depth sb) acc) (tally base).
Proof.
  apply (triple_for_upto (tally_exits base) (fun _ a => tally base a)
           (read_inline_sample d hdr depth sb) j (j + Z.of_nat n));
    [|lia|lia].
  intros i a _. apply tally_read_inline_sample.
Qed.

Lemma tally_read_inline_group func_hdr k n :
  triple (tally_exits base) (tally base n) (read_inline_group d func_hdr k n)
    (tally base).
Proof.
  intros s Hs. unfold read_inline_group. exec.
  all: try (apply tally_inline_samples).
  all: tally_solve.
Qed.

Lemma tally_read_inline_function func_hdr n :
  triple (tally_exits base) (tally base n) (read_inline_function d func_hdr n)
    (tally base).
Proof.
  unfold read_inline_function. eapply triple_bind.
  - apply (triple_for_upto (tally_exits base) (fun _ a => tally base a)
             (read_inline_group d func_hdr) 0
             (0 + Z.of_nat (Z.to_nat (func_num_inline_entries func_hdr))));
      [|lia|lia].
    intros i a _. apply tally_read_inline_group.
  - intros a. apply triple_return. auto.
Qed.

Lemma tally_read_flat_sample func_hdr j n :
  triple (reader_tally_exits base) (tally base n)
    (read_flat_sample d func_hdr j n) (tally base).
Proof.
  intros s Hs. unfold read_flat_sample. exec; tally_solve.
Qed.

Lemma tally_flat_samples func_hdr n j acc :
  triple (reader_tally_exits base) (tally base acc)
    (for_upto n j (read_flat_sample d func_hdr) acc) (tally base).
Proof.
  apply (triple_for_upto (reader_tally_exits base) (fun _ a => tally base a)
           (read_flat_sample d func_hdr) j (j + Z.of_nat n));
    [|lia|lia].
  intros i a _. apply tally_read_flat_sample.
Qed.

Lemma tally_read_function i n :
  triple (reader_tally_exits base) (tally base n) (read_function d i n)
    (tally base).
Proof.
  intros s Hs. unfold read_function, read_function_header. exec.
  all: try match goal with
           | |- context [for_upto ?k ?j (read_flat_sample d ?h) ?acc ?st] =>
               let H := fresh "Hloop" in
               assert (H : tally base acc st) by tally_solve;
               apply (tally_flat_samples h k j acc st) in H;
               destruct (for_upto k j (read_flat_sample d h) acc st) eqn:?
           end.
  all: exec.
  all: try match goal with
           | H : tally base ?a ?st
             |- context [read_inline_function d ?h ?a ?st] =>
               apply (tally_read_inline_function h a st) in H;
               destruct (read_inline_function d h a st) eqn:?
           end.
  all: tally_solve.
Qed.

Lemma tally_functions n j acc :
  triple (reader_tally_exits base) (tally base acc)
    (for_upto n j (read_function d) acc) (tally base).
Proof.
  apply (triple_for_upto (reader_tally_exits base) (fun _ a => tally base a)
           (read_function d) j (j + Z.of_nat n));
    [|lia|lia].
  intros i a _. apply tally_read_function.
Qed.

End Tally.

Lemma tally_sp_reader (base : Z) (in_file : option disk) :
  triple (reader_tally_exits base) (tally base 0) (sp_reader in_file)
    (fun _ _ => False).
Proof.
  intros s Hs. unfold sp_reader. destruct in_file as [d|].
  - unfold read_string_table. exec.
    all: try match goal with
             | |- context [for_upto ?k ?j (read_function ?f) ?acc ?st] =>
                 let H := fresh "Hloop" in
                 assert (H : tally base acc st) by tally_solve;
                 apply (tally_functions base f k j acc st) in H;
                 destruct (for_upto k j (read_function f) acc st) eqn:?
             end.
    all: tally_solve.
  - exec. tally_solve.
Qed.

Lemma tally_start (s : sp_state) (n : Z) :
  0 <= n < 2 ^ 64 -> tally (n - records_entered s) n s.
Proof.
  intros Hn. unfold tally, wrap_u64.
  replace (n - records_entered s + records_entered s) with n by lia.
  now rewrite Z.mod_small.
Qed.

(** ** The size of the buffer of a group *)

(** X11.  An inline group whose header declares 2^64 - 1 per-line records
    makes the reader store outside the buffer of the group: the number of
    records plus one, for the call-site total, wraps around to 0 elements in
    the allocation, and the total is then stored at index 2^64 - 1.  No seek
    or read has failed and no assertion is made on the number of records. *)
Theorem group_with_too_many_lines_overflows_its_buffer (d : disk)
  (func_hdr : func_sample_hdr) (k curr_num_samples : Z) (s : sp_state)
  (inline_func_hdr : func_sample_hdr)
  (stack_entry : list fb_info_inline_stack_entry) :
  let stack_offset :=
    wrap_u64 (fb_profile_offset (fb_hdr s)
              + inline_stack_offset inline_func_hdr) in
  d_seek d (inline_hdr_offset (fb_hdr s) func_hdr k) = true ->
  d_func_hdr d (inline_hdr_offset (fb_hdr s) func_hdr k)
    (fb_func_hdr_ent_size (fb_hdr s)) = Some inline_func_hdr ->
  func_num_freq_entries inline_func_hdr = 2 ^ 64 - 1 ->
  0 < inline_depth inline_func_hdr < FB_INLINE_MAX_STACK ->
  d_seek d stack_offset = true ->
  stack_entries_at d stack_offset (Z.to_nat (inline_depth inline_func_hdr))
  = Some stack_entry ->
  d_seek d (wrap_u64 (fb_profile_offset (fb_hdr s)
                      + func_profile_offset inline_func_hdr)) = true ->
  exists s',
    read_inline_group d func_hdr k curr_num_samples s = Undefined s'
    /\ snd (inline_sample_buf s') = []
    /\ sp_inline_htab s' = sp_inline_htab s
    /\ forall e, In e (io_log s') -> In e (io_log s) \/ io_failed e = false.
Proof.
  intros stack_offset Hseek Hhdr Hlines Hdepth Hseek2 Hentries Hseek3.
  destruct (set_up_stack_buf_loop (inline_depth inline_func_hdr) (str_table s)
              stack_entry (Z.to_nat (inline_depth inline_func_hdr)) 0
              (repeat zero_location (Z.to_nat (inline_depth inline_func_hdr))))
    as (frs & Hsetup & _); try lia.
  { rewrite repeat_length. lia. }
  unfold read_inline_group. unfold_reader.
  rewrite Hseek. cbn [negb]. simpl_state. rewrite (d_func_hdr_fits _ _ _ _ Hhdr), Hhdr. simpl_state.
  rewrite Hlines. change (2 ^ 64 - 1 =? 0) with false. cbv iota.
  fold stack_offset. rewrite Hseek2. cbn [negb]. simpl_state.
  destruct Hdepth as [Hpos Hmax].
  apply Z.ltb_lt in Hmax. apply Z.gtb_lt in Hpos. rewrite Hmax, Hpos.
  simpl_state. rewrite Hentries. simpl_state. rewrite Hsetup.
  rewrite Hseek3. cbn [negb]. simpl_state.
  change (wrap_u64 (2 ^ 64 - 1 + 1)) with 0.
  change (repeat zero_sample_inline_freq (Z.to_nat 0)) with (@nil sample_inline_freq).
  rewrite array_store_out_of_bounds by (cbn [List.length]; lia).
  eexists. split; [reflexivity|]. simpl_state.
  split; [reflexivity|]. split; [reflexivity|].
  intros e Hin. repeat (apply in_app_or in Hin as [Hin | [<- | []]]; [|now right]).
  now left.
Qed.

(** ** The tables of a state reached by reading *)

Lemma find_app_none {A} (f : A -> bool) (l1 l2 : list A) :
  find f l1 = None -> find f (l1 ++ l2) = find f l2.
Proof.
  induction l1 as [|x l1 IH]; [reflexivity|]. simpl.
  destruct (f x); [discriminate | exact IH].
Qed.

Lemma keys_entered_once_nil {A} (eq_f : A -> A -> bool) :
  keys_entered_once eq_f [].
Proof. intros [|y l1] x l2 H; discriminate. Qed.

Lemma keys_entered_once_fill {A} (eq_f : A -> A -> bool) (tab : htab A)
  (p : address) (elt : A) :
  keys_entered_once eq_f tab ->
  htab_find eq_f tab elt = None ->
  keys_entered_once eq_f (htab_fill tab p elt).
Proof.
  intros Hall Hnone l1 x l2 Heq. unfold htab_fill in Heq.
  destruct l2 as [|y l2 _] using rev_ind.
  - apply app_inj_tail in Heq as [-> <-]. exact Hnone.
  - change (l1 ++ x :: l2 ++ [y]) with (l1 ++ (x :: l2) ++ [y]) in Heq.
    rewrite app_assoc in Heq. apply app_inj_tail in Heq as [-> _].
    now apply (Hall l1 x l2).
Qed.

(** A key equal to the one of a slot finds that slot. *)
Lemma htab_find_equal_key {A} (eq_f : A -> A -> bool) (tab : htab A)
  (slot : address * A) (key : A) :
  (forall a b, eq_f a b = true -> eq_f b a = true) ->
  (forall a b c, eq_f a b = true -> eq_f b c = true -> eq_f a c = true) ->
  keys_entered_once eq_f tab ->
  In slot tab ->
  eq_f (snd slot) key = true ->
  htab_find eq_f tab key = Some slot.
Proof.
  intros Hsym Htrans Hall Hin Heq.
  apply in_split in Hin as (l1 & l2 & ->).
  pose proof (Hall l1 slot l2 eq_refl) as Hnone.
  unfold htab_find in *. rewrite find_app_none.
  - cbn [find]. now rewrite Heq.
  - destruct (find (fun x => eq_f (snd x) key) l1) as [y|] eqn:E;
      [|reflexivity].
    apply find_some in E as [Hy Hyk].
    pose proof (find_none _ _ Hnone y Hy) as Hne. cbv beta in Hne.
    rewrite (Htrans _ _ _ Hyk (Hsym _ _ Heq)) in Hne. discriminate.
Qed.

Lemma htab_delete_fill {A} (del_f : A -> option address) (tab : htab A)
  (p : address) (elt : A) :
  htab_delete del_f (htab_fill tab p elt)
  = htab_delete del_f tab
    ++ match del_f elt with Some a => [a] | None => [] end.
Proof.
  unfold htab_delete, htab_fill. rewrite flat_map_app. cbn [flat_map snd].
  now rewrite app_nil_r.
Qed.

Lemma tables_ok_on_heap flat inl (heap heap' : nat) :
  (heap <= heap')%nat -> tables_ok_on flat inl heap ->
  tables_ok_on flat inl heap'.
Proof.
  intros Hle (H1 & H2 & H3 & H4 & H5).
  split; [exact H1|]. split; [exact H2|]. split; [exact H3|].
  split; [exact H4|]. intros a Ha. destruct (H5 a Ha) as (b & -> & Hb).
  exists b. split; [reflexivity | lia].
Qed.

Lemma tables_ok_on_fill_flat flat inl heap (p : address)
  (elt : sample_freq_detail) :
  tables_ok_on flat inl heap ->
  htab_find sp_info_eq flat elt = None ->
  tables_ok_on (htab_fill flat p elt) inl heap.
Proof.
  intros (H1 & H2) Hnone. split; [|exact H2].
  now apply keys_entered_once_fill.
Qed.

Lemma tables_ok_on_fill_inline flat inl heap (p : address)
  (elt : sample_inline_freq) :
  tables_ok_on flat inl heap ->
  htab_find sp_inline_info_eq inl elt = None ->
  well_formed_record elt ->
  (is_first elt = true -> fresh_stack (stack_addr (inline_stack elt)) inl heap) ->
  tables_ok_on flat (htab_fill inl p elt) heap.
Proof.
  intros (H1 & H2 & H3 & H4 & H5) Hnone Hwf Hfresh.
  split; [exact H1|]. split; [now apply keys_entered_once_fill|].
  split; [|rewrite htab_delete_fill; unfold sp_inline_info_del at 2 4;
           destruct (is_first elt)].
  - intros slot Hin. unfold htab_fill in Hin.
    apply in_app_or in Hin as [Hin | [<- | []]]; [now apply H3 | exact Hwf].
  - destruct (Hfresh eq_refl) as (b & Hb & Hlt & Hnew). split.
    + apply NoDup_app; [exact H4 | repeat constructor; intros [] | ].
      intros a Ha [<- | []]. contradiction.
    + intros a Ha. apply in_app_or in Ha as [Ha | [<- | []]]; [now apply H5|].
      now exists b.
  - rewrite app_nil_r. split; assumption.
Qed.

Lemma set_up_stack_buf_length (inline_depth : Z) (strs : Z -> string)
  (stack_entry : list fb_info_inline_stack_entry) :
  forall (todo : nat) (i : Z) (buf buf' : list expanded_location),
    set_up_stack_buf todo i inline_depth strs stack_entry buf = Some buf' ->
    List.length buf' = List.length buf.
Proof.
  induction todo as [|todo IH]; intros i buf buf' H; simpl in H.
  - now injection H as <-.
  - destruct (array_store buf _ _) as [buf1|] eqn:E; [|discriminate].
    rewrite (IH _ _ _ H). now apply array_store_length in E.
Qed.

(** The block that [xcalloc] hands out next is owned by no record. *)
Lemma fresh_stack_new flat inl (heap heap' : nat) :
  tables_ok_on flat inl heap -> (heap < heap')%nat ->
  fresh_stack (Heap heap 0) inl heap'.
Proof.
  intros (_ & _ & _ & _ & H) Hlt. exists heap.
  split; [reflexivity|]. split; [exact Hlt|].
  intros Hin. destruct (H _ Hin) as (b & [= <-] & Hb). lia.
Qed.

Lemma fresh_stack_fill (a : address) inl (heap : nat) (p : address)
  (elt : sample_inline_freq) :
  fresh_stack a inl heap -> is_first elt = false ->
  fresh_stack a (htab_fill inl p elt) heap.
Proof.
  intros (b & Ha & Hb & Hnew) Hfirst. exists b.
  split; [exact Ha|]. split; [exact Hb|].
  rewrite htab_delete_fill. unfold sp_inline_info_del at 2.
  rewrite Hfirst, app_nil_r. exact Hnew.
Qed.

(** Closes the goals on the tables that a run leaves where it has not
    touched them. *)
Ltac ok_solve :=
  unfold always, group_ok, tables_ok in *;
  cbn [on_return on_abort on_undefined]; simpl_state;
  repeat match goal with
         | |- _ /\ _ => split
         | |- _ + 1 = 0 -> _ => intros; lia
         end;
  try assumption; try lia;
  try (eapply tables_ok_on_heap; [|eassumption]; lia).

Section TablesOk.

Variable d : disk.

Lemma ok_read_inline_sample hdr dp sb j n :
  0 <= j ->
  triple (always tables_ok) (group_ok dp sb j)
    (read_inline_sample d hdr dp sb j n)
    (fun _ => group_ok dp sb (j + 1)).
Proof.
  intros Hj s (Hok & Hdepth & Hlen & Hfresh). unfold read_inline_sample. exec.
  all: ok_solve.
  all: apply tables_ok_on_fill_inline; try assumption.
  all: unfold well_formed_record, inline_record;
    cbn [depth inline_stack is_first]; auto.
  all: intros H0; apply Hfresh; lia.
Qed.

Lemma ok_inline_samples hdr dp sb n acc :
  triple (always tables_ok) (group_ok dp sb 0)
    (for_upto n 0 (read_inline_sample d hdr dp sb) acc)
    (fun _ => tables_ok).
Proof.
  eapply triple_conseq.
  - apply (triple_for_upto (always tables_ok)
             (fun i _ => group_ok dp sb i)
             (read_inline_sample d hdr dp sb) 0 (0 + Z.of_nat n));
      [|lia|lia].
    intros i a Hi. apply ok_read_inline_sample. lia.
  - auto.
  - intros a s H. apply H.
Qed.

Lemma ok_read_inline_group func_hdr k n :
  stable tables_ok (read_inline_group d func_hdr k n).
Proof.
  intros s Hs. unfold read_inline_group. exec.
  all: try (apply ok_inline_samples).
  all: ok_solve.
  all: try match goal with
           | H : set_up_stack_buf _ _ _ _ _ _ = Some _ |- _ =>
               apply set_up_stack_buf_length in H;
               rewrite repeat_length in H
           end.
  all: cbn [frames stack_addr]; try lia.
  all: try (intros _; try apply fresh_stack_fill; try reflexivity;
            apply (fresh_stack_new (sp_htab s)); [assumption | lia]).
  apply tables_ok_on_fill_inline; try assumption.
  - eapply tables_ok_on_heap; [|eassumption]. lia.
  - split; cbn [callsite_total depth inline_stack frames]; lia.
  - discriminate.
Qed.

Lemma ok_read_inline_function func_hdr n :
  stable tables_ok (read_inline_function d func_hdr n).
Proof.
  unfold read_inline_function. apply keeps_bind.
  - apply keeps_for_upto. intros i a. apply ok_read_inline_group.
  - intros a. apply triple_return. auto.
Qed.

Lemma ok_read_flat_sample func_hdr j n :
  stable tables_ok (read_flat_sample d func_hdr j n).
Proof.
  intros s Hs. unfold read_flat_sample. exec.
  all: ok_solve.
  all: apply tables_ok_on_fill_flat; assumption.
Qed.

Lemma ok_read_function i n : stable tables_ok (read_function d i n).
Proof.
  intros s Hs. unfold read_function, read_function_header. exec.
  all: try match goal with
           | |- context [for_upto ?k ?j (read_flat_sample d ?h) ?acc ?st] =>
               let H := fresh "Hloop" in
               assert (H : tables_ok st) by ok_solve;
               apply (keeps_for_upto (always tables_ok) tables_ok
                        (read_flat_sample d h)
                        (ok_read_flat_sample h) k j acc st) in H;
               destruct (for_upto k j (read_flat_sample d h) acc st) eqn:?
           end.
  all: exec.
  all: try match goal with
           | H : tables_ok ?st |- context [read_inline_function d ?h ?a ?st] =>
               apply (ok_read_inline_function h a st) in H;
               destruct (read_inline_function d h a st) eqn:?
           end.
  all: ok_solve.
Qed.

End TablesOk.

Lemma ok_sp_reader (in_file : option disk) : stable tables_ok (sp_reader in_file).
Proof.
  intros s Hs. unfold sp_reader. destruct in_file as [d|].
  - unfold read_string_table. exec.
    all: try match goal with
             | |- context [for_upto ?k ?j (read_function ?f) ?acc ?st] =>
                 let H := fresh "Hloop" in
                 assert (H : tables_ok st) by ok_solve;
                 apply (keeps_for_upto (always tables_ok) tables_ok
                          (read_function f) (ok_read_function f) k j acc st)
                   in H;
                 destruct (for_upto k j (read_function f) acc st) eqn:?
             end.
    all: ok_solve.
  - exec. ok_solve.
Qed.

Lemma tables_ok_empty (s : sp_state) :
  sp_htab s = [] -> sp_inline_htab s = [] -> tables_ok s.
Proof.
  intros Hf Hi. unfold tables_ok, tables_ok_on. rewrite Hf, Hi.
  split; [apply keys_entered_once_nil|].
  split; [apply keys_entered_once_nil|].
  split; [intros slot []|]. split; [constructor|]. intros a [].
Qed.

(** The tables after a file has been read into empty ones. *)
Lemma tables_ok_after_reading (in_file : option disk) (s : sp_state) :
  sp_htab s = [] -> sp_inline_htab s = [] ->
  tables_ok (final_state (sp_reader in_file s)).
Proof.
  intros Hf Hi. apply stable_final; [apply ok_sp_reader|].
  now apply tables_ok_empty.
Qed.

Lemma sp_info_eq_sym (a b : sample_freq_detail) :
  sp_info_eq a b = true -> sp_info_eq b a = true.
Proof. rewrite !sp_info_eq_true. intros (-> & -> & ->). auto. Qed.

Lemma sp_info_eq_trans (a b c : sample_freq_detail) :
  sp_info_eq a b = true -> sp_info_eq b c = true -> sp_info_eq a c = true.
Proof. rewrite !sp_info_eq_true. intros (-> & -> & ->) (-> & -> & ->). auto. Qed.

(** X12.  Round trip: once a file has been read into empty tables, however
    the reading ended, every record entered in the flat or in the inline
    table is the one found under any key equal to its own, with the
    frequency and the instruction count it was read with; no record is
    hidden behind another one with an equal key. *)
Theorem every_record_entered_is_found (in_file : option disk) (s : sp_state) :
  sp_htab s = [] -> sp_inline_htab s = [] ->
  let s' := final_state (sp_reader in_file s) in
  (forall slot key,
      In slot (sp_htab s') -> sp_info_eq (snd slot) key = true ->
      htab_find sp_info_eq (sp_htab s') key = Some slot)
  /\ (forall slot key,
        In slot (sp_inline_htab s') ->
        sp_inline_info_eq (snd slot) key = true ->
        htab_find sp_inline_info_eq (sp_inline_htab s') key = Some slot).
Proof.
  intros Hf Hi s'.
  destruct (tables_ok_after_reading in_file s Hf Hi) as (H1 & H2 & _).
  split; intros slot key Hin Heq.
  - exact (htab_find_equal_key _ _ _ _ sp_info_eq_sym sp_info_eq_trans H1 Hin Heq).
  - exact (htab_find_equal_key _ _ _ _ sp_inline_info_eq_sym
             sp_inline_info_eq_trans H2 Hin Heq).
Qed.

(** X13.  Once a file has been read into empty tables, deleting the inline
    table releases no stack twice: the stacks of the records marked
    [is_first], which [sp_inline_info_del] frees, are pairwise distinct
    blocks, each one allocated during the reading. *)
Theorem inline_stacks_are_released_once (in_file : option disk) (s : sp_state) :
  sp_htab s = [] -> sp_inline_htab s = [] ->
  let s' := final_state (sp_reader in_file s) in
  NoDup (htab_delete sp_inline_info_del (sp_inline_htab s'))
  /\ (forall a,
        In a (htab_delete sp_inline_info_del (sp_inline_htab s')) ->
        exists b, a = Heap b 0 /\ (b < heap_blocks s')%nat).
Proof.
  intros Hf Hi s'.
  destruct (tables_ok_after_reading in_file s Hf Hi) as (_ & _ & _ & H4 & H5).
  split; assumption.
Qed.

(** X14.  Once a file has been read into empty tables, every record of the
    inline table has a depth between 1 and 199 and a stack of exactly that
    many frames: the frames that [sp_inline_info_eq] and
    [sp_inline_info_hash] read of a stored record all exist. *)
Theorem inline_records_have_their_frames (in_file : option disk)
  (s : sp_state) :
  sp_htab s = [] -> sp_inline_htab s = [] ->
  let s' := final_state (sp_reader in_file s) in
  forall slot, In slot (sp_inline_htab s') ->
    0 < depth (snd slot) < FB_INLINE_MAX_STACK
    /\ Z.of_nat (List.length (frames (inline_stack (snd slot))))
       = depth (snd slot).
Proof.
  intros Hf Hi s' slot Hin.
  destruct (tables_ok_after_reading in_file s Hf Hi) as (_ & _ & H3 & _).
  exact (H3 slot Hin).
Qed.

(** ** The ways in which the reading fails *)

(** X15.  A per-line record of a function whose line is 0 or negative
    stops the compiler: once it is stored in [sample_buf] and compared with
    [sp_max_count], the assertion of [sp_info_hash] fails, before the table
    is searched; nothing is entered and no diagnostic is given. *)
Theorem flat_record_without_positive_line_aborts (d : disk)
  (func_hdr : func_sample_hdr) (j num_samples : Z) (s : sp_state)
  (sample : fb_info_freq) :
  d_sample d (file_pos s) = Some sample ->
  fi_line_num sample <= 0 ->
  (Z.to_nat j < List.length (snd (sample_buf s)))%nat ->
  exists s',
    read_flat_sample d func_hdr j num_samples s = Abort s'
    /\ sp_htab s' = sp_htab s
    /\ diagnostics s' = diagnostics s
    /\ sp_max_count s' = Z.max (sp_max_count s) (fi_freq sample).
Proof.
  intros Hread Hline Hj.
  destruct (array_store_some (snd (sample_buf s)) (Z.to_nat j)
              (flat_record (str_table s) func_hdr sample) Hj) as [arr Harr].
  unfold read_flat_sample. unfold_reader. rewrite Hread. simpl_state.
  rewrite Harr. simpl_state.
  change (fd_line_num (flat_record (str_table s) func_hdr sample))
    with (fi_line_num sample).
  destruct (Z.gtb_spec (fi_line_num sample) 0) as [|_]; [lia|].
  destruct (Z.gtb_spec (fi_freq sample) (sp_max_count s)); simpl_state;
    eexists; (split; [reflexivity|]); simpl_state; repeat split; lia.
Qed.

(** X16.  Once a file has been read into an empty flat table, however the
    reading ended, every record of the flat table has a positive line, so
    that a key whose line is 0 or negative finds nothing in it. *)
Theorem flat_table_holds_positive_lines_only (in_file : option disk)
  (s : sp_state) :
  sp_htab s = [] ->
  let s' := final_state (sp_reader in_file s) in
  (forall slot, In slot (sp_htab s') -> 0 < fd_line_num (snd slot))
  /\ (forall key, fd_line_num key <= 0 ->
        htab_find sp_info_eq (sp_htab s') key = None).
Proof.
  intros Hempty s'.
  assert (Hpos : flat_lines_positive s').
  { apply (stable_final flat_lines_positive _ s
             (positive_run_step (FileStep in_file))).
    intros slot Hin. rewrite Hempty in Hin. destruct Hin. }
  split; [exact Hpos|]. intros key Hkey.
  destruct (htab_find sp_info_eq (sp_htab s') key) as [slot|] eqn:E;
    [|reflexivity].
  apply htab_find_some in E as [Hin Heq].
  apply sp_info_eq_true in Heq as (Hl & _). specialize (Hpos slot Hin). lia.
Qed.

Lemma last_io_snoc (s : sp_state) (log : list io_event) (e : io_event) :
  io_log s = log ++ [e] -> last_io s e.
Proof. intros H. now exists log. Qed.


Section Failures.

Variable d : disk.
Variable h0 : fb_sample_hdr.









End Failures.



(** ** From the file to the count of a block *)

(** X18.  From the file to the block: once a file has been read into empty
    tables, a block made of one statement that is not inlined, at the line,
    in the file and in the function of a record of the flat table, is given
    by [sp_annotate_bb] the frequency of that record divided by its
    instruction count (0 when that is 0), both as read from the file. *)
Theorem block_of_a_sampled_line_gets_the_count_read
  (expand_location : Z -> expanded_location) (in_file : option disk)
  (s0 : sp_state) (slot : address * sample_freq_detail) (stmt : gimple)
  (idx c0 : Z) (St : Type) (s : St) :
  let g := final_state (sp_reader in_file s0) in
  let r := snd slot in
  sp_htab s0 = [] -> sp_inline_htab s0 = [] ->
  In slot (sp_htab g) ->
  call_sites stmt = [] ->
  get_lineno stmt = fd_line_num r ->
  gimple_filename stmt = fd_filename r ->
  - 2 ^ 63 <= fd_freq r < 2 ^ 63 ->
  0 <= fd_num_instr r < 2 ^ 32 ->
  sp_annotate_bb expand_location g (fd_func_name r)
    (mk_basic_block idx [stmt] c0) s
  = Val (mk_basic_block idx [stmt]
           (if fd_num_instr r >? 0
            then Z.quot (fd_freq r) (fd_num_instr r) else 0)) s.
Proof.
  intros g r Hf Hi Hin Hsites Hline Hfile Hfreq Hinstr.
  assert (Hpos : 0 < fd_line_num r).
  { apply (stable_final flat_lines_positive _ s0
             (positive_run_step (FileStep in_file))); [|exact Hin].
    intros x Hx. rewrite Hf in Hx. destruct Hx. }
  destruct (tables_ok_after_reading in_file s0 Hf Hi) as (Hkeys & _).
  assert (Hdepth : inline_depth_of stmt = O)
    by (rewrite inline_depth_of_call_sites, Hsites; reflexivity).
  assert (Hm : matched_record expand_location g (fd_func_name r) stmt
               = Some (false, fst slot, fd_freq r, fd_num_instr r)).
  { unfold matched_record.
    destruct (Z.eqb_spec (get_lineno stmt) (-1)) as [E|_]; [lia|].
    pose proof (sp_get_inline_stack_depth expand_location stmt
                  (repeat zero_location (Z.to_nat FB_INLINE_MAX_STACK))) as Hw.
    rewrite Hdepth in Hw. cbn [Nat.leb] in Hw.
    destruct Hw as (stack' & -> & _). cbn [Z.of_nat Z.gtb Z.compare].
    rewrite (htab_find_equal_key sp_info_eq (sp_htab g) slot _
               sp_info_eq_sym sp_info_eq_trans Hkeys Hin).
    - destruct slot as [p e]. reflexivity.
    - apply sp_info_eq_true. cbn [fd_line_num fd_filename fd_func_name].
      auto. }
  unfold sp_annotate_bb. cbn [stmts for_each]. unfold bind.
  rewrite (annotate_stmt_spec expand_location g (fd_func_name r) stmt
             initial_locals s) by (intros _; lia).
  rewrite Hm.
  unfold ret, set_count, bb_count, count_ir, accumulate, initial_locals,
    m_id, m_freq, m_instr, seen_of.
  destruct (Z.eqb_spec (get_lineno stmt) (-1)) as [E|_]; [lia|].
  cbn [fst snd lines lines_inline map app existsb List.length Z.of_nat
       num_ir bb_max_count num_instr_sampled sum_ir_count index stmts].
  change (0 <? MAX_LINES_PER_BASIC_BLOCK) with true. cbv iota.
  cbn [fst snd lines lines_inline num_ir bb_max_count num_instr_sampled
       sum_ir_count].
  rewrite !Z.add_0_l, wrap_u32_small, wrap_s64_small by lia.
  reflexivity.
Qed.

(** X21.  The same for an inlined statement: once a file has been read
    into empty tables, a block made of one statement at the line, in the
    file and in the function of a record of the inline table, and inlined
    through the call sites that the stack of the record holds, is given by
    [sp_annotate_bb] the frequency of that record divided by its
    instruction count (0 when that is 0). *)
Theorem block_of_an_inlined_line_gets_the_count_read
  (expand_location : Z -> expanded_location) (in_file : option disk)
  (s0 : sp_state) (slot : address * sample_inline_freq) (stmt : gimple)
  (idx c0 : Z) (St : Type) (s : St) :
  let g := final_state (sp_reader in_file s0) in
  let r := snd slot in
  sp_htab s0 = [] -> sp_inline_htab s0 = [] ->
  In slot (sp_inline_htab g) ->
  map expand_location (call_sites stmt) = frames (inline_stack r) ->
  get_lineno stmt = line_num r ->
  get_lineno stmt <> -1 ->
  gimple_filename stmt = filename r ->
  - 2 ^ 63 <= freq r < 2 ^ 63 ->
  0 <= num_instr r < 2 ^ 32 ->
  sp_annotate_bb expand_location g (func_name r)
    (mk_basic_block idx [stmt] c0) s
  = Val (mk_basic_block idx [stmt]
           (if num_instr r >? 0 then Z.quot (freq r) (num_instr r) else 0)) s.
Proof.
  intros g r Hf Hi Hin Hstack Hline Hloc Hfile Hfreq Hinstr.
  destruct (tables_ok_after_reading in_file s0 Hf Hi) as (_ & Hkeys & Hwf & _).
  destruct (Hwf slot Hin) as [Hdepth Hlen]. fold r in Hdepth, Hlen.
  unfold FB_INLINE_MAX_STACK in Hdepth.
  assert (Hn : Z.of_nat (List.length (call_sites stmt)) = depth r).
  { rewrite <- Hlen, <- Hstack. now rewrite length_map. }
  assert (Hm : matched_record expand_location g (func_name r) stmt
               = Some (true, fst slot, freq r, num_instr r)).
  { unfold matched_record.
    destruct (Z.eqb_spec (get_lineno stmt) (-1)) as [E|_]; [contradiction|].
    rewrite sp_get_inline_stack_frames, repeat_length.
    change (Z.to_nat FB_INLINE_MAX_STACK) with 200%nat.
    destruct (Nat.leb_spec (List.length (call_sites stmt)) 200); [|lia].
    destruct (Z.gtb_spec (Z.of_nat (List.length (call_sites stmt))) 0); [|lia].
    rewrite (htab_find_equal_key sp_inline_info_eq (sp_inline_htab g) slot _
               sp_inline_info_eq_sym sp_inline_info_eq_trans Hkeys Hin).
    - destruct slot as [p e]. reflexivity.
    - apply sp_inline_info_eq_true. fold r.
      cbn [line_num depth inline_stack frames filename func_name].
      split; [auto|]. split; [auto|]. split; [|auto].
      apply inline_stack_eq_from_iff. intros k Hk.
      rewrite Hstack, app_nth1 by lia. auto. }
  unfold sp_annotate_bb. cbn [stmts for_each]. unfold bind.
  rewrite (annotate_stmt_spec expand_location g (func_name r) stmt
             initial_locals s)
    by (intros _; rewrite inline_depth_of_call_sites; lia).
  rewrite Hm.
  unfold ret, set_count, bb_count, count_ir, accumulate, initial_locals,
    m_id, m_freq, m_instr, seen_of.
  destruct (Z.eqb_spec (get_lineno stmt) (-1)) as [E|_]; [contradiction|].
  cbn [fst snd lines lines_inline map app existsb List.length Z.of_nat
       num_ir bb_max_count num_instr_sampled sum_ir_count index stmts].
  change (0 <? MAX_LINES_PER_BASIC_BLOCK) with true. cbv iota.
  cbn [fst snd lines lines_inline num_ir bb_max_count num_instr_sampled
       sum_ir_count].
  rewrite !Z.add_0_l, wrap_u32_small, wrap_s64_small by lia.
  reflexivity.
Qed.

(** ** Edge counts before smoothing *)

Section InitCfgSpec.

Variable REG_BR_PROB_BASE : Z.

Local Abbreviation share := (edge_share REG_BR_PROB_BASE).

Lemma init_block_loop (bb : cfg_block) :
  forall (es done : list cfg_edge) (sm : Z),
    fold_left
      (fun acc e =>
         let c := share bb e in
         (fst acc ++ [set_edge_count c e], wrap_s64 (snd acc + c)))
      es (done, sm)
    = (done ++ map (fun e => set_edge_count (share bb e) e) es,
       fold_left (fun c e => wrap_s64 (c + share bb e)) es sm).
Proof.
  induction es as [|e es IH]; intros done sm; cbn [fold_left map].
  - now rewrite app_nil_r.
  - cbv zeta. cbn [fst snd]. rewrite IH, <- app_assoc. reflexivity.
Qed.

Lemma init_block_spec (bb : cfg_block) :
  init_block REG_BR_PROB_BASE bb
  = mk_cfg_block (block_index bb)
      (fold_left (fun c e => wrap_s64 (c + share bb e)) (succs bb) 0)
      (map (fun e => set_edge_count (share bb e) e) (succs bb)).
Proof. unfold init_block. now rewrite init_block_loop. Qed.

(** The second loop does not see what the first has done. *)
Lemma init_block_init_edges (bb : cfg_block) :
  init_block REG_BR_PROB_BASE (init_edges REG_BR_PROB_BASE bb)
  = init_block REG_BR_PROB_BASE bb.
Proof.
  rewrite !init_block_spec. unfold init_edges.
  cbn [block_index block_count succs]. f_equal.
  - generalize 0. induction (succs bb) as [|e es IH]; intros sm;
      [reflexivity|]. cbn [map fold_left]. apply IH.
  - rewrite map_map. apply map_ext. intros e. reflexivity.
Qed.

Lemma sum_of_new_counts (bb : cfg_block) :
  forall (es : list cfg_edge) (sm : Z),
    fold_left (fun c e => wrap_s64 (c + edge_count e))
      (map (fun e => set_edge_count (share bb e) e) es) sm
    = fold_left (fun c e => wrap_s64 (c + share bb e)) es sm.
Proof.
  induction es as [|e es IH]; intros sm; [reflexivity|].
  cbn [map fold_left]. apply IH.
Qed.

(** The shares of a count [c] that is not negative, by probabilities that
    are not negative: they add up without overflow to at most [c] times
    the sum of the probabilities over the base, and fall short of it by
    less than one for each edge. *)
Lemma shares_add_up (bb : cfg_block) :
  0 < REG_BR_PROB_BASE ->
  0 <= block_count bb ->
  forall (es : list cfg_edge) (sm : Z),
    (forall e, In e es -> 0 <= probability e) ->
    block_count bb * sum_probability es < 2 ^ 63 ->
    0 <= sm ->
    sm * REG_BR_PROB_BASE + block_count bb * sum_probability es
    < 2 ^ 63 * REG_BR_PROB_BASE ->
    let total := fold_left (fun c e => wrap_s64 (c + share bb e)) es sm in
    REG_BR_PROB_BASE * (total - sm) <= block_count bb * sum_probability es
    /\ block_count bb * sum_probability es
       <= REG_BR_PROB_BASE * (total - sm)
          + Z.of_nat (List.length es) * (REG_BR_PROB_BASE - 1).
Proof.
  intros HB Hc. induction es as [|e es IH]; intros sm Hp Hfit Hsm Hroom total.
  - subst total. cbn [fold_left sum_probability fold_right List.length].
    rewrite Z.sub_diag. lia.
  - assert (Hpe : 0 <= probability e) by (apply Hp; now left).
    assert (Hrest : forall e0, In e0 es -> 0 <= probability e0)
      by (intros e0 H0; apply Hp; now right).
    assert (Hsum : 0 <= sum_probability es).
    { clear - Hrest. induction es as [|x es IH]; [cbn; lia|].
      cbn [sum_probability fold_right].
      assert (0 <= probability x) by (apply Hrest; now left).
      assert (0 <= sum_probability es)
        by (apply IH; intros e0 H0; apply Hrest; now right).
      unfold sum_probability in *. lia. }
    change (sum_probability (e :: es))
      with (probability e + sum_probability es) in *.
    set (c := block_count bb) in *. set (p := probability e) in *.
    assert (Hcp : 0 <= c * p) by nia.
    assert (Hcp2 : c * p < 2 ^ 63) by nia.
    assert (Hshare : share bb e = c * p / REG_BR_PROB_BASE).
    { unfold edge_share. fold c p. rewrite wrap_s64_small by lia.
      apply Z.quot_div_nonneg; lia. }
    pose proof (Z.div_mod (c * p) REG_BR_PROB_BASE ltac:(lia)) as Hdm.
    pose proof (Z.mod_pos_bound (c * p) REG_BR_PROB_BASE HB) as Hmod.
    set (q := c * p / REG_BR_PROB_BASE) in *.
    assert (Hq : 0 <= q) by (subst q; apply Z.div_pos; lia).
    assert (Hnext : wrap_s64 (sm + share bb e) = sm + q).
    { rewrite Hshare. apply wrap_s64_small. nia. }
    subst total. cbn [fold_left List.length]. rewrite Hnext.
    specialize (IH (sm + q) Hrest ltac:(nia) ltac:(lia) ltac:(nia)).
    cbv zeta in IH. destruct IH as [IH1 IH2].
    rewrite Nat2Z.inj_succ. split; nia.
Qed.

End InitCfgSpec.

(** X19.  Before the smoothing, [sp_init_cfg] gives every edge that leaves
    a block between the entry and the exit block the share of the block's
    count that its probability stands for, the product being taken in
    [gcov_type] (written here with wrap-around at 64 bits) and the quotient
    rounded towards zero, whatever count the edge had, and gives the block
    the sum of those shares: a block without a way out is left with the
    count 0, and the first of the two loops over the blocks changes nothing
    in the result.  For a count that is not negative and small enough for
    its product with [REG_BR_PROB_BASE] to stay below 2^63, shared out by
    probabilities that are not negative and add up to [REG_BR_PROB_BASE],
    the block keeps its count but for the rounding, which takes less than 1
    for each edge. *)
Theorem sp_init_cfg_shares_out_the_counts (REG_BR_PROB_BASE : Z)
  (g : flow_graph) (i : nat) (bb : cfg_block) :
  nth_error (inner_blocks g) i = Some bb ->
  exists bb',
    nth_error (inner_blocks (sp_init_cfg REG_BR_PROB_BASE g)) i = Some bb'
    /\ block_index bb' = block_index bb
    /\ map dest (succs bb') = map dest (succs bb)
    /\ map probability (succs bb') = map probability (succs bb)
    /\ map edge_count (succs bb')
       = map (edge_share REG_BR_PROB_BASE bb) (succs bb)
    /\ block_count bb'
       = fold_left (fun c e => wrap_s64 (c + edge_count e)) (succs bb') 0
    /\ (succs bb = [] -> block_count bb' = 0)
    /\ (0 < REG_BR_PROB_BASE ->
        0 <= block_count bb ->
        block_count bb * REG_BR_PROB_BASE < 2 ^ 63 ->
        (forall e, In e (succs bb) -> 0 <= probability e) ->
        sum_probability (succs bb) = REG_BR_PROB_BASE ->
        block_count bb - Z.of_nat (List.length (succs bb)) < block_count bb'
        /\ block_count bb' <= block_count bb).
Proof.
  intros Hnth. exists (init_block REG_BR_PROB_BASE bb).
  split.
  { unfold sp_init_cfg. cbn [inner_blocks]. rewrite map_map.
    rewrite (map_ext _ _ (init_block_init_edges REG_BR_PROB_BASE)).
    now rewrite nth_error_map, Hnth. }
  rewrite init_block_spec. cbn [block_index block_count succs].
  rewrite !map_map. cbn [set_edge_count dest probability edge_count].
  repeat split; try reflexivity.
  - now rewrite sum_of_new_counts.
  - intros ->. reflexivity.
  - pose proof (shares_add_up REG_BR_PROB_BASE bb H H0 (succs bb) 0 H2
                  ltac:(rewrite H3; exact H1) ltac:(lia)
                  ltac:(rewrite H3; nia)) as Hs.
    cbv zeta in Hs. rewrite H3, Z.sub_0_r in Hs.
    assert (Hn : 0 < Z.of_nat (List.length (succs bb))).
    { destruct (succs bb); [cbn in H3; lia | cbn [List.length]; lia]. }
    nia.
  - pose proof (shares_add_up REG_BR_PROB_BASE bb H H0 (succs bb) 0 H2
                  ltac:(rewrite H3; exact H1) ltac:(lia)
                  ltac:(rewrite H3; nia)) as Hs.
    cbv zeta in Hs. rewrite H3, Z.sub_0_r in Hs. nia.
Qed.

(** ** The pass *)

Section NoReturn.

Variable expand_location : Z -> expanded_location.
Variable g : sp_state.
Variable fn_name : string.

Lemma annotate_stmt_no_return {St} (stmt : gimple) (l : bb_locals) :
  triple (@no_return St) (fun _ => True)
    (annotate_stmt expand_location g fn_name stmt l) (fun _ _ => True).
Proof.
  intros s _. unfold annotate_stmt, bind, gcc_assert, ret, undefined.
  repeat match goal with
         | |- context [match ?x with _ => _ end] =>
             lazymatch x with
             | context [match _ with _ => _ end] => fail
             | _ => destruct x
             end
         end; exact I.
Qed.

Lemma annotate_and_count_no_return {St} (bb : basic_block)
  (acc : list basic_block * Z * Z) :
  triple (@no_return St) (fun _ => True)
    (annotate_and_count expand_location g fn_name bb acc) (fun _ _ => True).
Proof.
  unfold annotate_and_count, sp_annotate_bb. destruct acc as [[done n] mx].
  eapply triple_bind with (Q := fun _ _ => True).
  - eapply triple_bind with (Q := fun _ _ => True).
    + apply (triple_for_each no_return (fun _ _ => True)).
      intros stmt l. apply annotate_stmt_no_return.
    + intros l. now apply triple_ret.
  - intros bb'. destruct (negb (count bb' =? 0)); now apply triple_ret.
Qed.

Lemma annotate_blocks_no_return {St} (bbs : list basic_block)
  (acc : list basic_block * Z * Z) :
  triple (@no_return St) (fun _ => True)
    (for_each bbs (annotate_and_count expand_location g fn_name) acc)
    (fun _ _ => True).
Proof.
  apply (triple_for_each no_return (fun _ _ => True)).
  intros bb a. apply annotate_and_count_no_return.
Qed.

End NoReturn.

(** X20.  The first time [execute_sample_profile] runs on a function, while
    the call graph is not finished, it leaves the function, whatever the
    static estimation has set, in one of two conditions: with the status
    PROFILE_READ and the summary published, or with the status
    PROFILE_ABSENT, every count of a block at 0 and the summary as the
    estimation left it.  It returns 0 with [after_tree_profile] set, so
    that the estimation is not run again on the function. *)
Theorem first_pass_leaves_the_profile_read_or_absent
  (expand_location : Z -> expanded_location)
  (sp_smooth_cfg tree_estimate_probability : function_cfg -> function_cfg)
  (g : sp_state) (c : cfun_t) (v : Z) (c' : cfun_t) :
  after_tree_profile c = false ->
  execute_sample_profile expand_location sp_smooth_cfg
    tree_estimate_probability false g c = Return v c' ->
  v = 0
  /\ after_tree_profile c' = true
  /\ (forall estimate,
        execute_sample_profile expand_location sp_smooth_cfg estimate false g c'
        = execute_sample_profile expand_location sp_smooth_cfg
            tree_estimate_probability true g c')
  /\ ((profile_status (cfun_cfg c') = PROFILE_READ
       /\ profile_info (cfun_cfg c')
          = Some (mk_gcov_ctr_summary 1 (sp_max_count g)))
      \/ (profile_status (cfun_cfg c') = PROFILE_ABSENT
          /\ profile_info (cfun_cfg c')
             = profile_info (tree_estimate_probability (cfun_cfg c))
          /\ forall bb, In bb (basic_blocks (cfun_cfg c')) -> count bb = 0)).
Proof.
  intros Hfirst Hrun.
  unfold execute_sample_profile, bind, get, modify, on_cfg in Hrun.
  rewrite Hfirst in Hrun. cbn [orb negb cfun_cfg after_tree_profile] in Hrun.
  set (f := set_profile_status PROFILE_ABSENT
              (tree_estimate_probability (cfun_cfg c))) in *.
  destruct (for_each (basic_blocks f)
              (annotate_and_count expand_location g (assembler_name f))
              ([], 0, 0) f) as [[[bbs n] mx] f1| | |] eqn:Hloop.
  2:{ pose proof (annotate_blocks_no_return expand_location g
                    (assembler_name f) (basic_blocks f) ([], 0, 0) f I) as H.
      rewrite Hloop in H. destruct H. }
  2-3: unfold sp_annotate_cfg, bind, get in Hrun; rewrite Hloop in Hrun;
    discriminate.
  rewrite (sp_annotate_cfg_after_loop expand_location sp_smooth_cfg g f
             bbs n mx f1 Hloop) in Hrun.
  pose proof (annotate_blocks_spec expand_location g (assembler_name f) f
                _ _ _ _ _ _ Hloop) as (-> & _).
  destruct (profile_usable n (n_basic_blocks f)); unfold return_ in Hrun;
    injection Hrun as <- <-; cbn [cfun_cfg after_tree_profile];
    (split; [reflexivity|]); (split; [reflexivity|]);
    (split; [intros estimate; reflexivity|]).
  - left. split; reflexivity.
  - right. split; [reflexivity|]. split; [reflexivity|].
    intros bb Hin. cbn [basic_blocks set_basic_blocks] in Hin.
    apply in_map_iff in Hin as (bb0 & <- & _). reflexivity.
Qed.

(** ** The elements that the slots point to *)

Lemma addresses_ok_on_heap flat inl (heap heap' : nat) :
  (heap <= heap')%nat -> addresses_ok_on flat inl heap ->
  addresses_ok_on flat inl heap'.
Proof.
  intros Hle (H1 & H2 & H3). split; [exact H1|]. split; [exact H2|].
  intros a Ha. destruct (H3 a Ha) as (b & j & -> & Hb).
  exists b, j. split; [reflexivity | lia].
Qed.

Lemma map_fst_fill {A} (tab : htab A) (p : address) (elt : A) :
  map fst (htab_fill tab p elt) = map fst tab ++ [p].
Proof. unfold htab_fill. now rewrite map_app. Qed.

Lemma NoDup_snoc {A} (l : list A) (x : A) :
  NoDup l -> ~ In x l -> NoDup (l ++ [x]).
Proof.
  intros Hl Hx. apply NoDup_app; [exact Hl | repeat constructor; intros [] |].
  intros a Ha [<- | []]. contradiction.
Qed.

Lemma addresses_ok_on_fill_flat flat inl heap (b i : nat)
  (elt : sample_freq_detail) :
  addresses_ok_on flat inl heap ->
  (b < heap)%nat ->
  ~ In (Heap b i) (map fst flat) ->
  addresses_ok_on (htab_fill flat (Heap b i) elt) inl heap.
Proof.
  intros (H1 & H2 & H3) Hb Hnew. unfold addresses_ok_on.
  rewrite map_fst_fill.
  split; [now apply NoDup_snoc|]. split; [exact H2|].
  intros a Ha. rewrite <- app_assoc in Ha.
  apply in_app_or in Ha as [Ha | Ha].
  - apply H3. apply in_or_app. now left.
  - cbn [app] in Ha. destruct Ha as [<- | Ha]; [now exists b, i|].
    apply H3. apply in_or_app. now right.
Qed.

Lemma addresses_ok_on_fill_inline flat inl heap (b i : nat)
  (elt : sample_inline_freq) :
  addresses_ok_on flat inl heap ->
  (b < heap)%nat ->
  ~ In (Heap b i) (map fst inl) ->
  addresses_ok_on flat (htab_fill inl (Heap b i) elt) heap.
Proof.
  intros (H1 & H2 & H3) Hb Hnew. unfold addresses_ok_on.
  rewrite map_fst_fill.
  split; [exact H1|]. split; [now apply NoDup_snoc|].
  intros a Ha. rewrite app_assoc in Ha.
  apply in_app_or in Ha as [Ha | [<- | []]]; [now apply H3 | now exists b, i].
Qed.

(** No slot points into a block that is not allocated yet. *)
Lemma fresh_block flat inl (heap b i : nat) :
  addresses_ok_on flat inl heap -> (heap <= b)%nat ->
  ~ In (Heap b i) (map fst flat) /\ ~ In (Heap b i) (map fst inl).
Proof.
  intros (_ & _ & H3) Hle.
  split; intros Hin;
    (destruct (H3 (Heap b i)) as (b' & j & [= <- <-] & Hb);
     [apply in_or_app; auto | lia]).
Qed.

Lemma address_eqb_eq (a b : address) : address_eqb a b = true -> a = b.
Proof.
  destruct a as [|n i|], b as [|m j|]; try discriminate; try reflexivity.
  cbn [address_eqb]. rewrite andb_true_iff, !Nat.eqb_eq. now intros [-> ->].
Qed.

Lemma NoDup_map_fst_inj {A B} (l : list (A * B)) (x y : A * B) :
  NoDup (map fst l) -> In x l -> In y l -> fst x = fst y -> x = y.
Proof.
  induction l as [|z l IH]; intros Hnd Hx Hy Heq; [destruct Hx|].
  cbn [map] in Hnd. inversion Hnd as [|? ? Hz Hl]; subst.
  destruct Hx as [-> | Hx], Hy as [-> | Hy].
  - reflexivity.
  - exfalso. apply Hz. rewrite Heq. now apply in_map.
  - exfalso. apply Hz. rewrite <- Heq. now apply in_map.
  - now apply IH.
Qed.

(** Closes the goals on the addresses that a run leaves where it has not
    touched the tables. *)
Ltac addr_solve :=
  unfold always, flat_buffer_ok, inline_buffer_ok in *;
  unfold addresses_ok in *;
  cbn [on_return on_abort on_undefined]; simpl_state;
  repeat match goal with
         | |- _ /\ _ => split
         | H : _ /\ _ |- _ => destruct H
         end;
  try assumption; try lia;
  try (eapply addresses_ok_on_heap; [|eassumption]; lia);
  try match goal with
      | H : forall i, In _ _ -> _ |- forall i, In _ (map fst (htab_fill _ _ _)) -> _ =>
          let i := fresh "i" in
          let Hi := fresh "Hi" in
          intros i Hi; rewrite map_fst_fill in Hi;
          apply in_app_or in Hi as [Hi | [[= <-] | []]];
          [specialize (H i Hi); lia | lia]
      | H : forall i, In _ _ -> _ |- forall i, In _ _ -> _ =>
          let i := fresh "i" in
          let Hi := fresh "Hi" in
          intros i Hi; specialize (H i Hi); lia
      end.

Section Addresses.

Variable d : disk.

Lemma addr_read_flat_sample func_hdr j n :
  0 <= j ->
  triple (always addresses_ok) (flat_buffer_ok j)
    (read_flat_sample d func_hdr j n) (fun _ => flat_buffer_ok (j + 1)).
Proof.
  intros Hj s Hs. unfold read_flat_sample. exec.
  all: addr_solve.
  all: apply addresses_ok_on_fill_flat; try assumption.
  all: intros Hin;
    match goal with
    | H : forall i, In _ _ -> _ |- _ => specialize (H _ Hin); lia
    end.
Qed.

Lemma addr_flat_samples func_hdr n acc :
  triple (always addresses_ok) (flat_buffer_ok 0)
    (for_upto n 0 (read_flat_sample d func_hdr) acc) (fun _ => addresses_ok).
Proof.
  eapply triple_conseq.
  - apply (triple_for_upto (always addresses_ok) (fun i _ => flat_buffer_ok i)
             (read_flat_sample d func_hdr) 0 (0 + Z.of_nat n)); [|lia|lia].
    intros i a Hi. apply addr_read_flat_sample. lia.
  - auto.
  - intros a s H. apply H.
Qed.

Lemma addr_read_inline_sample hdr dp sb (len : nat) j n :
  0 <= j < Z.of_nat len ->
  triple (always addresses_ok) (inline_buffer_ok len j)
    (read_inline_sample d hdr dp sb j n)
    (fun _ => inline_buffer_ok len (j + 1)).
Proof.
  intros Hj s Hs. unfold read_inline_sample. exec.
  all: addr_solve.
  all: apply addresses_ok_on_fill_inline; try assumption.
  all: intros Hin;
    match goal with
    | H : forall i, In _ _ -> _ |- _ => specialize (H _ Hin); lia
    end.
Qed.

Lemma addr_inline_samples hdr dp sb (len : nat) acc :
  triple (always addresses_ok) (inline_buffer_ok len 0)
    (for_upto len 0 (read_inline_sample d hdr dp sb) acc)
    (fun _ => addresses_ok).
Proof.
  eapply triple_conseq.
  - apply (triple_for_upto (always addresses_ok)
             (fun i _ => inline_buffer_ok len i)
             (read_inline_sample d hdr dp sb) 0 (0 + Z.of_nat len));
      [|lia|lia].
    intros i a Hi. apply addr_read_inline_sample. lia.
  - auto.
  - intros a s H. apply H.
Qed.

Lemma addr_read_inline_group func_hdr k n :
  stable addresses_ok (read_inline_group d func_hdr k n).
Proof.
  intros s Hs. unfold read_inline_group. exec.
  all: try (apply addr_inline_samples).
  all: addr_solve.
  all: destruct (fresh_block _ _ _ (S (heap_blocks s))
                   (Z.to_nat (func_num_freq_entries f)) Hs ltac:(lia))
         as [_ Hfresh].
  - intros i Hi.
    destruct (fresh_block _ _ _ (S (heap_blocks s)) i Hs ltac:(lia)) as [_ H].
    contradiction.
  - apply addresses_ok_on_fill_inline; [|lia|exact Hfresh].
    eapply addresses_ok_on_heap; [|eassumption]. lia.
  - intros i Hi. rewrite map_fst_fill in Hi.
    apply in_app_or in Hi as [Hi | [[= <-] | []]]; [|now right].
    destruct (fresh_block _ _ _ (S (heap_blocks s)) i Hs ltac:(lia)) as [_ H].
    contradiction.
Qed.

Lemma addr_read_inline_function func_hdr n :
  stable addresses_ok (read_inline_function d func_hdr n).
Proof.
  unfold read_inline_function. apply keeps_bind.
  - apply keeps_for_upto. intros i a. apply addr_read_inline_group.
  - intros a. apply triple_return. auto.
Qed.

Lemma addr_read_function i n : stable addresses_ok (read_function d i n).
Proof.
  intros s Hs. unfold read_function, read_function_header. exec.
  all: try match goal with
           | |- context [for_upto ?k ?j (read_flat_sample d ?h) ?acc ?st] =>
               let H := fresh "Hloop" in
               assert (H : flat_buffer_ok 0 st);
               [ addr_solve;
                 intros i0 Hi0;
                 destruct (fresh_block _ _ _ (heap_blocks s) i0 Hs ltac:(lia))
                   as [Hfresh _];
                 contradiction
               | apply (addr_flat_samples h k acc st) in H;
                 destruct (for_upto k j (read_flat_sample d h) acc st) eqn:? ]
           end.
  all: exec.
  all: try match goal with
           | H : addresses_ok ?st
             |- context [read_inline_function d ?h ?a ?st] =>
               apply (addr_read_inline_function h a st) in H;
               destruct (read_inline_function d h a st) eqn:?
           end.
  all: addr_solve.
Qed.

End Addresses.

Lemma addr_sp_reader (in_file : option disk) :
  stable addresses_ok (sp_reader in_file).
Proof.
  intros s Hs. unfold sp_reader. destruct in_file as [d|].
  - unfold read_string_table. exec.
    all: try match goal with
             | |- context [for_upto ?k ?j (read_function ?f) ?acc ?st] =>
                 let H := fresh "Hloop" in
                 assert (H : addresses_ok st) by addr_solve;
                 apply (keeps_for_upto (always addresses_ok) addresses_ok
                          (read_function f) (addr_read_function f) k j acc st)
                   in H;
                 destruct (for_upto k j (read_function f) acc st) eqn:?
             end.
    all: addr_solve.
  - exec. addr_solve.
Qed.

(** X22.  Once a file has been read into empty tables, the slots of the
    flat table point to pairwise distinct elements of the buffers, and so
    do the slots of the inline table: [sp_annotate_bb], which tells the
    records it has counted by their addresses, never takes two records for
    one. *)
Theorem slots_point_to_distinct_elements (in_file : option disk)
  (s : sp_state) :
  sp_htab s = [] -> sp_inline_htab s = [] ->
  let s' := final_state (sp_reader in_file s) in
  NoDup (map fst (sp_htab s'))
  /\ NoDup (map fst (sp_inline_htab s'))
  /\ (forall slot slot',
        In slot (sp_htab s') -> In slot' (sp_htab s') ->
        address_eqb (fst slot) (fst slot') = true -> slot = slot')
  /\ (forall slot slot',
        In slot (sp_inline_htab s') -> In slot' (sp_inline_htab s') ->
        address_eqb (fst slot) (fst slot') = true -> slot = slot').
Proof.
  intros Hf Hi s'.
  assert (Hok : addresses_ok s').
  { apply stable_final; [apply addr_sp_reader|].
    unfold addresses_ok, addresses_ok_on. rewrite Hf, Hi.
    split; [constructor|]. split; [constructor|]. intros a []. }
  destruct Hok as (H1 & H2 & _).
  split; [exact H1|]. split; [exact H2|].
  split; intros slot slot' Hin Hin' Heq;
    apply address_eqb_eq in Heq;
    eapply NoDup_map_fst_inj; eassumption.
Qed.

(** ** The count of samples and the tables *)

Lemma inline_entries_fill (tab : htab sample_inline_freq) (p : address)
  (e : sample_inline_freq) :
  Z.of_nat (List.length (filter per_line_slot (htab_fill tab p e)))
  = Z.of_nat (List.length (filter per_line_slot tab))
    + (if line_num e =? 0 then 0 else 1).
Proof.
  unfold htab_fill. rewrite filter_app, length_app. unfold per_line_slot.
  cbn [filter snd]. destruct (line_num e =? 0); cbn [negb List.length]; lia.
Qed.

Lemma flat_entries_fill (tab : htab sample_freq_detail) (p : address)
  (e : sample_freq_detail) :
  Z.of_nat (List.length (htab_fill tab p e)) = Z.of_nat (List.length tab) + 1.
Proof. unfold htab_fill. rewrite length_app. cbn [List.length]. lia. Qed.

(** A per-line record of line 0 has the key of the total of its group. *)
Lemma line_0_has_the_key_of_the_total (strs : Z -> string)
  (hdr : func_sample_hdr) (dp : Z) (sb : stack_ptr) (j : Z)
  (sample : fb_info_freq) (tab : htab sample_inline_freq) :
  fi_line_num sample = 0 ->
  htab_find sp_inline_info_eq tab (inline_record strs hdr dp sb j sample)
  = htab_find sp_inline_info_eq tab (callsite_total strs hdr dp sb).
Proof.
  intros H0. unfold htab_find. induction tab as [|x tab IH]; [reflexivity|].
  cbn [find]. rewrite IH.
  replace (sp_inline_info_eq (snd x) (inline_record strs hdr dp sb j sample))
    with (sp_inline_info_eq (snd x) (callsite_total strs hdr dp sb));
    [reflexivity|].
  unfold sp_inline_info_eq, inline_record, callsite_total.
  cbn [line_num depth inline_stack filename func_name]. rewrite H0.
  reflexivity.
Qed.

Lemma present_fill {A} (eq_f : A -> A -> bool) (tab : htab A) (p : address)
  (e key : A) :
  htab_find eq_f tab key <> None ->
  htab_find eq_f (htab_fill tab p e) key <> None.
Proof.
  destruct (htab_find eq_f tab key) as [slot|] eqn:E; [|congruence].
  intros _. unfold htab_fill. rewrite (htab_find_app _ _ _ _ _ E). discriminate.
Qed.

Lemma total_present_after_fill (tab : htab sample_inline_freq) (p : address)
  (total : sample_inline_freq) :
  htab_find sp_inline_info_eq (htab_fill tab p total) total <> None.
Proof.
  destruct (htab_find sp_inline_info_eq tab total) as [slot|] eqn:E.
  - apply present_fill. congruence.
  - rewrite (htab_find_fill_absent _ _ _ _ _ E), sp_inline_info_eq_refl.
    discriminate.
Qed.

(** Closes the goals on the running count and the tables that a run
    leaves. *)
Ltac count_solve :=
  unfold counted_exits, counted_inline_exits, counted_group, counted_inline,
    counted, per_line_entries, flat_entries, inline_entries in *;
  cbn [on_return on_abort on_undefined]; simpl_state;
  repeat match goal with
         | H : _ /\ _ |- _ => destruct H
         end;
  rewrite ?inline_entries_fill, ?flat_entries_fill;
  cbn [line_num inline_record callsite_total Z.eqb];
  repeat match goal with
         | H : (fi_line_num ?f =? 0) = false |- context [fi_line_num ?f =? 0] =>
             rewrite H
         end;
  repeat match goal with
         | |- _ /\ _ => split
         end;
  first
    [ exact I
    | assumption
    | reflexivity
    | apply present_fill; assumption
    | apply total_present_after_fill
    | congruence
    | right; split; [reflexivity|]; apply failed_outside_snoc; reflexivity
    | left; match goal with
      | H : ?a = wrap_u64 ?b |- ?a = wrap_u64 _ =>
          etransitivity; [exact H|]; f_equal; lia
      end
    | match goal with
      | H : ?a = wrap_u64 ?b |- wrap_u64 (?a + 1) = _ =>
          rewrite (wrap_u64_succ a b H); f_equal; lia
      | H : ?a = wrap_u64 ?b |- ?a = wrap_u64 _ =>
          etransitivity; [exact H|]; f_equal; lia
      end
    | idtac ].

Section Counted.

Variable base : Z.
Variable d : disk.
Variable flat : htab sample_freq_detail.

Lemma counted_read_inline_sample strs hdr dp sb j n :
  triple (counted_inline_exits flat base)
    (counted_group flat base strs hdr dp sb n)
    (read_inline_sample d hdr dp sb j n)
    (counted_group flat base strs hdr dp sb).
Proof.
  intros s (Hc & Hstr & Htotal). subst strs. unfold read_inline_sample. exec.
  all: try match goal with
           | H : htab_find _ _ (inline_record _ _ _ _ _ ?f) = None |- _ =>
               assert (Hline : (fi_line_num f =? 0) = false)
                 by (apply Z.eqb_neq; intros H0;
                     rewrite (line_0_has_the_key_of_the_total _ _ _ _ _ _ _ H0)
                       in H;
                     contradiction)
           end.
  all: count_solve.
Qed.

Lemma counted_inline_samples strs hdr dp sb n j acc :
  triple (counted_inline_exits flat base)
    (counted_group flat base strs hdr dp sb acc)
    (for_upto n j (read_inline_sample d hdr dp sb) acc)
    (counted_inline flat base).
Proof.
  eapply triple_conseq.
  - apply (triple_for_upto (counted_inline_exits flat base)
             (fun _ a => counted_group flat base strs hdr dp sb a)
             (read_inline_sample d hdr dp sb) j (j + Z.of_nat n));
      [|lia|lia].
    intros i a _. apply counted_read_inline_sample.
  - auto.
  - intros a s H. apply H.
Qed.

Lemma counted_read_inline_group func_hdr k n :
  triple (counted_inline_exits flat base) (counted_inline flat base n)
    (read_inline_group d func_hdr k n) (counted_inline flat base).
Proof.
  intros s Hs. unfold read_inline_group. exec.
  all: try (eapply counted_inline_samples).
  all: count_solve.
Qed.

Lemma counted_read_inline_function func_hdr n :
  triple (counted_inline_exits flat base) (counted_inline flat base n)
    (read_inline_function d func_hdr n) (counted_inline flat base).
Proof.
  unfold read_inline_function. eapply triple_bind.
  - apply (triple_for_upto (counted_inline_exits flat base)
             (fun _ a => counted_inline flat base a)
             (read_inline_group d func_hdr) 0
             (0 + Z.of_nat (Z.to_nat (func_num_inline_entries func_hdr))));
      [|lia|lia].
    intros i a _. apply counted_read_inline_group.
  - intros a. apply triple_return. auto.
Qed.

End Counted.

Section CountedReader.

Variable base : Z.
Variable d : disk.

Lemma counted_read_flat_sample func_hdr j n :
  triple (counted_exits base) (counted base n)
    (read_flat_sample d func_hdr j n) (counted base).
Proof.
  intros s Hs. unfold read_flat_sample. exec; count_solve.
Qed.

Lemma counted_flat_samples func_hdr n j acc :
  triple (counted_exits base) (counted base acc)
    (for_upto n j (read_flat_sample d func_hdr) acc) (counted base).
Proof.
  apply (triple_for_upto (counted_exits base) (fun _ a => counted base a)
           (read_flat_sample d func_hdr) j (j + Z.of_nat n));
    [|lia|lia].
  intros i a _. apply counted_read_flat_sample.
Qed.

(** Between the per-line records of a function and its inline groups the
    count is taken over from one table to the other. *)
Lemma counted_split (acc : Z) (s : sp_state) :
  counted base acc s ->
  counted_inline (sp_htab s) (base + flat_entries s) acc s.
Proof.
  unfold counted, counted_inline, per_line_entries. intros ->.
  split; [reflexivity|]. f_equal. lia.
Qed.

Lemma counted_join (t : htab sample_freq_detail) (acc : Z) (s : sp_state) :
  counted_inline t (base + Z.of_nat (List.length t)) acc s ->
  counted base acc s.
Proof.
  unfold counted, counted_inline, per_line_entries, flat_entries.
  intros [-> ->]. f_equal. lia.
Qed.

Lemma counted_read_function i n :
  triple (counted_exits base) (counted base n) (read_function d i n)
    (counted base).
Proof.
  intros s Hs. unfold read_function, read_function_header. exec.
  all: try match goal with
           | |- context [for_upto ?k ?j (read_flat_sample d ?h) ?acc ?st] =>
               let H := fresh "Hloop" in
               assert (H : counted base acc st) by count_solve;
               apply (counted_flat_samples h k j acc st) in H;
               destruct (for_upto k j (read_flat_sample d h) acc st) eqn:?
           end.
  all: exec.
  all: try match goal with
           | H : counted base ?a ?st
             |- context [read_inline_function d ?h ?a ?st] =>
               apply counted_split in H;
               apply (counted_read_inline_function _ d _ h a st) in H;
               destruct (read_inline_function d h a st) eqn:?;
               cbn [on_return on_abort on_undefined counted_inline_exits] in H;
               try apply counted_join in H
           end.
  all: count_solve.
Qed.

Lemma counted_functions n j acc :
  triple (counted_exits base) (counted base acc)
    (for_upto n j (read_function d) acc) (counted base).
Proof.
  apply (triple_for_upto (counted_exits base) (fun _ a => counted base a)
           (read_function d) j (j + Z.of_nat n));
    [|lia|lia].
  intros i a _. apply counted_read_function.
Qed.

End CountedReader.

Lemma counted_sp_reader (base : Z) (in_file : option disk) :
  triple (counted_exits base) (counted base 0) (sp_reader in_file)
    (fun _ _ => False).
Proof.
  intros s Hs. unfold sp_reader. destruct in_file as [d|].
  - unfold read_string_table. exec.
    all: try match goal with
             | |- context [for_upto ?k ?j (read_function ?f) ?acc ?st] =>
                 let H := fresh "Hloop" in
                 assert (H : counted base acc st) by count_solve;
                 apply (counted_functions base f k j acc st) in H;
                 destruct (for_upto k j (read_function f) acc st) eqn:?
             end.
    all: count_solve.
  - exec. count_solve.
Qed.

Lemma counted_start (s : sp_state) (n : Z) :
  0 <= n < 2 ^ 64 -> counted (n - per_line_entries s) n s.
Proof.
  intros Hn. unfold counted, wrap_u64.
  replace (n - per_line_entries s + per_line_entries s) with n by lia.
  now rewrite Z.mod_small.
Qed.

Lemma counted_inline_start (s : sp_state) (n : Z) :
  0 <= n < 2 ^ 64 -> counted_inline (sp_htab s) (n - inline_entries s) n s.
Proof.
  intros Hn. unfold counted_inline, wrap_u64. split; [reflexivity|].
  replace (n - inline_entries s + inline_entries s) with n by lia.
  now rewrite Z.mod_small.
Qed.

Lemma gained_entries (s s' : sp_state) (l1 : htab sample_freq_detail)
  (l2 : htab sample_inline_freq) :
  sp_htab s' = sp_htab s ++ l1 ->
  sp_inline_htab s' = sp_inline_htab s ++ l2 ->
  per_line_entries s' - per_line_entries s
  = Z.of_nat (List.length l1)
    + Z.of_nat (List.length (filter per_line_slot l2)).
Proof.
  intros H1 H2. unfold per_line_entries, flat_entries, inline_entries.
  rewrite H1, H2, filter_app, !length_app. lia.
Qed.

(** X8.  The number [sp_reader] returns is the number of per-line records
    it has entered in the two tables, modulo 2^64: the slots that the flat
    table has gained plus the slots of a line other than 0 that the inline
    table has gained, the totals of call sites, which have line 0, being
    left out.  It is also the number of per-line records read less the
    duplicates reported.  The one exception is the 0 returned after a seek
    or a read of [sp_reader] or of its helpers has failed. *)
Theorem sp_reader_returns_the_number_of_records_entered
  (in_file : option disk) (s : sp_state) (v : Z) (s' : sp_state) :
  sp_reader in_file s = Return v s' ->
  exists new_flat new_inline,
    sp_htab s' = sp_htab s ++ new_flat
    /\ sp_inline_htab s' = sp_inline_htab s ++ new_inline
    /\ ((v = wrap_u64 (Z.of_nat (List.length new_flat)
                       + Z.of_nat (List.length
                                     (filter per_line_slot new_inline)))
         /\ v = wrap_u64 (records_entered s' - records_entered s))
        \/ (v = 0 /\ failed_outside s')).
Proof.
  intros Hrun.
  pose proof (stable_final _ _ s (grows_sp_reader s in_file) (grows_from_refl s))
    as [[l1 H1] [l2 H2]].
  rewrite Hrun in H1, H2. cbn [final_state] in H1, H2.
  exists l1, l2. split; [exact H1|]. split; [exact H2|].
  pose proof (counted_sp_reader (0 - per_line_entries s) in_file s
                (counted_start s 0 ltac:(lia))) as Hc.
  pose proof (tally_sp_reader (0 - records_entered s) in_file s
                (tally_start s 0 ltac:(lia))) as Ht.
  rewrite Hrun in Hc, Ht.
  destruct Hc as [Hc | Hc]; [|now right].
  destruct Ht as [Ht | Ht]; [|now right].
  left. split.
  - unfold counted in Hc. rewrite Hc, <- (gained_entries s s' l1 l2 H1 H2).
    f_equal. lia.
  - unfold tally in Ht. rewrite Ht. f_equal. lia.
Qed.

(** X9.  [read_inline_function] returns the count it was given plus the
    number of per-line records it has entered in the inline table, modulo
    2^64: the slots of a line other than 0 that the inline table has
    gained; the flat table is as it was.  This holds on every path: when a
    seek or a read fails in the middle of a group, the records entered until
    then stay counted. *)
Theorem read_inline_function_returns_the_running_count
  (d : disk) (func_hdr : func_sample_hdr) (num_samples : Z) (s : sp_state)
  (v : Z) (s' : sp_state) :
  0 <= num_samples < 2 ^ 64 ->
  read_inline_function d func_hdr num_samples s = Return v s' ->
  exists new_inline,
    sp_htab s' = sp_htab s
    /\ sp_inline_htab s' = sp_inline_htab s ++ new_inline
    /\ v = wrap_u64 (num_samples
                     + Z.of_nat (List.length
                                   (filter per_line_slot new_inline)))
    /\ v = wrap_u64 (num_samples + (records_entered s' - records_entered s)).
Proof.
  intros Hn Hrun.
  pose proof (stable_final _ _ s (grows_read_inline_function s d func_hdr
                                    num_samples) (grows_from_refl s))
    as [_ [l2 H2]].
  rewrite Hrun in H2. cbn [final_state] in H2.
  pose proof (counted_read_inline_function (num_samples - inline_entries s) d
                (sp_htab s) func_hdr num_samples s
                (counted_inline_start s num_samples Hn)) as Hc.
  pose proof (tally_read_inline_function (num_samples - records_entered s) d
                func_hdr num_samples s (tally_start s num_samples Hn)) as Ht.
  rewrite Hrun in Hc, Ht. cbn [on_return counted_inline_exits tally_exits] in *.
  destruct Hc as [Hflat Hc].
  exists l2. split; [exact Hflat|]. split; [exact H2|]. split.
  - rewrite Hc. f_equal. unfold inline_entries.
    rewrite H2, filter_app, length_app. lia.
  - unfold tally in Ht. rewrite Ht. f_equal. lia.
Qed.

(** X10.  After [init_sample_profile] the assertion of
    [gate_sample_profile] holds, and the pass runs only if the other
    profiling mode is off and [sp_reader] has returned a count that is not
    0, which is then the number of per-line records in the two tables: the
    slots of the flat table plus the slots of a line other than 0 of the
    inline table.  When the other mode is on, the file is not read at all:
    the tables and the count are left as they were. *)
Theorem sample_profile_stays_enabled_only_with_samples
  (flag_branch_probabilities : bool) (in_file : option disk) (s s' : sp_state) :
  init_sample_profile flag_branch_probabilities in_file s = Val tt s' ->
  gate_sample_profile flag_branch_probabilities s'
  = Val (flag_sample_profile s') s'
  /\ (flag_sample_profile s' = true ->
      flag_branch_probabilities = false
      /\ sp_num_samples s' <> 0
      /\ sp_num_samples s'
         = wrap_u64 (Z.of_nat (List.length (sp_htab s'))
                     + Z.of_nat (List.length
                                   (filter per_line_slot (sp_inline_htab s')))))
  /\ (flag_branch_probabilities = true ->
      flag_sample_profile s' = false
      /\ io_log s' = io_log s
      /\ sp_htab s' = sp_htab s
      /\ sp_inline_htab s' = sp_inline_htab s
      /\ sp_num_samples s' = sp_num_samples s).
Proof.
  unfold init_sample_profile, gate_sample_profile.
  destruct flag_branch_probabilities.
  - unfold_reader. simpl_state. intros [= <-]. simpl_state.
    split; [reflexivity|]. split; [discriminate|]. intros _.
    repeat split; reflexivity.
  - unfold_reader. simpl_state.
    set (s1 := set_sp_inline_htab [] (set_sp_htab [] s)).
    pose proof (counted_sp_reader (0 - per_line_entries s1) in_file s1
                  (counted_start s1 0 ltac:(lia))) as H.
    destruct (sp_reader in_file s1) as [a s2|v s2|s2|s2]; try discriminate;
      [contradiction|].
    cbn [on_return counted_exits] in H. simpl_state.
    destruct (Z.eqb_spec v 0) as [Hv | Hv]; simpl_state; intros [= <-];
      simpl_state; rewrite andb_false_r; cbn [negb];
      (split; [reflexivity|]); (split; [|discriminate]).
    + discriminate.
    + intros _. split; [reflexivity|]. split; [exact Hv|].
      destruct H as [H | [H _]]; [|contradiction].
      unfold counted in H. rewrite H. reflexivity.
Qed.

(** ** The stack of the records that a group enters *)

Lemma slots_of_group_refl (tab : htab sample_inline_freq) (sb : stack_ptr)
  (dp : Z) : slots_of_group tab sb dp tab.
Proof. intros slot Hin. now left. Qed.

Lemma slots_of_group_fill (tab0 tab : htab sample_inline_freq) (sb : stack_ptr)
  (dp : Z) (p : address) (r : sample_inline_freq) :
  slots_of_group tab0 sb dp tab -> inline_stack r = sb -> depth r = dp ->
  slots_of_group tab0 sb dp (htab_fill tab p r).
Proof.
  intros H Hsb Hdp slot Hin. unfold htab_fill in Hin.
  apply in_app_or in Hin as [Hin | [<- | []]]; [now apply H|].
  right. now split.
Qed.

Lemma group_slots_read_inline_sample (d : disk) (tab0 : htab sample_inline_freq)
  (hdr : func_sample_hdr) (dp : Z) (sb : stack_ptr) (j n : Z) :
  stable (fun s => slots_of_group tab0 sb dp (sp_inline_htab s))
    (read_inline_sample d hdr dp sb j n).
Proof.
  intros s Hs. unfold read_inline_sample. exec.
  all: cbn [always on_return on_abort on_undefined]; simpl_state.
  all: first [ exact Hs | apply slots_of_group_fill; [exact Hs | reflexivity..] ].
Qed.

(** An inline group with per-line records that is read to its end: every
    slot that the inline table has gained holds the stack set up for the
    group. *)
Lemma group_slots_read_inline_group (d : disk) (func_hdr : func_sample_hdr)
  (k curr_num_samples : Z) (s : sp_state) (inline_func_hdr : func_sample_hdr)
  (v : Z) (s' : sp_state) (entries : list fb_info_inline_stack_entry)
  (frs : list expanded_location) :
  d_seek d (inline_hdr_offset (fb_hdr s) func_hdr k) = true ->
  d_func_hdr d (inline_hdr_offset (fb_hdr s) func_hdr k)
    (fb_func_hdr_ent_size (fb_hdr s)) = Some inline_func_hdr ->
  0 < func_num_freq_entries inline_func_hdr < 2 ^ 64 - 1 ->
  read_inline_group d func_hdr k curr_num_samples s = Val v s' ->
  stack_entries_at d
    (wrap_u64 (fb_profile_offset (fb_hdr s)
               + inline_stack_offset inline_func_hdr))
    (Z.to_nat (inline_depth inline_func_hdr)) = Some entries ->
  set_up_stack_buf (Z.to_nat (inline_depth inline_func_hdr)) 0
    (inline_depth inline_func_hdr) (str_table s) entries
    (repeat zero_location (Z.to_nat (inline_depth inline_func_hdr)))
  = Some frs ->
  slots_of_group (sp_inline_htab s) (mk_stack_ptr (Heap (heap_blocks s) 0) frs)
    (inline_depth inline_func_hdr) (sp_inline_htab s').
Proof.
  intros Hseek Hhdr Hlines Hrun Hentries Hsetup.
  match goal with |- ?G => set (Concl := G) end. revert Hrun.
  unfold read_inline_group. unfold_reader.
  rewrite Hseek. cbn [negb]. simpl_state.
  rewrite (d_func_hdr_fits _ _ _ _ Hhdr), Hhdr. simpl_state.
  destruct (Z.eqb_spec (func_num_freq_entries inline_func_hdr) 0) as [|_]; [lia|].
  repeat (simpl_state; cbn [negb];
          match goal with
          | |- context [match ?x with _ => _ end] =>
              lazymatch x with
              | context [match _ with _ => _ end] => fail
              | for_upto _ _ _ _ _ => fail
              | _ => destruct x eqn:?; try (intros; discriminate)
              end
          end).
  all: intros Hrun.
  all: injection Hentries as ->.
  all: match goal with
       | H : set_up_stack_buf _ _ _ _ _ _ = Some ?fr |- _ =>
           rewrite Hsetup in H; injection H as <-
       end.
  all: match type of Hrun with
       | for_upto ?n ?j ?body ?acc ?st = _ =>
           assert (H0 : slots_of_group (sp_inline_htab s)
                          (mk_stack_ptr (Heap (heap_blocks s) 0) frs)
                          (inline_depth inline_func_hdr) (sp_inline_htab st))
             by (simpl_state;
                 first [ apply slots_of_group_refl
                       | apply slots_of_group_fill;
                         [apply slots_of_group_refl | reflexivity..] ]);
           pose proof (stable_final _ _ st
                         (keeps_for_upto (always _) _ body
                            (fun i a =>
                               group_slots_read_inline_sample d _ _ _ _ i a)
                            n j acc) H0) as Hfin;
           rewrite Hrun in Hfin; exact Hfin
       end.
Qed.

(** C6 (as amended).  When an inline group with per-line records is read
    to its end, the [inline_depth] stack entries that lie in the file at
    the offset the group's header gives have been set up, in reverse, in a
    buffer allocated for the group: for every [0 <= q < inline_depth], the
    frame at in-memory position [inline_depth - 1 - q] is the on-disk entry
    number [q], its file name resolved in the string table.  This is the
    stack that the records of the group's buffer hold, the call-site total
    included, and that every slot the inline table has gained holds. *)
Theorem inline_group_holds_the_reversed_stack (d : disk)
  (func_hdr : func_sample_hdr) (k curr_num_samples : Z) (s : sp_state)
  (inline_func_hdr : func_sample_hdr) (v : Z) (s' : sp_state) :
  d_seek d (inline_hdr_offset (fb_hdr s) func_hdr k) = true ->
  d_func_hdr d (inline_hdr_offset (fb_hdr s) func_hdr k)
    (fb_func_hdr_ent_size (fb_hdr s)) = Some inline_func_hdr ->
  0 < func_num_freq_entries inline_func_hdr < 2 ^ 64 - 1 ->
  read_inline_group d func_hdr k curr_num_samples s = Val v s' ->
  let dp := inline_depth inline_func_hdr in
  let off :=
    wrap_u64 (fb_profile_offset (fb_hdr s)
              + inline_stack_offset inline_func_hdr) in
  let num_lines := Z.to_nat (func_num_freq_entries inline_func_hdr) in
  let record i := nth i (snd (inline_sample_buf s')) zero_sample_inline_freq in
  exists stack_buf,
    0 < dp < FB_INLINE_MAX_STACK
    /\ stack_addr stack_buf = Heap (heap_blocks s) 0
    /\ List.length (frames stack_buf) = Z.to_nat dp
    /\ (forall q, 0 <= q < dp ->
          exists e,
            d_stack_entry d (off + q * sizeof_fb_info_inline_stack_entry)
            = Some e
            /\ nth (Z.to_nat (dp - 1 - q)) (frames stack_buf) zero_location
               = frame_of_entry (str_table s) e)
    /\ (forall i, (i <= num_lines)%nat ->
          inline_stack (record i) = stack_buf)
    /\ (forall slot,
          In slot (sp_inline_htab s') ->
          In slot (sp_inline_htab s)
          \/ (inline_stack (snd slot) = stack_buf /\ depth (snd slot) = dp)).
Proof.
  intros Hseek Hhdr Hlines Hrun dp off num_lines record.
  destruct (read_inline_group_completes _ _ _ _ _ _ _ _ Hseek Hhdr Hlines Hrun)
    as (entries & frs & Hdepth & Hentries & Hsetup & _ & Hstack & _).
  exists (mk_stack_ptr (Heap (heap_blocks s) 0) frs). cbn [stack_addr frames].
  destruct (stack_entries_at_spec _ _ _ _ Hentries) as [_ Hdisk].
  destruct (set_up_stack_buf_loop (inline_depth inline_func_hdr) (str_table s)
              entries (Z.to_nat (inline_depth inline_func_hdr)) 0
              (repeat zero_location (Z.to_nat (inline_depth inline_func_hdr))))
    as (buf & Hrun' & Hlen & Hnew & _); try lia.
  { rewrite repeat_length. lia. }
  rewrite Hsetup in Hrun'. injection Hrun' as <-.
  split; [exact Hdepth|]. split; [reflexivity|]. split.
  { rewrite Hlen. apply repeat_length. }
  split; [|split; [exact Hstack|]].
  - intros q Hq. exists (nth (Z.to_nat q) entries zero_stack_entry). split.
    + subst off. rewrite <- Hdisk by lia. rewrite Z2Nat.id by lia. reflexivity.
    + replace (dp - 1 - q) with (inline_depth inline_func_hdr - q - 1)
        by (subst dp; lia).
      apply Hnew. lia.
  - exact (group_slots_read_inline_group _ _ _ _ _ _ _ _ _ _ Hseek Hhdr Hlines
             Hrun Hentries Hsetup).
Qed.

(** A group without per-line record sets up no stack: the header is read
    and nothing else, neither the stack entries of the file nor a buffer
    for them. *)
Lemma group_without_records_sets_up_no_stack :
  exists s',
    d_func_hdr empty_group_file
      (inline_hdr_offset (fb_hdr before_groups) foo_hdr 0)
      (fb_func_hdr_ent_size (fb_hdr before_groups))
    = Some foo_empty_group_hdr
    /\ inline_depth foo_empty_group_hdr = 2
    /\ read_inline_group empty_group_file foo_hdr 0 1 before_groups = Val 1 s'
    /\ io_log s' = [(InlineHdrSeek, Done); (InlineHdrRead, Done)]
    /\ heap_blocks s' = heap_blocks before_groups
    /\ sp_inline_htab s' = []
    /\ snd (inline_sample_buf s') = [].
Proof. eexists. vm_compute. repeat split; reflexivity. Qed.

(** ** Where a failed seek or read leaves the reading *)

Lemma quiet_since_refl (s : sp_state) : quiet_since s s.
Proof. exists []. split; [now rewrite app_nil_r | intros e []]. Qed.

Lemma quiet_since_same (s0 s s' : sp_state) :
  quiet_since s0 s -> io_log s' = io_log s -> quiet_since s0 s'.
Proof. intros (new & Hlog & Hq) H. exists new. split; [congruence | exact Hq]. Qed.

Lemma quiet_since_snoc (s0 s s' : sp_state) (e : io_event) :
  quiet_since s0 s -> io_log s' = io_log s ++ [e] -> io_failed e = false ->
  quiet_since s0 s'.
Proof.
  intros (new & Hlog & Hq) H He. exists (new ++ [e]). split.
  - rewrite H, Hlog. now rewrite app_assoc.
  - intros e' Hin. apply in_app_or in Hin as [Hin | [<- | []]]; auto.
Qed.

Lemma failed_since_same (inl : bool) (s0 s s' : sp_state) :
  failed_since inl s0 s -> io_log s' = io_log s -> failed_since inl s0 s'.
Proof.
  intros (new & e & Hlog & Hq) H. exists new, e. split; [congruence | exact Hq].
Qed.

Lemma failed_since_snoc (inl : bool) (s0 s s' : sp_state) (e : io_event) :
  quiet_since s0 s -> io_log s' = io_log s ++ [e] -> io_failed e = true ->
  inline_site (fst e) = inl -> failed_since inl s0 s'.
Proof.
  intros (new & Hlog & Hq) H He Hsite. exists new, e.
  split; [|auto]. rewrite H, Hlog. now rewrite app_assoc.
Qed.

(** Follows the record of I/O through the updates of a state. *)
Ltac same_log := simpl_state; reflexivity.

Ltac quiet_step :=
  match goal with
  | H : quiet_since ?s0 ?s |- quiet_since ?s0 ?s => exact H
  | H : failed_since ?i ?s0 ?s |- failed_since ?i ?s0 ?s => exact H
  | |- quiet_since ?s0 (add_io ?e ?x) =>
      apply (quiet_since_snoc s0 x _ e); [|same_log|reflexivity]
  | |- failed_since ?i ?s0 (add_io ?e ?x) =>
      apply (failed_since_snoc i s0 x _ e);
        [|same_log|reflexivity|reflexivity]
  | |- quiet_since ?s0 (?f ?a ?x) =>
      apply (quiet_since_same s0 x); [|same_log]
  | |- failed_since ?i ?s0 (?f ?a ?x) =>
      apply (failed_since_same i s0 x); [|same_log]
  end.

Ltac quiet_solve :=
  unfold inline_io_exits, function_io_exits in *;
  cbn [on_return on_abort on_undefined]; simpl_state;
  first
    [ exact I
    | assumption
    | solve [repeat quiet_step]
    | left; solve [repeat quiet_step]
    | right; solve [repeat quiet_step]
    | idtac ].

Section Quiet.

Variable s0 : sp_state.
Variable d : disk.

Lemma quiet_read_inline_sample hdr dp sb j n :
  keeps (inline_io_exits s0) (quiet_since s0)
    (read_inline_sample d hdr dp sb j n).
Proof.
  intros s Hs. unfold read_inline_sample. exec; quiet_solve.
Qed.

Lemma quiet_read_inline_group func_hdr k n :
  keeps (inline_io_exits s0) (quiet_since s0)
    (read_inline_group d func_hdr k n).
Proof.
  intros s Hs. unfold read_inline_group. exec.
  all: try (apply keeps_for_upto; [intros; apply quiet_read_inline_sample|]).
  all: quiet_solve.
Qed.

Lemma quiet_read_inline_function func_hdr n :
  keeps (inline_io_exits s0) (quiet_since s0)
    (read_inline_function d func_hdr n).
Proof.
  unfold read_inline_function. apply keeps_bind.
  - apply keeps_for_upto. intros i a. apply quiet_read_inline_group.
  - intros a. apply triple_return. intros s Hs. now left.
Qed.

Lemma quiet_read_flat_sample func_hdr j n :
  keeps (function_io_exits s0) (quiet_since s0)
    (read_flat_sample d func_hdr j n).
Proof.
  intros s Hs. unfold read_flat_sample. exec; quiet_solve.
Qed.

(** The body of the loop of [sp_reader] completes after a failure in
    [read_inline_function], and returns after one of its own. *)
Lemma quiet_read_function i n :
  triple (function_io_exits s0) (quiet_since s0) (read_function d i n)
    (fun _ s => quiet_since s0 s \/ failed_since true s0 s).
Proof.
  intros s Hs. unfold read_function, read_function_header. exec.
  all: try match goal with
           | |- context [for_upto ?k ?j (read_flat_sample d ?h) ?acc ?st] =>
               let H := fresh "Hloop" in
               assert (H : quiet_since s0 st) by quiet_solve;
               apply (keeps_for_upto (function_io_exits s0) (quiet_since s0)
                        (read_flat_sample d h)
                        (quiet_read_flat_sample h) k j acc st) in H;
               destruct (for_upto k j (read_flat_sample d h) acc st) eqn:?
           end.
  all: exec.
  all: try match goal with
           | H : quiet_since s0 ?st
             |- context [read_inline_function d ?h ?a ?st] =>
               apply (quiet_read_inline_function h a st) in H;
               destruct (read_inline_function d h a st) eqn:?
           end.
  all: quiet_solve.
Qed.

End Quiet.

Lemma quiet_log_last (new log : list io_event) (e e' : io_event) :
  quiet_log log -> new = log ++ [e'] -> In e new -> io_failed e = true ->
  e = e'.
Proof.
  intros Hq -> Hin He. apply in_app_or in Hin as [Hin | [<- | []]];
    [|reflexivity].
  rewrite (Hq e Hin) in He. discriminate.
Qed.

Lemma failed_since_new (inl : bool) (s0 s : sp_state) (new : list io_event) :
  failed_since inl s0 s -> io_log s = io_log s0 ++ new ->
  exists log e,
    new = log ++ [e] /\ quiet_log log /\ io_failed e = true
    /\ inline_site (fst e) = inl.
Proof.
  intros (new' & e & Hlog & Hq & He & Hsite) Hnew.
  rewrite Hlog in Hnew. apply app_inv_head in Hnew. subst new.
  exists new', e. auto.
Qed.

Lemma quiet_since_new (s0 s : sp_state) (new : list io_event) :
  quiet_since s0 s -> io_log s = io_log s0 ++ new -> quiet_log new.
Proof.
  intros (new' & Hlog & Hq) Hnew.
  rewrite Hlog in Hnew. apply app_inv_head in Hnew. now subst new.
Qed.

(** What [sp_reader] does of a failed seek or read of its own: it returns
    0 right after it. *)
Lemma outside_failure_returns_0 (in_file : option disk) (s : sp_state)
  (e : io_event) :
  clean s -> io_failed e = true -> inline_site (fst e) = false ->
  In e (io_log (final_state (sp_reader in_file s))) ->
  exists s' log,
    sp_reader in_file s = Return 0 s' /\ io_log s' = log ++ [e].
Proof.
  intros Hs Hfail Hsite Hin.
  pose proof (reader_sp_reader in_file s Hs) as H.
  destruct (sp_reader in_file s) as [a s'|v s'|s'|s']; simpl in H, Hin;
    try (specialize (H e Hin Hfail); congruence).
  destruct H as [H | [-> (log & e' & Hlog & _ & _ & Hlogclean)]].
  - specialize (H e Hin Hfail). congruence.
  - rewrite Hlog in Hin. apply in_app_or in Hin as [Hin | [<- | []]].
    + specialize (Hlogclean e Hin Hfail). congruence.
    + exists s', log. auto.
Qed.

(** C3 (as amended).  When a seek or read issued by [sp_reader] itself or by
    [read_file_header], [read_string_table] or [read_function_header] fails
    (file header, string table, a function header, the per-line records of
    a function), the reading stops there: that failure is the last I/O
    performed and [sp_reader] returns 0; [init_sample_profile] then records
    0 samples and clears [flag_sample_profile].  When a seek or read of
    [read_inline_function] fails, that failure is the last thing
    [read_inline_function] does: it returns the count it was given plus the
    number of per-line records it has entered in the inline table until
    then; in [sp_reader] the iteration for the function completes with that
    count, and the loop goes on with the next function. *)
Theorem io_error_ends_the_reading_or_the_inline_groups
  (in_file : option disk) (d : disk) (func_hdr : func_sample_hdr)
  (i n : Z) (s : sp_state) :
  (forall e,
      clean s -> io_failed e = true -> inline_site (fst e) = false ->
      (In e (io_log (final_state (sp_reader in_file s))) ->
       exists s' log,
         sp_reader in_file s = Return 0 s' /\ io_log s' = log ++ [e])
      /\ (In e (io_log (final_state (init_sample_profile false in_file s))) ->
          exists s',
            init_sample_profile false in_file s = Val tt s'
            /\ sp_num_samples s' = 0
            /\ flag_sample_profile s' = false))
  /\ (0 <= n < 2 ^ 64 ->
      let s' := final_state (read_inline_function d func_hdr n s) in
      exists new,
        io_log s' = io_log s ++ new
        /\ forall e, In e new -> io_failed e = true ->
             exists log new_inline,
               new = log ++ [e]
               /\ quiet_log log
               /\ sp_htab s' = sp_htab s
               /\ sp_inline_htab s' = sp_inline_htab s ++ new_inline
               /\ read_inline_function d func_hdr n s
                  = Return
                      (wrap_u64
                         (n + Z.of_nat (List.length
                                          (filter per_line_slot new_inline))))
                      s')
  /\ (0 <= n < 2 ^ 64 ->
      let s' := final_state (read_function d i n s) in
      exists new,
        io_log s' = io_log s ++ new
        /\ forall e, In e new -> io_failed e = true ->
             inline_site (fst e) = true ->
             exists log new_flat new_inline v,
               new = log ++ [e]
               /\ quiet_log log
               /\ sp_htab s' = sp_htab s ++ new_flat
               /\ sp_inline_htab s' = sp_inline_htab s ++ new_inline
               /\ v = wrap_u64
                        (n + (Z.of_nat (List.length new_flat)
                              + Z.of_nat (List.length
                                            (filter per_line_slot
                                               new_inline))))
               /\ read_function d i n s = Val v s'
               /\ forall m,
                    for_upto (S m) i (read_function d) n s
                    = for_upto m (i + 1) (read_function d) v s').
Proof.
  split; [|split].
  - intros e Hclean Hfail Hsite.
    split; [now apply outside_failure_returns_0|].
    intros Hin.
    set (s1 := set_sp_inline_htab [] (set_sp_htab [] s)).
    assert (Hlog : io_log (final_state (init_sample_profile false in_file s))
                   = io_log (final_state (sp_reader in_file s1))).
    { unfold init_sample_profile. unfold_reader. fold s1.
      destruct (sp_reader in_file s1) as [a s'|v s'|s'|s']; simpl_state;
        try reflexivity.
      - destruct (a =? 0); reflexivity.
      - destruct (v =? 0); reflexivity. }
    rewrite Hlog in Hin.
    destruct (outside_failure_returns_0 in_file s1 e Hclean Hfail Hsite Hin)
      as (s' & log & Hrun & _).
    unfold init_sample_profile. unfold_reader. fold s1. rewrite Hrun.
    cbn [Z.eqb]. eexists. split; [reflexivity|]. split; reflexivity.
  - intros Hn s'.
    pose proof (quiet_read_inline_function s d func_hdr n s (quiet_since_refl s))
      as Hq.
    pose proof (counted_read_inline_function (n - inline_entries s) d
                  (sp_htab s) func_hdr n s (counted_inline_start s n Hn)) as Hc.
    pose proof (stable_final _ _ s (grows_read_inline_function s d func_hdr n)
                  (grows_from_refl s)) as [_ [l2 H2]].
    fold s' in H2. subst s'.
    destruct (read_inline_function d func_hdr n s) as [a s'|v s'|s'|s'] eqn:Hrun;
      cbn [final_state on_return on_abort on_undefined inline_io_exits
           counted_inline_exits] in *.
    2: destruct Hq as [Hq | Hq].
    1,2,4,5: destruct Hq as (new & Hlog & Hquiet); exists new;
      (split; [exact Hlog|]); intros e Hin He;
      rewrite (Hquiet e Hin) in He; discriminate.
    destruct Hq as (new & e' & Hlog & Hquiet & He' & _).
    exists (new ++ [e']). split; [exact Hlog|]. intros e Hin He.
    rewrite (quiet_log_last _ new e e' Hquiet eq_refl Hin He).
    destruct Hc as [Hflat Hc].
    exists new, l2. split; [reflexivity|]. split; [exact Hquiet|].
    split; [exact Hflat|]. split; [exact H2|].
    f_equal. rewrite Hc. f_equal. unfold inline_entries.
    rewrite H2, filter_app, length_app. lia.
  - intros Hn s'.
    pose proof (quiet_read_function s d i n s (quiet_since_refl s)) as Hq.
    pose proof (counted_read_function (n - per_line_entries s) d i n s
                  (counted_start s n Hn)) as Hc.
    pose proof (stable_final _ _ s (grows_read_function s d i n)
                  (grows_from_refl s)) as [[l1 H1] [l2 H2]].
    fold s' in H1, H2. subst s'.
    destruct (read_function d i n s) as [a s'|v s'|s'|s'] eqn:Hrun;
      cbn [final_state on_return on_abort on_undefined function_io_exits
           counted_exits] in *.
    1: destruct Hq as [Hq | Hq].
    1,4,5: destruct Hq as (new & Hlog & Hquiet); exists new;
      (split; [exact Hlog|]); intros e Hin He;
      rewrite (Hquiet e Hin) in He; discriminate.
    + destruct Hq as (new & e' & Hlog & Hquiet & He' & _).
      exists (new ++ [e']). split; [exact Hlog|]. intros e Hin He _.
      rewrite (quiet_log_last _ new e e' Hquiet eq_refl Hin He).
      exists new, l1, l2, a. split; [reflexivity|]. split; [exact Hquiet|].
      split; [exact H1|]. split; [exact H2|]. split.
      * unfold counted in Hc. rewrite Hc, <- (gained_entries s s' l1 l2 H1 H2).
        f_equal. lia.
      * split; [reflexivity|]. intros m. cbn [for_upto]. unfold bind.
        now rewrite Hrun.
    + destruct Hq as (new & e' & Hlog & Hquiet & He' & Hsite).
      exists (new ++ [e']). split; [exact Hlog|]. intros e Hin He Hinl.
      rewrite (quiet_log_last _ new e e' Hquiet eq_refl Hin He) in Hinl.
      congruence.
Qed.

(** ** The records read and the records of the file *)

Lemma samples_of_log_snoc (log : list io_event) (e : io_event) :
  samples_of_log (log ++ [e])
  = samples_of_log log ++ match snd e with
                          | Sample r => [r]
                          | _ => []
                          end.
Proof.
  unfold samples_of_log. rewrite flat_map_app. cbn [flat_map].
  now rewrite app_nil_r.
Qed.

Lemma quiet_log_snoc_inv (log : list io_event) (e : io_event) :
  quiet_log (log ++ [e]) -> quiet_log log /\ io_failed e = false.
Proof.
  intros H. split.
  - intros e' Hin. apply H. apply in_or_app. now left.
  - apply H. apply in_or_app. right. now left.
Qed.

(** Takes the record of I/O of the state reached apart, down to the one of
    the state the run began in; a failure on record ends the case. *)
Ltac quiet_inv Hq :=
  cbn [io_log set_fb_hdr set_str_table set_sp_htab set_sample_buf
       set_sp_inline_htab set_inline_sample_buf set_sp_max_count
       set_sp_num_samples set_flag_sample_profile set_heap_blocks set_file_pos
       add_diagnostic add_io] in Hq;
  repeat (let He := fresh "He" in
          apply quiet_log_snoc_inv in Hq; destruct Hq as [Hq He];
          try discriminate He; clear He).

Ltac cover_intro Hs :=
  unfold quiet_exits, unless_failed in *;
  cbn [on_return on_abort on_undefined];
  try exact I;
  let Hq := fresh "Hq" in
  intros Hq; quiet_inv Hq; specialize (Hs Hq);
  unfold to_read_at, to_read in *; simpl_state.

Ltac sample_read Hs :=
  let Hpos := fresh "Hpos" in
  let Hh := fresh "Hh" in
  let Hall := fresh "Hall" in
  destruct Hs as (Hpos & Hh & Hall);
  rewrite <- Hpos in *; cbn [samples_from] in Hall;
  repeat match goal with
         | H : d_sample _ _ = Some _ |- _ => rewrite H in Hall
         end;
  rewrite ?samples_of_log_snoc; cbn [snd]; rewrite <- ?app_assoc;
  repeat split; first [assumption | reflexivity | exact Hall].

Ltac header_read Hs :=
  let Hh := fresh "Hh" in
  let Hall := fresh "Hall" in
  destruct Hs as (Hh & Hall);
  rewrite <- Hh in *;
  unfold group_samples, group_offset, function_samples, flat_offset,
    func_hdr_offset in Hall |- *;
  repeat match goal with
         | H : d_func_hdr _ _ _ = Some _ |- _ => rewrite H in Hall
         | H : (?x =? 0) = true |- _ => apply Z.eqb_eq in H; rewrite H in *
         end;
  cbn [Z.to_nat samples_from app] in Hall;
  rewrite <- ?app_assoc in Hall;
  rewrite ?samples_of_log_snoc; cbn [snd]; rewrite ?app_nil_r;
  rewrite <- ?app_assoc;
  repeat split; first [assumption | reflexivity | exact Hall | idtac].

Section Coverage.

Variable d : disk.
Variable h : fb_sample_hdr.
Variable P : Z -> sp_state -> Prop.

Lemma cover_read_flat_sample fh j n off rest all tail :
  triple (quiet_exits P)
    (unless_failed
       (to_read_at h off (samples_from d off (S rest) ++ tail) all))
    (read_flat_sample d fh j n)
    (fun _ =>
       unless_failed
         (to_read_at h (off + sizeof_fb_info_freq)
            (samples_from d (off + sizeof_fb_info_freq) rest ++ tail) all)).
Proof.
  intros s Hs. unfold read_flat_sample. exec.
  all: cover_intro Hs.
  all: sample_read Hs.
Qed.

Lemma cover_read_inline_sample hdr dp sb j n off rest all tail :
  triple (quiet_exits P)
    (unless_failed
       (to_read_at h off (samples_from d off (S rest) ++ tail) all))
    (read_inline_sample d hdr dp sb j n)
    (fun _ =>
       unless_failed
         (to_read_at h (off + sizeof_fb_info_freq)
            (samples_from d (off + sizeof_fb_info_freq) rest ++ tail) all)).
Proof.
  intros s Hs. unfold read_inline_sample. exec.
  all: cover_intro Hs.
  all: sample_read Hs.
Qed.

(** A loop that reads one per-line record in each iteration reads the [n]
    records that lie at [off]. *)
Lemma cover_samples (body : Z -> Z -> M sp_state Z) (n : nat) (acc : Z)
  (off : Z) (all tail : list fb_info_freq) :
  (forall j a o rest,
      triple (quiet_exits P)
        (unless_failed
           (to_read_at h o (samples_from d o (S rest) ++ tail) all))
        (body j a)
        (fun _ =>
           unless_failed
             (to_read_at h (o + sizeof_fb_info_freq)
                (samples_from d (o + sizeof_fb_info_freq) rest ++ tail) all))) ->
  triple (quiet_exits P)
    (unless_failed (to_read_at h off (samples_from d off n ++ tail) all))
    (for_upto n 0 body acc)
    (fun _ => unless_failed (to_read h tail all)).
Proof.
  intros Hbody. eapply triple_conseq.
  - apply (triple_for_upto (quiet_exits P)
             (fun i _ =>
                unless_failed
                  (to_read_at h (off + i * sizeof_fb_info_freq)
                     (samples_from d (off + i * sizeof_fb_info_freq)
                        (Z.to_nat (Z.of_nat n - i)) ++ tail) all))
             body 0 (0 + Z.of_nat n)); [|lia|lia].
    intros i a Hi.
    replace (Z.to_nat (Z.of_nat n - i))
      with (S (Z.to_nat (Z.of_nat n - (i + 1)))) by lia.
    replace (off + (i + 1) * sizeof_fb_info_freq)
      with (off + i * sizeof_fb_info_freq + sizeof_fb_info_freq) by lia.
    apply Hbody.
  - intros s Hs. rewrite Z.mul_0_l, Z.add_0_r, Z.sub_0_r, Nat2Z.id. exact Hs.
  - intros a s Hs Hq. specialize (Hs Hq).
    replace (Z.to_nat (Z.of_nat n - (0 + Z.of_nat n))) with O in Hs by lia.
    apply Hs.
Qed.

Lemma cover_read_inline_group fh k n all tail :
  triple (quiet_exits P)
    (unless_failed (to_read h (group_samples d h fh k ++ tail) all))
    (read_inline_group d fh k n)
    (fun _ => unless_failed (to_read h tail all)).
Proof.
  intros s Hs. unfold read_inline_group. exec.
  all: try (eapply (cover_samples _ _ _ _ all tail);
            [intros; apply cover_read_inline_sample|]).
  all: cover_intro Hs.
  all: header_read Hs.
Qed.

(** A loop whose iteration [k] reads the records [g k] reads those of all
    its iterations. *)
Lemma cover_loop (body : Z -> Z -> M sp_state Z)
  (g : Z -> list fb_info_freq) (n : nat) (acc : Z)
  (all tail : list fb_info_freq) :
  (forall k a rest,
      0 <= k ->
      triple (quiet_exits P)
        (unless_failed (to_read h (g k ++ rest) all))
        (body k a)
        (fun _ => unless_failed (to_read h rest all))) ->
  triple (quiet_exits P)
    (unless_failed
       (to_read h (flat_map g (map Z.of_nat (seq 0 n)) ++ tail) all))
    (for_upto n 0 body acc)
    (fun _ => unless_failed (to_read h tail all)).
Proof.
  intros Hbody. eapply triple_conseq.
  - apply (triple_for_upto (quiet_exits P)
             (fun i _ =>
                unless_failed
                  (to_read h
                     (flat_map g
                        (map Z.of_nat
                           (seq (Z.to_nat i) (Z.to_nat (Z.of_nat n - i))))
                      ++ tail) all))
             body 0 (0 + Z.of_nat n)); [|lia|lia].
    intros i a Hi.
    replace (Z.to_nat (Z.of_nat n - i))
      with (S (Z.to_nat (Z.of_nat n - (i + 1)))) by lia.
    cbn [seq map flat_map]. rewrite Z2Nat.id by lia.
    replace (S (Z.to_nat i)) with (Z.to_nat (i + 1)) by lia.
    rewrite <- app_assoc. apply Hbody. lia.
  - intros s Hs. rewrite Z.sub_0_r, Nat2Z.id. exact Hs.
  - intros a s Hs Hq. specialize (Hs Hq).
    replace (Z.to_nat (Z.of_nat n - (0 + Z.of_nat n))) with O in Hs by lia.
    apply Hs.
Qed.

End Coverage.

Section CoverageOfFunctions.

Variable d : disk.
Variable h : fb_sample_hdr.

Lemma cover_read_inline_function fh n all tail :
  triple (quiet_exits (fun _ => to_read h tail all))
    (unless_failed
       (to_read h
          (flat_map (group_samples d h fh)
             (indices (func_num_inline_entries fh)) ++ tail) all))
    (read_inline_function d fh n)
    (fun _ => unless_failed (to_read h tail all)).
Proof.
  unfold read_inline_function. eapply triple_bind.
  - apply (cover_loop h _ (read_inline_group d fh) (group_samples d h fh)).
    intros k a rest _. apply cover_read_inline_group.
  - intros a. apply triple_return. auto.
Qed.

Lemma indices_nonpositive (n : Z) : (n >? 0) = false -> indices n = [].
Proof.
  intros H. unfold indices. replace (Z.to_nat n) with O by lia. reflexivity.
Qed.

Variable P : Z -> sp_state -> Prop.

Lemma cover_read_function i n all tail :
  triple (quiet_exits P)
    (unless_failed (to_read h (function_samples d h i ++ tail) all))
    (read_function d i n)
    (fun _ => unless_failed (to_read h tail all)).
Proof.
  intros s Hs. unfold read_function, read_function_header. exec.
  all: try match goal with
           | |- context [for_upto ?k ?j (read_flat_sample d ?f) ?acc ?st] =>
               let H := fresh "Hloop" in
               assert (H : unless_failed
                             (to_read_at h (flat_offset h f)
                                (samples_from d (flat_offset h f) k
                                 ++ flat_map (group_samples d h f)
                                      (indices (func_num_inline_entries f))
                                 ++ tail) all) st)
                 by (cover_intro Hs; header_read Hs);
               apply (cover_samples d h P (read_flat_sample d f) k acc _ all _
                        (fun j0 a0 o0 rest0 =>
                           cover_read_flat_sample d h P f j0 a0 o0 rest0 all _)
                        st) in H;
               destruct (for_upto k j (read_flat_sample d f) acc st) eqn:?
           end.
  all: exec.
  all: try match goal with
           | H : unless_failed _ ?st
             |- context [read_inline_function d ?f ?a ?st] =>
               apply (cover_read_inline_function f a all tail st) in H;
               destruct (read_inline_function d f a st) eqn:?
           end.
  all: try match goal with
           | He : (func_num_inline_entries ?f >? 0) = false,
             H : unless_failed _ ?st |- unless_failed _ ?st =>
               rewrite (indices_nonpositive _ He) in H; exact H
           end.
  all: try assumption.
  all: try exact I.
  all: cover_intro Hs.
Qed.

End CoverageOfFunctions.

Section CoverageOfFile.

Variable d : disk.
Variable h : fb_sample_hdr.

Lemma cover_sp_reader (all : list fb_info_freq) :
  d_header d = Some h ->
  triple (quiet_exits (fun _ s => samples_of_log (io_log s) = all))
    (fun s => samples_of_log (io_log s) ++ file_samples d = all)
    (sp_reader (Some d)) (fun _ _ => False).
Proof.
  intros Hh s Hs. unfold sp_reader, read_string_table. exec.
  all: try match goal with
           | H : negb _ = _ |- _ => cbn in H; discriminate H
           end.
  all: try match goal with
           | |- context [for_upto ?k ?j (read_function d) ?acc ?st] =>
               let H := fresh "Hloop" in
               assert (H : unless_failed
                             (to_read h
                                (flat_map (function_samples d h)
                                   (map Z.of_nat (seq 0 k)) ++ []) all) st)
                 by (intros Hq; unfold to_read; simpl_state;
                     rewrite !samples_of_log_snoc; cbn [snd];
                     rewrite !app_nil_r; unfold file_samples in Hs;
                     match goal with
                     | H : d_header _ = Some _ |- _ => rewrite H in Hs
                     end;
                     match goal with
                     | H : Some _ = Some _ |- _ => injection H as ->
                     end;
                     split; [reflexivity | exact Hs]);
               apply (cover_loop h
                        (fun _ s1 => samples_of_log (io_log s1) = all)
                        (read_function d) (function_samples d h)
                        k acc all []
                        (fun k0 a0 rest0 _ =>
                           cover_read_function d h _ k0 a0 all rest0) st)
                 in H;
               destruct (for_upto k j (read_function d) acc st) eqn:?
           end.
  all: cbn [on_return on_abort on_undefined quiet_exits]; try exact I.
  all: try match goal with
           | H : unless_failed (to_read _ [] _) ?st |- unless_failed _ ?st =>
               intros Hq; destruct (H Hq) as [_ Hall];
               rewrite app_nil_r in Hall; exact Hall
           end.
  all: try assumption.
  all: intros Hq; quiet_inv Hq.
Qed.

End CoverageOfFile.

Lemma max_sample_freq_samples (log : list io_event) :
  max_sample_freq log = max_freq (samples_of_log log) 0.
Proof.
  unfold max_sample_freq, max_freq. generalize 0.
  induction log as [|e log IH]; intros m; [reflexivity|].
  cbn [fold_left samples_of_log flat_map]. rewrite IH.
  destruct (snd e); reflexivity.
Qed.

Lemma max_freq_ge (rs : list fb_info_freq) :
  forall m, m <= max_freq rs m
            /\ forall r, In r rs -> fi_freq r <= max_freq rs m.
Proof.
  unfold max_freq. induction rs as [|x rs IH]; intros m.
  - split; [reflexivity | intros r []].
  - cbn [fold_left]. destruct (IH (Z.max m (fi_freq x))) as [H1 H2].
    split; [lia|]. intros r [<- | Hin]; [lia | now apply H2].
Qed.

Lemma max_freq_attained (rs : list fb_info_freq) :
  forall m, max_freq rs m = m
            \/ exists r, In r rs /\ max_freq rs m = fi_freq r.
Proof.
  unfold max_freq. induction rs as [|x rs IH]; intros m.
  - now left.
  - cbn [fold_left]. destruct (IH (Z.max m (fi_freq x))) as [H | (r & Hin & H)].
    + rewrite H. destruct (Z.max_spec m (fi_freq x)) as [[_ ->] | [_ ->]].
      * right. exists x. split; [now left | reflexivity].
      * now left.
    + right. exists r. split; [now right | exact H].
Qed.

(** A file whose header cannot be read leaves a failure on record. *)
Lemma no_header_is_a_failure (d : disk) (s : sp_state) :
  d_header d = None ->
  ~ quiet_log (io_log (final_state (sp_reader (Some d) s))).
Proof.
  intros Hd Hq. unfold sp_reader in Hq. unfold_reader. unfold bind in Hq.
  unfold read_file_header in Hq. rewrite Hd in Hq. cbn in Hq.
  quiet_inv Hq.
Qed.

(** C9.  Whatever part of a file is read, from a state in which
    [sp_max_count] is the largest frequency among the per-line records read
    so far, it is again so when the reading returns, completes or stops at a
    failed assertion: every per-line record read, of a function or of an
    inline group, is compared with it as soon as it is read, before the
    table is searched for its key, and nothing else is ever compared with
    it.  When a whole file is read without a failed seek or read, the
    per-line records read are exactly the per-line records of the file, of
    its functions and of their inline groups, each one once whatever its
    key; [sp_max_count] is then the largest of their frequencies (0 when
    none is positive): no record of the file exceeds it, and it is the
    frequency of one of them, not the total of a call site, which is a
    field of a header.  It is the maximum published in the summary of every
    function whose profile is found usable. *)
Theorem sp_max_count_covers_every_record_read (step : reading_step)
  (s : sp_state) (d : disk) :
  (max_up_to_date s ->
   match run_step step s with
   | Undefined _ => True
   | o => sp_max_count (final_state o) = max_sample_freq (io_log (final_state o))
   end)
  /\ (forall v s',
        io_log s = [] ->
        sp_max_count s = 0 ->
        sp_reader (Some d) s = Return v s' ->
        quiet_log (io_log s') ->
        samples_of_log (io_log s') = file_samples d
        /\ sp_max_count s' = max_freq (file_samples d) 0
        /\ (forall r, In r (file_samples d) -> fi_freq r <= sp_max_count s')
        /\ (sp_max_count s' = 0
            \/ exists r, In r (file_samples d) /\ sp_max_count s' = fi_freq r)
        /\ forall expand_location sp_smooth_cfg f bbs n mx f1,
             for_each (basic_blocks f)
               (annotate_and_count expand_location s' (assembler_name f))
               ([], 0, 0) f
             = Val (bbs, n, mx) f1 ->
             profile_usable n (n_basic_blocks f) = true ->
             exists f',
               sp_annotate_cfg expand_location sp_smooth_cfg s' f = Val tt f'
               /\ profile_status f' = PROFILE_READ
               /\ profile_info f'
                  = Some (mk_gcov_ctr_summary 1
                            (max_freq (file_samples d) 0))).
Proof.
  split.
  - intros Hs. pose proof (max_run_step step s Hs) as H.
    destruct (run_step step s); exact H.
  - intros v s' Hlog Hmax Hrun Hq.
    assert (Hsamples : samples_of_log (io_log s') = file_samples d).
    { destruct (d_header d) as [h|] eqn:Hd.
      - pose proof (cover_sp_reader d h (file_samples d) Hd s) as H.
        rewrite Hrun in H. apply H; [|exact Hq].
        rewrite Hlog. reflexivity.
      - exfalso. apply (no_header_is_a_failure d s Hd).
        rewrite Hrun. exact Hq. }
    assert (Hcount : sp_max_count s' = max_freq (file_samples d) 0).
    { pose proof (max_sp_reader (Some d) s) as H.
      unfold keeps, triple in H. rewrite Hrun in H.
      cbn [on_return max_exits] in H. unfold max_up_to_date in H.
      rewrite H, max_sample_freq_samples, Hsamples; [reflexivity|].
      rewrite Hlog. exact Hmax. }
    split; [exact Hsamples|]. split; [exact Hcount|]. split; [|split].
    + intros r Hin. rewrite Hcount. now apply max_freq_ge.
    + rewrite Hcount. apply max_freq_attained.
    + intros expand_location sp_smooth_cfg f bbs n mx f1 Hloop Huse.
      rewrite (sp_annotate_cfg_after_loop _ sp_smooth_cfg _ _ _ _ _ _ Hloop),
        Huse.
      eexists. split; [reflexivity|]. split; [reflexivity|].
      cbn [profile_info set_profile_info]. now rewrite Hcount.
Qed.

(** ** The properties at the example inputs *)

(** Membership in an explicit list. *)
Ltac in_list := simpl; repeat first [left; reflexivity | right].

Lemma inline_group_holds_the_reversed_stack_witness :
  let s' := final_state (read_inline_group sample_file foo_hdr 0 1
                           before_groups) in
  let record i := nth i (snd (inline_sample_buf s')) zero_sample_inline_freq in
  exists stack_buf,
    0 < 2 < FB_INLINE_MAX_STACK
    /\ stack_addr stack_buf = Heap 0 0
    /\ List.length (frames stack_buf) = Z.to_nat 2
    /\ (forall q, 0 <= q < 2 ->
          exists e,
            d_stack_entry sample_file
              (296 + q * sizeof_fb_info_inline_stack_entry) = Some e
            /\ nth (Z.to_nat (2 - 1 - q)) (frames stack_buf) zero_location
               = frame_of_entry sample_strings e)
    /\ (forall i, (i <= 2)%nat -> inline_stack (record i) = stack_buf)
    /\ (forall slot,
          In slot (sp_inline_htab s') ->
          In slot (sp_inline_htab before_groups)
          \/ (inline_stack (snd slot) = stack_buf /\ depth (snd slot) = 2)).
Proof.
  refine (inline_group_holds_the_reversed_stack sample_file foo_hdr 0 1
            before_groups foo_group_hdr 3
            (final_state (read_inline_group sample_file foo_hdr 0 1
                            before_groups))
            _ _ _ _).
  - reflexivity.
  - reflexivity.
  - cbv. split; reflexivity.
  - vm_compute. reflexivity.
Defined.


Lemma block_count_is_weighted_average_witness :
  sp_annotate_bb line_map small_tables "foo" (block_at 2 [1; 2; 1; 9]) tt
  = Val (set_count 8 (block_at 2 [1; 2; 1; 9])) tt.
Proof.
  refine (block_count_is_weighted_average line_map small_tables "foo"
            (block_at 2 [1; 2; 1; 9]) unit tt _ _ _ _ _ _).
  - intros stmt Hin _. simpl in Hin.
    repeat (destruct Hin as [<- | Hin]; [cbv; lia|]). contradiction.
  - vm_compute. lia.
  - vm_compute. lia.
  - intros m Hin. vm_compute in Hin.
    repeat (destruct Hin as [<- | Hin]; [cbv; split; discriminate|]).
    contradiction.
  - reflexivity.
  - reflexivity.
Defined.

(** A block without matched instruction gets the count 0, whether it
    matches no record or a record without sampled instruction. *)
Lemma block_without_matched_instruction :
  sp_annotate_bb line_map small_tables "foo" (block_at 3 [9]) tt
  = Val (set_count 0 (block_at 3 [9])) tt
  /\ sp_annotate_bb line_map small_tables "foo" (block_at 4 [3]) tt
     = Val (set_count 0 (block_at 4 [3])) tt.
Proof. split; reflexivity. Qed.

Lemma profile_is_usable_iff_witness :
  sp_annotate_cfg line_map no_smoothing small_tables (foo_cfg [block_at 2 [1; 2]])
  = Val tt
      (set_profile_info (Some (mk_gcov_ctr_summary 1 30))
         (set_profile_status PROFILE_READ
            (no_smoothing
               (set_basic_blocks [set_count 8 (block_at 2 [1; 2])]
                  (foo_cfg [block_at 2 [1; 2]]))))).
Proof.
  assert (Hrun :
    for_each (basic_blocks (foo_cfg [block_at 2 [1; 2]]))
      (annotate_and_count line_map small_tables
         (assembler_name (foo_cfg [block_at 2 [1; 2]]))) ([], 0, 0)
      (foo_cfg [block_at 2 [1; 2]])
    = Val ([set_count 8 (block_at 2 [1; 2])], 1, 8)
        (foo_cfg [block_at 2 [1; 2]])) by reflexivity.
  destruct (profile_is_usable_iff line_map no_smoothing small_tables _ _ _ _ _
              Hrun) as (_ & _ & _ & Huse & _).
  apply Huse. right. split; reflexivity.
Defined.

Lemma io_error_ends_the_reading_or_the_inline_groups_witness :
  let s := set_file_pos 280 before_groups in
  ((exists s' log,
       sp_reader (Some flat_cut_file) s = Return 0 s'
       /\ io_log s' = log ++ [(FlatRead, Failed)])
   /\ (exists s',
         init_sample_profile false (Some flat_cut_file) s = Val tt s'
         /\ sp_num_samples s' = 0
         /\ flag_sample_profile s' = false))
  /\ (let s' := final_state (read_inline_function truncated_file foo_hdr 1 s) in
      exists new,
        io_log s' = io_log s ++ new
        /\ forall e, In e new -> io_failed e = true ->
             exists log new_inline,
               new = log ++ [e]
               /\ quiet_log log
               /\ sp_htab s' = sp_htab s
               /\ sp_inline_htab s' = sp_inline_htab s ++ new_inline
               /\ read_inline_function truncated_file foo_hdr 1 s
                  = Return
                      (wrap_u64
                         (1 + Z.of_nat (List.length
                                          (filter per_line_slot new_inline))))
                      s').
Proof.
  intros s.
  destruct (io_error_ends_the_reading_or_the_inline_groups
              (Some flat_cut_file) truncated_file foo_hdr 0 1 s)
    as (Houtside & Hinline & _).
  split.
  - assert (Hclean : clean s) by (intros e []).
    destruct (Houtside (FlatRead, Failed) Hclean eq_refl eq_refl)
      as [Hreader Hinit].
    split; [apply Hreader | apply Hinit]; vm_compute; in_list.
  - apply Hinline. lia.
Defined.

Lemma first_record_of_group_owns_the_stack_witness :
  let s' := final_state (read_inline_group sample_file foo_hdr 0 1 before_groups) in
  let buf := snd (inline_sample_buf s') in
  let record i := nth i buf zero_sample_inline_freq in
  exists stack_buf,
    List.length buf = 3%nat
    /\ stack_addr stack_buf = Heap 0 0
    /\ (forall i, (i <= 2)%nat -> inline_stack (record i) = stack_buf)
    /\ (forall i, (i <= 2)%nat -> (is_first (record i) = true <-> i = O))
    /\ (forall i, (i <= 2)%nat ->
          sp_inline_info_del (record i)
          = if Nat.eqb i 0 then Some (stack_addr stack_buf) else None)
    /\ line_num (record 2%nat) = 0
    /\ freq (record 2%nat) = 5000
    /\ is_first (record 2%nat) = false.
Proof.
  refine (first_record_of_group_owns_the_stack sample_file foo_hdr 0 1
            before_groups foo_group_hdr 3
            (final_state (read_inline_group sample_file foo_hdr 0 1 before_groups))
            _ _ _ _).
  - reflexivity.
  - reflexivity.
  - cbv. split; reflexivity.
  - vm_compute. reflexivity.
Defined.

Lemma empty_inline_group_is_skipped_witness :
  exists s',
    read_inline_group empty_group_file foo_hdr 0 1 before_groups = Val 1 s'
    /\ sp_inline_htab s' = sp_inline_htab before_groups
    /\ sp_htab s' = sp_htab before_groups
    /\ sp_max_count s' = sp_max_count before_groups
    /\ inline_sample_buf s' = inline_sample_buf before_groups
    /\ heap_blocks s' = heap_blocks before_groups
    /\ diagnostics s' = diagnostics before_groups.
Proof.
  refine (empty_inline_group_is_skipped empty_group_file foo_hdr 0 1
            before_groups foo_empty_group_hdr _ _ _); reflexivity.
Defined.

(** The records of the group of foo after the whole example file is read:
    the first per-line record is the one marked [is_first], the call-site
    total with line 0 is not. *)
Lemma callsite_total_is_not_the_owner :
  match sp_reader (Some sample_file) initial_state with
  | Return v s' =>
      v = 4
      /\ map (fun r => (line_num r, freq r, is_first r,
                        stack_addr (inline_stack r)))
           (snd (inline_sample_buf s'))
         = [(20, 50, true, Heap 2 0); (21, 60, false, Heap 2 0);
            (0, 5000, false, Heap 2 0)]
  | _ => False
  end.
Proof. vm_compute. split; reflexivity. Qed.

(** The example file read from the initial state: the second record of
    line 10 is a duplicate, the flat table keeps the frequency 100 of the
    first, and [sp_max_count] is the 900 of the duplicate, not the total
    5000 of the call site. *)
Lemma duplicate_counts_for_the_maximum :
  match sp_reader (Some sample_file) initial_state with
  | Return _ s' =>
      sp_max_count s' = 900
      /\ option_map (fun slot => fd_freq (snd slot))
           (htab_find sp_info_eq (sp_htab s')
              (mk_sample_freq_detail "a.c" "foo" 10 0 0)) = Some 100
      /\ diagnostics s' = [Inform "Duplicate entry: %s:%d func_name:%s"]
  | _ => False
  end.
Proof. vm_compute. repeat split; reflexivity. Qed.

Lemma first_insert_wins_witness :
  exists s',
    run_step (FlatSampleStep sample_file foo_hdr 1 1) after_first_record
    = Val 1 s'
    /\ sp_htab s' = sp_htab after_first_record
    /\ diagnostics s'
       = diagnostics after_first_record
         ++ [Inform "Duplicate entry: %s:%d func_name:%s"].
Proof.
  destruct (first_insert_wins (FlatSampleStep sample_file foo_hdr 1 1)
              after_first_record) as (_ & _ & Hflat & _).
  refine (Hflat sample_file foo_hdr 1 1 (mk_fb_info_freq 10 900 3)
            (Heap 1 0, mk_sample_freq_detail "a.c" "foo" 10 100 2)
            eq_refl _ _ _ _).
  - reflexivity.
  - vm_compute. lia.
  - reflexivity.
  - intros slot Hin. vm_compute in Hin. destruct Hin as [<- | []].
    reflexivity.
Defined.

Lemma sp_inline_info_eq_iff_witness :
  sp_inline_info_eq inlined_at_12 inlined_at_13 = false
  /\ htab_find sp_inline_info_eq [(Heap 3 0, inlined_at_12)] inlined_at_13 = None.
Proof.
  apply (proj2 (sp_inline_info_eq_iff inlined_at_12 inlined_at_13) (Heap 3 0)).
  right. exists 0. split; [simpl; lia|]. right. simpl. discriminate.
Defined.

Lemma sp_max_count_covers_every_record_read_witness :
  let s' := final_state (sp_reader (Some sample_file) initial_state) in
  samples_of_log (io_log s')
  = [mk_fb_info_freq 10 100 2; mk_fb_info_freq 10 900 3;
     mk_fb_info_freq 20 50 1; mk_fb_info_freq 21 60 1;
     mk_fb_info_freq 30 70 1]
  /\ sp_max_count s' = 900.
Proof.
  destruct (proj2 (sp_max_count_covers_every_record_read (FileStep None)
                     initial_state sample_file) 4
              (final_state (sp_reader (Some sample_file) initial_state)))
    as (Hsamples & Hmax & _).
  - reflexivity.
  - reflexivity.
  - vm_compute. reflexivity.
  - intros e Hin. vm_compute in Hin.
    repeat (destruct Hin as [<- | Hin]; [reflexivity|]). contradiction.
  - split; [exact Hsamples | exact Hmax].
Defined.

Lemma sp_info_eq_implies_equal_hash_witness :
  create_hash_string example_hash
    (fd_filename (mk_sample_freq_detail "a.c" "foo" 10 100 2))
    (fd_line_num (mk_sample_freq_detail "a.c" "foo" 10 100 2))
    (fd_func_name (mk_sample_freq_detail "a.c" "foo" 10 100 2))
  = create_hash_string example_hash
      (fd_filename (mk_sample_freq_detail "a.c" "foo" 10 900 3))
      (fd_line_num (mk_sample_freq_detail "a.c" "foo" 10 900 3))
      (fd_func_name (mk_sample_freq_detail "a.c" "foo" 10 900 3)).
Proof.
  apply (sp_info_eq_implies_equal_hash example_hash
           (mk_sample_freq_detail "a.c" "foo" 10 100 2)
           (mk_sample_freq_detail "a.c" "foo" 10 900 3)).
  reflexivity.
Defined.

Lemma sp_inline_info_eq_implies_equal_hash_witness :
  sp_inline_info_hash example_hash inlined_at_12
  = sp_inline_info_hash example_hash key_at_12.
Proof.
  apply (sp_inline_info_eq_implies_equal_hash example_hash inlined_at_12
           key_at_12).
  reflexivity.
Defined.

Lemma group_total_is_found_by_get_total_count_witness :
  let s' := final_state (read_inline_group sample_file foo_hdr 0 1 before_groups) in
  get_total_count two_file_map (fun _ => 12) (Some call_at_12) "foo" s'
  = Return 5000 s'.
Proof.
  refine (group_total_is_found_by_get_total_count two_file_map (fun _ => 12)
            sample_file foo_hdr 0 1 before_groups foo_group_hdr 3
            (final_state (read_inline_group sample_file foo_hdr 0 1 before_groups))
            call_at_12 0 (BLOCK 5 FUNCTION_DECL) _ _ _ _ _ _ _ _ _).
  - reflexivity.
  - reflexivity.
  - cbv. split; reflexivity.
  - vm_compute. reflexivity.
  - reflexivity.
  - reflexivity.
  - reflexivity.
  - intros q Hq. change (inline_depth foo_group_hdr) with 2 in *.
    assert (Hcases : q = 0 \/ q = 1) by lia.
    destruct Hcases as [-> | ->]; eexists; split; reflexivity.
  - reflexivity.
Defined.

Lemma sp_reader_returns_the_number_of_records_entered_witness :
  let s' := final_state (sp_reader (Some sample_file) initial_state) in
  exists new_flat new_inline,
    sp_htab s' = sp_htab initial_state ++ new_flat
    /\ sp_inline_htab s' = sp_inline_htab initial_state ++ new_inline
    /\ ((4 = wrap_u64 (Z.of_nat (List.length new_flat)
                       + Z.of_nat (List.length
                                     (filter per_line_slot new_inline)))
         /\ 4 = wrap_u64 (records_entered s' - records_entered initial_state))
        \/ (4 = 0 /\ failed_outside s')).
Proof.
  apply (sp_reader_returns_the_number_of_records_entered (Some sample_file)
           initial_state 4
           (final_state (sp_reader (Some sample_file) initial_state))).
  vm_compute. reflexivity.
Defined.

Lemma read_inline_function_returns_the_running_count_witness :
  let s' := final_state (read_inline_function sample_file foo_hdr 1
                           before_groups) in
  exists new_inline,
    sp_htab s' = sp_htab before_groups
    /\ sp_inline_htab s' = sp_inline_htab before_groups ++ new_inline
    /\ 3 = wrap_u64 (1 + Z.of_nat (List.length
                                     (filter per_line_slot new_inline)))
    /\ 3 = wrap_u64 (1 + (records_entered s'
                          - records_entered before_groups)).
Proof.
  apply (read_inline_function_returns_the_running_count sample_file foo_hdr
           1 before_groups 3
           (final_state (read_inline_function sample_file foo_hdr 1
                           before_groups))).
  - lia.
  - vm_compute. reflexivity.
Defined.

Lemma sample_profile_stays_enabled_only_with_samples_witness :
  let s' := final_state (init_sample_profile false (Some sample_file)
                           initial_state) in
  gate_sample_profile false s' = Val (flag_sample_profile s') s'
  /\ (flag_sample_profile s' = true ->
      false = false
      /\ sp_num_samples s' <> 0
      /\ sp_num_samples s'
         = wrap_u64 (Z.of_nat (List.length (sp_htab s'))
                     + Z.of_nat (List.length
                                   (filter per_line_slot (sp_inline_htab s')))))
  /\ (false = true ->
      flag_sample_profile s' = false
      /\ io_log s' = io_log initial_state
      /\ sp_htab s' = sp_htab initial_state
      /\ sp_inline_htab s' = sp_inline_htab initial_state
      /\ sp_num_samples s' = sp_num_samples initial_state).
Proof.
  apply (sample_profile_stays_enabled_only_with_samples false
           (Some sample_file) initial_state
           (final_state (init_sample_profile false (Some sample_file)
                           initial_state))).
  vm_compute. reflexivity.
Defined.

Lemma group_with_too_many_lines_overflows_its_buffer_witness :
  exists s',
    read_inline_group huge_group_file foo_hdr 0 1 before_groups = Undefined s'
    /\ snd (inline_sample_buf s') = []
    /\ sp_inline_htab s' = sp_inline_htab before_groups
    /\ forall e, In e (io_log s') ->
         In e (io_log before_groups) \/ io_failed e = false.
Proof.
  refine (group_with_too_many_lines_overflows_its_buffer huge_group_file
            foo_hdr 0 1 before_groups huge_group_hdr
            [mk_stack_entry 12 5; mk_stack_entry 0 12] _ _ _ _ _ _ _).
  - reflexivity.
  - reflexivity.
  - reflexivity.
  - cbv. split; reflexivity.
  - reflexivity.
  - reflexivity.
  - reflexivity.
Defined.

Lemma every_record_entered_is_found_witness :
  let s' := final_state (sp_reader (Some sample_file) initial_state) in
  (forall slot key,
      In slot (sp_htab s') -> sp_info_eq (snd slot) key = true ->
      htab_find sp_info_eq (sp_htab s') key = Some slot)
  /\ (forall slot key,
        In slot (sp_inline_htab s') ->
        sp_inline_info_eq (snd slot) key = true ->
        htab_find sp_inline_info_eq (sp_inline_htab s') key = Some slot).
Proof.
  apply (every_record_entered_is_found (Some sample_file) initial_state);
    reflexivity.
Defined.

Lemma inline_stacks_are_released_once_witness :
  let s' := final_state (sp_reader (Some sample_file) initial_state) in
  NoDup (htab_delete sp_inline_info_del (sp_inline_htab s'))
  /\ (forall a,
        In a (htab_delete sp_inline_info_del (sp_inline_htab s')) ->
        exists b, a = Heap b 0 /\ (b < heap_blocks s')%nat).
Proof.
  apply (inline_stacks_are_released_once (Some sample_file) initial_state);
    reflexivity.
Defined.

Lemma inline_records_have_their_frames_witness :
  0 < depth inlined_at_12 < FB_INLINE_MAX_STACK
  /\ Z.of_nat (List.length (frames (inline_stack inlined_at_12)))
     = depth inlined_at_12.
Proof.
  refine (inline_records_have_their_frames (Some sample_file) initial_state
            _ _ (Heap 3 0, inlined_at_12) _).
  - reflexivity.
  - reflexivity.
  - vm_compute. in_list.
Defined.

Lemma flat_record_without_positive_line_aborts_witness :
  exists s',
    read_flat_sample zero_line_file foo_hdr 0 0 before_first_record = Abort s'
    /\ sp_htab s' = sp_htab before_first_record
    /\ diagnostics s' = diagnostics before_first_record
    /\ sp_max_count s' = Z.max (sp_max_count before_first_record) 100.
Proof.
  refine (flat_record_without_positive_line_aborts zero_line_file foo_hdr 0 0
            before_first_record (mk_fb_info_freq 0 100 2) _ _ _).
  - reflexivity.
  - simpl. lia.
  - vm_compute. lia.
Defined.

Lemma flat_table_holds_positive_lines_only_witness :
  let s' := final_state (sp_reader (Some sample_file) initial_state) in
  (forall slot, In slot (sp_htab s') -> 0 < fd_line_num (snd slot))
  /\ (forall key, fd_line_num key <= 0 ->
        htab_find sp_info_eq (sp_htab s') key = None).
Proof.
  apply (flat_table_holds_positive_lines_only (Some sample_file) initial_state).
  reflexivity.
Defined.

(** The reading of the example file with a record at line 0 stops at the
    assertion; that of the example file proper ends with the count 4. *)
Lemma reading_stops_at_the_record_without_line :
  (exists s', sp_reader (Some zero_line_file) initial_state = Abort s')
  /\ (exists s', sp_reader (Some sample_file) initial_state = Return 4 s').
Proof. split; eexists; vm_compute; reflexivity. Qed.

Lemma block_of_a_sampled_line_gets_the_count_read_witness :
  sp_annotate_bb line_map
    (final_state (sp_reader (Some sample_file) initial_state)) "foo"
    (mk_basic_block 2 [stmt_at 10] 0) tt
  = Val (mk_basic_block 2 [stmt_at 10] 50) tt.
Proof.
  refine (block_of_a_sampled_line_gets_the_count_read line_map
            (Some sample_file) initial_state
            (Heap 1 0, mk_sample_freq_detail "a.c" "foo" 10 100 2)
            (stmt_at 10) 2 0 unit tt _ _ _ _ _ _ _ _).
  - reflexivity.
  - reflexivity.
  - vm_compute. in_list.
  - reflexivity.
  - reflexivity.
  - reflexivity.
  - simpl. lia.
  - simpl. lia.
Defined.

Lemma sp_init_cfg_shares_out_the_counts_witness :
  exists bb',
    nth_error (inner_blocks (sp_init_cfg 10000 diamond)) 0 = Some bb'
    /\ block_index bb' = 2
    /\ map dest (succs bb') = [3; 4; 1]
    /\ map probability (succs bb') = [3333; 3333; 3334]
    /\ map edge_count (succs bb') = [33; 33; 33]
    /\ block_count bb' = 99.
Proof.
  destruct (sp_init_cfg_shares_out_the_counts 10000 diamond 0
              (mk_cfg_block 2 100
                 [mk_cfg_edge 3 3333 7; mk_cfg_edge 4 3333 7;
                  mk_cfg_edge 1 3334 7]) eq_refl)
    as (bb' & Hnth & Hidx & Hdest & Hprob & Hcount & Hsum & _).
  exists bb'. rewrite Hsum.
  destruct (succs bb') as [|e1 [|e2 [|e3 [|e4 es]]]]; try discriminate.
  injection Hcount as H1 H2 H3.
  cbn [fold_left map edge_count] in *. rewrite H1, H2, H3.
  repeat split; assumption || reflexivity.
Defined.

Lemma first_pass_leaves_the_profile_read_or_absent_witness :
  let c := mk_cfun (foo_cfg [block_at 2 [1; 2]]) false in
  let c' :=
    final_state (execute_sample_profile line_map no_smoothing guess false
                   small_tables c) in
  0 = 0
  /\ after_tree_profile c' = true
  /\ (forall estimate,
        execute_sample_profile line_map no_smoothing estimate false
          small_tables c'
        = execute_sample_profile line_map no_smoothing guess true
            small_tables c')
  /\ ((profile_status (cfun_cfg c') = PROFILE_READ
       /\ profile_info (cfun_cfg c')
          = Some (mk_gcov_ctr_summary 1 (sp_max_count small_tables)))
      \/ (profile_status (cfun_cfg c') = PROFILE_ABSENT
          /\ profile_info (cfun_cfg c') = profile_info (guess (cfun_cfg c))
          /\ forall bb, In bb (basic_blocks (cfun_cfg c')) -> count bb = 0)).
Proof.
  apply (first_pass_leaves_the_profile_read_or_absent line_map no_smoothing
           guess small_tables (mk_cfun (foo_cfg [block_at 2 [1; 2]]) false) 0).
  - reflexivity.
  - reflexivity.
Defined.

Lemma block_of_an_inlined_line_gets_the_count_read_witness :
  sp_annotate_bb two_file_map
    (final_state (sp_reader (Some sample_file) initial_state)) "foo"
    (mk_basic_block 2 [inlined_stmt_at_20] 0) tt
  = Val (mk_basic_block 2 [inlined_stmt_at_20] 50) tt.
Proof.
  refine (block_of_an_inlined_line_gets_the_count_read two_file_map
            (Some sample_file) initial_state (Heap 3 0, inlined_at_12)
            inlined_stmt_at_20 2 0 unit tt _ _ _ _ _ _ _ _ _).
  - reflexivity.
  - reflexivity.
  - vm_compute. in_list.
  - reflexivity.
  - reflexivity.
  - simpl. discriminate.
  - reflexivity.
  - simpl. lia.
  - simpl. lia.
Defined.

Lemma slots_point_to_distinct_elements_witness :
  let s' := final_state (sp_reader (Some sample_file) initial_state) in
  NoDup (map fst (sp_htab s'))
  /\ NoDup (map fst (sp_inline_htab s'))
  /\ (forall slot slot',
        In slot (sp_htab s') -> In slot' (sp_htab s') ->
        address_eqb (fst slot) (fst slot') = true -> slot = slot')
  /\ (forall slot slot',
        In slot (sp_inline_htab s') -> In slot' (sp_inline_htab s') ->
        address_eqb (fst slot) (fst slot') = true -> slot = slot').
Proof.
  apply (slots_point_to_distinct_elements (Some sample_file) initial_state).
  - reflexivity.
  - reflexivity.
Defined.


(** The file whose headers are declared wider than the struct: the read of
    the first function header stores outside it, although the bytes are
    there. *)
Lemma header_wider_than_the_struct_is_stored_outside :
  d_func_hdr_bytes wide_entry_file 56 80
  = Some (mk_func_sample_hdr 0 4 2 0 0 0 0 0 0 0)
  /\ exists s',
      sp_reader (Some wide_entry_file) initial_state = Undefined s'
      /\ io_log s'
         = [(FileHeaderRead, Done); (StrTableSeek, Done); (StrTableRead, Done);
            (FuncHdrSeek, Done)]
      /\ sp_htab s' = [].
Proof. split; [reflexivity|]. eexists. vm_compute. repeat split; reflexivity. Qed.
